(** * Timeline interaction engine of the AvaLIBRAS authoring tool

    A shallow embedding of the timeline state and interaction model of
    [src/base.js]: the time formatting helpers, the centralised overlay
    store [OverlayState] with its project projection, the
    [VisualStateManager], the trim selection of [VideoEditor], the
    pointer and keyboard drag/resize handlers of overlay segments, and
    the selected-overlay synchronisation.

    Conventions of the embedding.
    - A JavaScript number that the code only adds, scales, compares and
      clamps is an exact rational [Q]; rounding of IEEE doubles is not
      modelled.  Where the source itself tests for non-finite numbers
      ([isFinite], [!seconds]) the number is a [JsNum], which adds
      [NaN] and the two infinities.
    - A JavaScript object used as a record of named fields is a Rocq
      record; one used as a dictionary (the sections of the visual
      state, [Map]s) is a [gmap] keyed by strings.
    - A string field that the code tests for truthiness uses the empty
      string for every falsy value ([undefined], [null], ['']).
    - Console output is kept as a list of log lines only where a
      property speaks about logging. *)

From Stdlib Require Import QArith Qabs Qminmax Qround Qfield Lqa Lia ZArith.
From Stdlib Require Import String Ascii List DecimalString.
From stdpp Require Import base gmap strings list fin_maps.

(* ================================================================== *)
(** * Part I.  The embedding                                           *)
(* ================================================================== *)

(** ** JavaScript numbers with their non-finite values *)

Module Js.
Local Open Scope string_scope.

Inductive JsNum : Type :=
| Fin (q : Q)
| NaN
| PosInf
| NegInf.

(** An integral result of [Math.floor]. *)
Inductive JsInt : Type :=
| IFin (z : Z)
| INaN
| IPosInf
| INegInf.

(** The argument of a one-number function: a number or [undefined]. *)
Inductive JsArg : Type :=
| ANum (n : JsNum)
| AUndefined.

(** [ToNumber]: [undefined] converts to [NaN]. *)
Definition to_number (a : JsArg) : JsNum :=
  match a with
  | ANum n => n
  | AUndefined => NaN
  end.

(** [!x] for a number or [undefined]: falsy are [0], [NaN], [undefined]. *)
Definition falsy (a : JsArg) : bool :=
  match a with
  | AUndefined => true
  | ANum NaN => true
  | ANum (Fin q) => Qeq_bool q 0
  | ANum _ => false
  end.

(** [isFinite(x)] after [ToNumber]. *)
Definition isFinite (a : JsArg) : bool :=
  match to_number a with
  | Fin _ => true
  | _ => false
  end.

(** [x / c] for a positive finite constant [c]. *)
Definition div_pos (x : JsNum) (c : Q) : JsNum :=
  match x with
  | Fin q => Fin (q / c)
  | other => other
  end.

(** [x * c] for a positive finite constant [c]. *)
Definition mul_pos (x : JsNum) (c : Q) : JsNum :=
  match x with
  | Fin q => Fin (q * c)
  | other => other
  end.

(** [Math.trunc] on rationals: rounding towards zero. *)
Definition Qtrunc (q : Q) : Z :=
  if Qle_bool 0 q then Qfloor q else Qceiling q.

(** [x % c] for a positive finite constant [c]: the remainder has the
    sign of the dividend; an infinite dividend gives [NaN]. *)
Definition rem_pos (x : JsNum) (c : Q) : JsNum :=
  match x with
  | Fin q => Fin (q - c * inject_Z (Qtrunc (q / c)))
  | _ => NaN
  end.

Definition floor (x : JsNum) : JsInt :=
  match x with
  | Fin q => IFin (Qfloor q)
  | NaN => INaN
  | PosInf => IPosInf
  | NegInf => INegInf
  end.

Definition of_int (i : JsInt) : JsNum :=
  match i with
  | IFin z => Fin (inject_Z z)
  | INaN => NaN
  | IPosInf => PosInf
  | INegInf => NegInf
  end.

(** [x - y]; the difference of equal infinities is [NaN]. *)
Definition sub (x y : JsNum) : JsNum :=
  match x, y with
  | Fin a, Fin b => Fin (a - b)
  | NaN, _ | _, NaN => NaN
  | PosInf, PosInf | NegInf, NegInf => NaN
  | PosInf, _ => PosInf
  | NegInf, _ => NegInf
  | Fin _, PosInf => NegInf
  | Fin _, NegInf => PosInf
  end.

(** [String(n)] of an integral number, in plain decimal notation. *)
Definition to_string (i : JsInt) : string :=
  match i with
  | IFin z => NilZero.string_of_int (Z.to_int z)
  | INaN => "NaN"
  | IPosInf => "Infinity"
  | INegInf => "-Infinity"
  end.

Fixpoint repeat_char (c : ascii) (n : nat) : string :=
  match n with
  | O => EmptyString
  | S n' => String c (repeat_char c n')
  end.

(** [s.padStart(n, '0')]. *)
Definition padStart0 (n : nat) (s : string) : string :=
  repeat_char "0"%char (n - String.length s) ++ s.

End Js.

(** ** Time formatting *)

Module TimeFormat.
Import Js.
Local Open Scope string_scope.

(** The global [formatTime(seconds, includeMilliseconds = true)]. *)
Definition formatTime (seconds : JsArg) (includeMilliseconds : bool) : string :=
  let s := to_number seconds in
  let minutes := floor (div_pos s 60) in
  let remainingSeconds := rem_pos s 60 in
  let baseTime :=
    padStart0 2 (to_string minutes) ++ ":" ++
    padStart0 2 (to_string (floor remainingSeconds)) in
  if includeMilliseconds then
    let milliseconds :=
      floor (mul_pos (sub remainingSeconds (of_int (floor remainingSeconds))) 1000) in
    baseTime ++ "." ++ padStart0 3 (to_string milliseconds)
  else baseTime.

(** The global [formatTimeWithMilliseconds(seconds)]. *)
Definition formatTimeWithMilliseconds (seconds : JsArg) : string :=
  let s := to_number seconds in
  let mins := floor (div_pos s 60) in
  let secs := floor (rem_pos s 60) in
  let ms := floor (mul_pos (rem_pos s 1) 1000) in
  padStart0 2 (to_string mins) ++ ":" ++ padStart0 2 (to_string secs)
    ++ "." ++ padStart0 3 (to_string ms).

(** [OverlayUtils.formatTime(seconds)]. *)
Definition OverlayUtils_formatTime (seconds : JsArg) : string :=
  if falsy seconds || negb (isFinite seconds) then "0:00"
  else
    let s := to_number seconds in
    let mins := floor (div_pos s 60) in
    let secs := floor (rem_pos s 60) in
    to_string mins ++ ":" ++ padStart0 2 (to_string secs).

(** [OverlayUtils.formatTimeWithMilliseconds(seconds)]. *)
Definition OverlayUtils_formatTimeWithMilliseconds (seconds : JsArg) : string :=
  if falsy seconds || negb (isFinite seconds) then "0:00.000"
  else formatTimeWithMilliseconds seconds.

(** The shapes [MM:SS] and [MM:SS.mmm]: two digits, a colon, two
    digits and, with milliseconds, a dot and three digits. *)
Definition is_digit (c : ascii) : bool :=
  (48 <=? nat_of_ascii c)%nat && (nat_of_ascii c <=? 57)%nat.

Fixpoint all_digits (s : string) : bool :=
  match s with
  | EmptyString => true
  | String c rest => is_digit c && all_digits rest
  end.

Definition has_shape (withMilliseconds : bool) (s : string) : bool :=
  match s with
  | String m1 (String m2 (String c (String s1 (String s2 rest)))) =>
      is_digit m1 && is_digit m2 && Ascii.eqb c ":" && is_digit s1 && is_digit s2
      && (if withMilliseconds then
            match rest with
            | String d ms => Ascii.eqb d "." && (String.length ms =? 3)%nat && all_digits ms
            | EmptyString => false
            end
          else
            match rest with
            | EmptyString => true
            | _ => false
            end)
  | _ => false
  end.

(** [String(n).padStart(width, '0')] is [width] digits. *)
Definition padded_digits (width : nat) (n : nat) : bool :=
  let s := padStart0 width (to_string (IFin (Z.of_nat n))) in
  (String.length s =? width)%nat && all_digits s.

End TimeFormat.

(** ** The centralised overlay store [OverlayState] *)

Module OverlayStore.

(** An overlay record of [OverlayState.overlays].  [ov_start] and
    [ov_end] are the legacy fields that the drag handlers write next to
    [startTime] and [duration]. *)
Record Overlay : Type := mkOverlay {
  ov_id : string;
  ov_label : string;
  ov_image : string;
  ov_startTime : Q;
  ov_duration : Q;
  ov_position : string;
  ov_size : Q;
  ov_opacity : Q;
  ov_start : option Q;
  ov_end : option Q
}.

(** The [data] argument of [updateOverlay]: any subset of the fields. *)
Record OverlayPatch : Type := mkPatch {
  p_id : option string;
  p_label : option string;
  p_image : option string;
  p_startTime : option Q;
  p_duration : option Q;
  p_position : option string;
  p_size : option Q;
  p_opacity : option Q;
  p_start : option Q;
  p_end : option Q
}.


Definition or_keep {A} (new : option A) (old : option A) : option A :=
  match new with
  | Some x => Some x
  | None => old
  end.

(** [Object.assign(overlay, data)]. *)
Definition assign (o : Overlay) (d : OverlayPatch) : Overlay :=
  {| ov_id := default (ov_id o) (p_id d);
     ov_label := default (ov_label o) (p_label d);
     ov_image := default (ov_image o) (p_image d);
     ov_startTime := default (ov_startTime o) (p_startTime d);
     ov_duration := default (ov_duration o) (p_duration d);
     ov_position := default (ov_position o) (p_position d);
     ov_size := default (ov_size o) (p_size d);
     ov_opacity := default (ov_opacity o) (p_opacity d);
     ov_start := or_keep (p_start d) (ov_start o);
     ov_end := or_keep (p_end d) (ov_end o) |}.

(** An entry of [currentProject.overlays].  [po_obj] is the identity of
    the JavaScript object holding the entry: [Object.assign] keeps it,
    an object literal pushed on the array gets a new one. *)
Record ProjectOverlay : Type := mkProjectOverlay {
  po_obj : nat;
  po_id : string;
  po_label : string;
  po_start : Q;
  po_duration : Q;
  po_position : string;
  po_size : Q;
  po_opacity : Q;
  po_imageFile : string
}.

Record VideoState : Type := mkVideoState {
  vs_isReady : bool;
  vs_duration : Q;
  vs_currentTime : Q
}.

Definition initialVideoState : VideoState := mkVideoState false 0 0.

Inductive LogLine : Type :=
| ListenerAdded (event : string)
| ListenerError (event : string) (err : string)
| EventEmitted (event : string)
| IdGenerated (id : string)
| OverlayAdded (id : string)
| OverlayRemoved (id : string)
| OverlayUpdated (id : string)
| OverlayNotFound (id : string)
| SyncDone
| StateCleared.

(** Callbacks are named; what a callback does is given by the
    environment (see [behaviour] below). *)
Definition HandlerId : Type := nat.

(** The store together with what its methods reach: the project's
    overlay array ([None] when [currentProject] or its [overlays] is
    missing) and the console. *)
Record World : Type := mkWorld {
  overlays : list Overlay;
  activeOverlay : option Overlay;
  videoState : VideoState;
  eventListeners : gmap string (list HandlerId);
  projectOverlays : option (list ProjectOverlay);
  nextObj : nat;
  console : list LogLine
}.

Definition initialWorld : World :=
  mkWorld [] None initialVideoState ∅ (Some []) 0 [].

Definition set_overlays (l : list Overlay) (w : World) : World :=
  mkWorld l (activeOverlay w) (videoState w) (eventListeners w)
          (projectOverlays w) (nextObj w) (console w).

Definition set_eventListeners (m : gmap string (list HandlerId)) (w : World) : World :=
  mkWorld (overlays w) (activeOverlay w) (videoState w) m
          (projectOverlays w) (nextObj w) (console w).

Definition set_project (p : list ProjectOverlay) (n : nat) (w : World) : World :=
  mkWorld (overlays w) (activeOverlay w) (videoState w) (eventListeners w)
          (Some p) n (console w).

Definition log (l : LogLine) (w : World) : World :=
  mkWorld (overlays w) (activeOverlay w) (videoState w) (eventListeners w)
          (projectOverlays w) (nextObj w) (console w ++ [l]).

(** The payload of the [overlayUpdated] event. *)
Record EventData : Type := mkEventData {
  ev_id : string;
  ev_overlay : Overlay;
  ev_oldData : Overlay;
  ev_changes : OverlayPatch
}.

(** How a call ends: normally, or by a thrown exception; either way
    the effects made so far stay. *)
Inductive Completion : Type :=
| Normal (w : World)
| Throw (err : string) (w : World).

Definition world_of (c : Completion) : World :=
  match c with
  | Normal w => w
  | Throw _ w => w
  end.

Definition is_normal (c : Completion) : bool :=
  match c with
  | Normal _ => true
  | Throw _ _ => false
  end.

(** [try { body } catch (error) { handler(error) }]. *)
Definition try_catch (body : World -> Completion)
           (handler : string -> World -> Completion) (w : World) : Completion :=
  match body w with
  | Normal w' => Normal w'
  | Throw e w' => handler e w'
  end.

(** *** Listener registry *)

Definition addEventListener (event : string) (callback : HandlerId) (w : World) : World :=
  let m := match eventListeners w !! event with
           | Some _ => eventListeners w
           | None => <[event := []]> (eventListeners w)
           end in
  let arr := default [] (m !! event) in
  log (ListenerAdded event) (set_eventListeners (<[event := arr ++ [callback]]> m) w).

(** [listeners.splice(index, 1)] at the first occurrence. *)
Fixpoint remove_first (callback : HandlerId) (l : list HandlerId) : list HandlerId :=
  match l with
  | [] => []
  | h :: t => if decide (h = callback) then t else h :: remove_first callback t
  end.

Definition removeEventListener (event : string) (callback : HandlerId) (w : World) : World :=
  match eventListeners w !! event with
  | Some listeners => set_eventListeners (<[event := remove_first callback listeners]> (eventListeners w)) w
  | None => w
  end.

Definition listenersOf (event : string) (w : World) : list HandlerId :=
  default [] (eventListeners w !! event).

(** [Array.prototype.forEach] on the listener array of [event]: the
    length is read once, each index is read from the live array when
    its turn comes, and an exception of the callback ends the loop. *)
Fixpoint forEach_listeners (event : string) (cb : HandlerId -> World -> Completion)
         (k remaining : nat) (w : World) : Completion :=
  match remaining with
  | O => Normal w
  | S r =>
      match listenersOf event w !! k with
      | Some h =>
          match cb h w with
          | Normal w' => forEach_listeners event cb (S k) r w'
          | Throw e w' => Throw e w'
          end
      | None => forEach_listeners event cb (S k) r w
      end
  end.

(** *** Derived projection *)

(** The object literal [overlayData] of [syncWithProject]. *)
Definition overlayData (o : Overlay) (obj : nat) : ProjectOverlay :=
  {| po_obj := obj;
     po_id := ov_id o;
     po_label := if decide (ov_label o = "") then ("Overlay " ++ ov_id o)%string else ov_label o;
     po_start := ov_startTime o;
     po_duration := ov_duration o;
     po_position := ov_position o;
     po_size := ov_size o;
     po_opacity := ov_opacity o;
     po_imageFile := ov_image o |}.

(** [new Map(currentProject.overlays.map(o => [o.id, o]))]: each id is
    mapped to the position of the last entry carrying it. *)
Fixpoint index_from (k : nat) (proj : list ProjectOverlay) (m : gmap string nat)
  : gmap string nat :=
  match proj with
  | [] => m
  | e :: rest => index_from (S k) rest (<[po_id e := k]> m)
  end.

Definition currentOverlaysMap (proj : list ProjectOverlay) : gmap string nat :=
  index_from 0 proj ∅.

(** One round of [this.overlays.forEach(overlay => ...)]. *)
Definition sync_step (acc : gmap string nat * list ProjectOverlay * nat) (overlay : Overlay)
  : gmap string nat * list ProjectOverlay * nat :=
  let '(m, proj, next) := acc in
  match m !! ov_id overlay with
  | Some i =>
      (delete (ov_id overlay) m,
       alter (fun projectOverlay => overlayData overlay (po_obj projectOverlay)) i proj,
       next)
  | None => (m, proj ++ [overlayData overlay next], S next)
  end.

Definition syncWithProject (w : World) : World :=
  match projectOverlays w with
  | None => w
  | Some proj =>
      let '(m, proj1, next) :=
        fold_left sync_step (overlays w) (currentOverlaysMap proj, proj, nextObj w) in
      let removedIds := (map_to_list m).*1 in
      let proj2 :=
        if decide (removedIds = []) then proj1
        else filter (fun o => po_id o ∉ removedIds) proj1 in
      log SyncDone (set_project proj2 next w)
  end.

(** *** Store methods *)

Section Methods.

(** What each registered callback does when called with the event
    payload. *)
Variable behaviour : HandlerId -> EventData -> World -> Completion.

(** One callback run under the [try]/[catch] of [emit]. *)
Definition guarded (event : string) (data : EventData) (callback : HandlerId)
  : World -> Completion :=
  try_catch (behaviour callback data)
            (fun error w' => Normal (log (ListenerError event error) w')).

(** The effect of delivering the event to one subscriber: what the
    subscriber did, plus an error line if it threw. *)
Definition delivered (event : string) (data : EventData) (w : World) (h : HandlerId)
  : World :=
  match behaviour h data w with
  | Normal w' => w'
  | Throw e w' => log (ListenerError event e) w'
  end.

Definition emit (event : string) (data : EventData) (w : World) : Completion :=
  match eventListeners w !! event with
  | Some arr =>
      match forEach_listeners event (guarded event data) 0 (length arr) w with
      | Normal w' => Normal (log (EventEmitted event) w')
      | Throw e w' => Throw e w'
      end
  | None => Normal w
  end.

(** [addOverlay(overlay)]; [generated] is the token that
    [generateOverlayId] would return at this call. *)
Definition addOverlay (overlay : Overlay) (generated : string) (w : World) : World :=
  let '(overlay', w1) :=
    if decide (ov_id overlay = "")
    then (assign overlay (mkPatch (Some generated) None None None None None None None None None),
          log (IdGenerated generated) w)
    else (overlay, w) in
  let w2 := set_overlays (overlays w1 ++ [overlay']) w1 in
  log (OverlayAdded (ov_id overlay')) (syncWithProject w2).

Definition removeOverlay (id : string) (w : World) : World :=
  let w1 := set_overlays (filter (fun o => ov_id o ≠ id) (overlays w)) w in
  log (OverlayRemoved id) (syncWithProject w1).

Definition updateOverlay (id : string) (data : OverlayPatch) (w : World) : Completion :=
  match list_find (fun o => ov_id o = id) (overlays w) with
  | Some (i, overlay) =>
      let oldData := overlay in
      let overlay' := assign overlay data in
      let w1 := set_overlays (<[i := overlay']> (overlays w)) w in
      let w2 := log (OverlayUpdated id) (syncWithProject w1) in
      emit "overlayUpdated" (mkEventData id overlay' oldData data) w2
  | None => Normal (log (OverlayNotFound id) w)
  end.

Definition getOverlay (id : string) (w : World) : option Overlay :=
  snd <$> list_find (fun o => ov_id o = id) (overlays w).

Definition getAllOverlays (w : World) : list Overlay := overlays w.

Definition clear (w : World) : World :=
  mkWorld [] None initialVideoState (eventListeners w)
          (projectOverlays w) (nextObj w) (console w ++ [StateCleared]).

(** A call of the store's mutating interface. *)
Inductive StoreOp : Type :=
| OpAdd (overlay : Overlay) (generated : string)
| OpUpdate (id : string) (data : OverlayPatch)
| OpRemove (id : string).

Definition run_op (op : StoreOp) (w : World) : World :=
  match op with
  | OpAdd o g => addOverlay o g w
  | OpUpdate id d => world_of (updateOverlay id d w)
  | OpRemove id => removeOverlay id w
  end.

Definition run_ops (ops : list StoreOp) (w : World) : World :=
  fold_left (fun w op => run_op op w) ops w.

End Methods.

(** *** The reconciliation in the words of the specification

    An id-based diff: an entry whose id is still in the store is
    updated in place (same object, same relative position), an entry
    whose id is no longer in the store is removed, and a store record
    whose id has no entry is appended as a new object. *)

Fixpoint find_overlay (id : string) (store : list Overlay) : option Overlay :=
  match store with
  | [] => None
  | o :: rest => if decide (ov_id o = id) then Some o else find_overlay id rest
  end.

Definition reconcile_by_id (store : list Overlay) (proj : list ProjectOverlay) (next : nat)
  : list ProjectOverlay :=
  omap (fun e => (fun o => overlayData o (po_obj e)) <$> find_overlay (po_id e) store) proj
  ++ imap (fun i o => overlayData o (next + i))
          (filter (fun o => ov_id o ∉ po_id <$> proj) store).

(** The loop of [syncWithProject] keeps the map and the array in
    step: every key of the map points at the entry carrying it. *)
Definition loop_inv (m : gmap string nat) (P : list ProjectOverlay) : Prop :=
  (forall id i, m !! id = Some i -> exists e, P !! i = Some e /\ po_id e = id)
  /\ (forall j e, P !! j = Some e -> forall i, m !! po_id e = Some i -> i = j).

(** [Object.assign(projectOverlay, overlayData)] on the entry of [o]'s id. *)
Definition upd_if (o : Overlay) (e : ProjectOverlay) : ProjectOverlay :=
  if decide (po_id e = ov_id o) then overlayData o (po_obj e) else e.

(** What the loop has done to an entry present before it started. *)
Definition looped (m : gmap string nat) (S : list Overlay) (e : ProjectOverlay)
  : ProjectOverlay :=
  match m !! po_id e, find_overlay (po_id e) S with
  | Some _, Some o => overlayData o (po_obj e)
  | _, _ => e
  end.

(** The projection holds exactly one entry per store id, carrying the
    store record's start time and duration. *)
Definition projection_matches (store : list Overlay) (proj : list ProjectOverlay) : Prop :=
  NoDup (po_id <$> proj)
  /\ (forall o, o ∈ store ->
        exists e, filter (fun e' => po_id e' = ov_id o) proj = [e]
                  /\ po_start e = ov_startTime o /\ po_duration e = ov_duration o)
  /\ (forall e, e ∈ proj -> po_id e ∈ ov_id <$> store).


(** Subscribers that leave the store and the projection alone. *)
Definition keeps_store (behaviour : HandlerId -> EventData -> World -> Completion) : Prop :=
  forall h d w,
    overlays (world_of (behaviour h d w)) = overlays w
    /\ projectOverlays (world_of (behaviour h d w)) = projectOverlays w.

(** Subscribers that do not register or unregister listeners while an
    event is being delivered. *)
Definition keeps_listeners (behaviour : HandlerId -> EventData -> World -> Completion) : Prop :=
  forall h d w, eventListeners (world_of (behaviour h d w)) = eventListeners w.

(** The id under which [addOverlay] stores its argument. *)
Definition stored_id (overlay : Overlay) (generated : string) : string :=
  if decide (ov_id overlay = "") then generated else ov_id overlay.



(** *** Sample data *)

(** A subscriber that throws, and one that leaves a trace in the
    console; every other callback does nothing. *)
Definition sampleBehaviour (h : HandlerId) (d : EventData) (w : World) : Completion :=
  match h with
  | 0 => Throw "listener failed" w
  | 1 => Normal (log (OverlayUpdated (ev_id d)) w)
  | _ => Normal w
  end.

Definition sampleOverlay (id : string) (startTime duration : Q) : Overlay :=
  mkOverlay id "" "image.png" startTime duration "center" 50 1 None None.

Definition sampleEntry (obj : nat) (id : string) (start duration : Q) : ProjectOverlay :=
  mkProjectOverlay obj id "old label" start duration "center" 50 1 "image.png".

Definition sampleEvent : EventData :=
  mkEventData "a" (sampleOverlay "a" 20 5) (sampleOverlay "a" 10 5)
              (mkPatch None None None (Some 20%Q) None None None None None None).

(** A store with two subscribers of [overlayUpdated]. *)
Definition sampleListening : World :=
  addEventListener "overlayUpdated" 1
    (addEventListener "overlayUpdated" 0 initialWorld).

(** A store ahead of its projection: ["a"] is in both, ["b"] is only
    in the store, ["c"] only in the projection. *)
Definition sampleStale : World :=
  mkWorld [sampleOverlay "a" 10 5; sampleOverlay "b" 30 2] None initialVideoState ∅
          (Some [sampleEntry 0 "c" 1 1; sampleEntry 1 "a" 0 5]) 2 [].


End OverlayStore.

(** ** The [VisualStateManager] *)

Module VisualState.

(** Primitive values held in the sections of the visual state. *)
Inductive JsVal : Type :=
| VUndefined
| VNull
| VBool (b : bool)
| VNum (q : Q)
| VNaN
| VStr (s : string).

(** [a === b] on primitives; [NaN] is not equal to itself. *)
Definition strict_eq (a b : JsVal) : bool :=
  match a, b with
  | VUndefined, VUndefined => true
  | VNull, VNull => true
  | VBool x, VBool y => Bool.eqb x y
  | VNum x, VNum y => Qeq_bool x y
  | VStr x, VStr y => String.eqb x y
  | _, _ => false
  end.

(** [obj[key]]: a missing property reads as [undefined]. *)
Definition get (obj : gmap string JsVal) (key : string) : JsVal :=
  default VUndefined (obj !! key).

(** [hasObjectChanged(current, incoming)].  Both arguments are objects
    at every call site, so the guard [!current || !incoming] never
    fires. *)
Definition hasObjectChanged (current incoming : gmap string JsVal) : bool :=
  existsb (fun kv => negb (strict_eq (get current kv.1) kv.2)) (map_to_list incoming).

(** [Object.assign(current, incoming)]. *)
Definition assign (current incoming : gmap string JsVal) : gmap string JsVal :=
  incoming ∪ current.

(** [updates.forEach((data, id) => map.set(id, {...map.get(id), ...data}))]. *)
Definition assignEach (current incoming : gmap string (gmap string JsVal))
  : gmap string (gmap string JsVal) :=
  union_with (fun data old => Some (data ∪ old)) incoming current.

Inductive SectionName : Type :=
| Playhead | Progress | Selection | Timeline | Body | Markers | Overlays.

(** The argument of [setState]: the sections that are present. *)
Record Updates : Type := mkUpdates {
  u_playhead : option (gmap string JsVal);
  u_progress : option (gmap string JsVal);
  u_selection : option (gmap string JsVal);
  u_timeline : option (gmap string JsVal);
  u_body : option (gmap string JsVal);
  u_markers : option (gmap string (gmap string JsVal));
  u_overlays : option (gmap string (gmap string JsVal))
}.

Definition noUpdates : Updates := mkUpdates None None None None None None None.

Record DirtyFlags : Type := mkDirty {
  d_playhead : bool;
  d_progress : bool;
  d_selection : bool;
  d_timeline : bool;
  d_body : bool;
  d_markers : bool;
  d_overlays : bool
}.

Definition allClean : DirtyFlags := mkDirty false false false false false false false.

Inductive LogLine : Type :=
| WarnSetStateWhileApplying
| WarnApplyWhileApplying.

(** The manager: its [state] object, the guard [_isApplyingState], the
    animation-frame callbacks it has requested, and two observations:
    the apply functions called so far and the console. *)
Record Manager : Type := mkManager {
  playhead : gmap string JsVal;
  progress : gmap string JsVal;
  selection : gmap string JsVal;
  timeline : gmap string JsVal;
  body : gmap string JsVal;
  markers : gmap string (gmap string JsVal);
  overlays : gmap string (gmap string JsVal);
  dirtyFlags : DirtyFlags;
  batchUpdatePending : bool;
  updateCount : nat;
  skippedUpdates : nat;
  isApplyingState : bool;
  pendingFrames : nat;
  applied : list SectionName;
  console : list LogLine
}.

Definition s (k : string) (v : JsVal) : string * JsVal := (k, v).

(** The initial [state] of the source. *)
Definition initialManager : Manager :=
  {| playhead := list_to_map
       [s "position" (VNum 0); s "display" (VStr "block"); s "isDragging" (VBool false);
        s "isHidden" (VBool false); s "cursor" (VStr "grab")];
     progress := list_to_map
       [s "width" (VNum 0); s "display" (VStr "block"); s "isHidden" (VBool false)];
     selection := list_to_map
       [s "left" (VNum 0); s "width" (VNum 0); s "display" (VStr "none");
        s "isActive" (VBool false); s "isSelectionMode" (VBool false);
        s "isMoving" (VBool false); s "startHandleVisible" (VBool false);
        s "endHandleVisible" (VBool false)];
     timeline := list_to_map [s "cursor" (VStr "default"); s "isSelecting" (VBool false)];
     body := list_to_map [s "cursor" (VStr "default")];
     markers := ∅;
     overlays := ∅;
     dirtyFlags := allClean;
     batchUpdatePending := false;
     updateCount := 0;
     skippedUpdates := 0;
     isApplyingState := false;
     pendingFrames := 0;
     applied := [];
     console := [] |}.

Definition set_dirty (d : DirtyFlags) (m : Manager) : Manager :=
  mkManager (playhead m) (progress m) (selection m) (timeline m) (body m) (markers m)
            (overlays m) d (batchUpdatePending m) (updateCount m) (skippedUpdates m)
            (isApplyingState m) (pendingFrames m) (applied m) (console m).

Definition set_applying (b : bool) (m : Manager) : Manager :=
  mkManager (playhead m) (progress m) (selection m) (timeline m) (body m) (markers m)
            (overlays m) (dirtyFlags m) (batchUpdatePending m) (updateCount m)
            (skippedUpdates m) b (pendingFrames m) (applied m) (console m).

Definition log (l : LogLine) (m : Manager) : Manager :=
  mkManager (playhead m) (progress m) (selection m) (timeline m) (body m) (markers m)
            (overlays m) (dirtyFlags m) (batchUpdatePending m) (updateCount m)
            (skippedUpdates m) (isApplyingState m) (pendingFrames m) (applied m)
            (console m ++ [l]).

Definition count_update (m : Manager) : Manager :=
  mkManager (playhead m) (progress m) (selection m) (timeline m) (body m) (markers m)
            (overlays m) (dirtyFlags m) (batchUpdatePending m) (S (updateCount m))
            (skippedUpdates m) (isApplyingState m) (pendingFrames m) (applied m)
            (console m).

Definition count_skipped (m : Manager) : Manager :=
  mkManager (playhead m) (progress m) (selection m) (timeline m) (body m) (markers m)
            (overlays m) (dirtyFlags m) (batchUpdatePending m) (updateCount m)
            (S (skippedUpdates m)) (isApplyingState m) (pendingFrames m) (applied m)
            (console m).

Definition record_applied (sec : SectionName) (m : Manager) : Manager :=
  mkManager (playhead m) (progress m) (selection m) (timeline m) (body m) (markers m)
            (overlays m) (dirtyFlags m) (batchUpdatePending m) (updateCount m)
            (skippedUpdates m) (isApplyingState m) (pendingFrames m) (applied m ++ [sec])
            (console m).

Definition set_batch (pending : bool) (frames : nat) (m : Manager) : Manager :=
  mkManager (playhead m) (progress m) (selection m) (timeline m) (body m) (markers m)
            (overlays m) (dirtyFlags m) pending (updateCount m)
            (skippedUpdates m) (isApplyingState m) frames (applied m) (console m).

Definition with_playhead (b : bool) (d : DirtyFlags) : DirtyFlags :=
  mkDirty b (d_progress d) (d_selection d) (d_timeline d) (d_body d) (d_markers d)
          (d_overlays d).
Definition with_progress (b : bool) (d : DirtyFlags) : DirtyFlags :=
  mkDirty (d_playhead d) b (d_selection d) (d_timeline d) (d_body d) (d_markers d)
          (d_overlays d).
Definition with_selection (b : bool) (d : DirtyFlags) : DirtyFlags :=
  mkDirty (d_playhead d) (d_progress d) b (d_timeline d) (d_body d) (d_markers d)
          (d_overlays d).
Definition with_timeline (b : bool) (d : DirtyFlags) : DirtyFlags :=
  mkDirty (d_playhead d) (d_progress d) (d_selection d) b (d_body d) (d_markers d)
          (d_overlays d).
Definition with_body (b : bool) (d : DirtyFlags) : DirtyFlags :=
  mkDirty (d_playhead d) (d_progress d) (d_selection d) (d_timeline d) b (d_markers d)
          (d_overlays d).
Definition with_markers (b : bool) (d : DirtyFlags) : DirtyFlags :=
  mkDirty (d_playhead d) (d_progress d) (d_selection d) (d_timeline d) (d_body d) b
          (d_overlays d).
Definition with_overlays (b : bool) (d : DirtyFlags) : DirtyFlags :=
  mkDirty (d_playhead d) (d_progress d) (d_selection d) (d_timeline d) (d_body d)
          (d_markers d) b.

(** One block [if (updates.x) { ... }] of [detectChanges] for an
    object section: [acc] is [(hasChanges, dirtyFlags)]. *)
Definition detect_object (incoming : option (gmap string JsVal))
           (current : gmap string JsVal) (setFlag : bool -> DirtyFlags -> DirtyFlags)
           (acc : bool * DirtyFlags) : bool * DirtyFlags :=
  match incoming with
  | Some inc =>
      let changed := hasObjectChanged current inc in
      (changed || acc.1, setFlag changed acc.2)
  | None => acc
  end.

(** The block for the markers map and for the overlays map. *)
Definition detect_map (incoming : option (gmap string (gmap string JsVal)))
           (setFlag : bool -> DirtyFlags -> DirtyFlags)
           (acc : bool * DirtyFlags) : bool * DirtyFlags :=
  match incoming with
  | Some _ => (true, setFlag true acc.2)
  | None => acc
  end.

Definition detect_all (updates : Updates) (m : Manager) : bool * DirtyFlags :=
  detect_map (u_overlays updates) with_overlays
    (detect_map (u_markers updates) with_markers
       (detect_object (u_body updates) (body m) with_body
          (detect_object (u_timeline updates) (timeline m) with_timeline
             (detect_object (u_selection updates) (selection m) with_selection
                (detect_object (u_progress updates) (progress m) with_progress
                   (detect_object (u_playhead updates) (playhead m) with_playhead
                      (false, dirtyFlags m))))))).

(** [detectChanges(updates)]: sets the dirty flag of every section
    that is present and tells whether anything changed. *)
Definition detectChanges (updates : Updates) (m : Manager) : bool * Manager :=
  ((detect_all updates m).1, set_dirty (detect_all updates m).2 m).

Definition assign_opt (current : gmap string JsVal) (incoming : option (gmap string JsVal))
  : gmap string JsVal :=
  match incoming with
  | Some inc => assign current inc
  | None => current
  end.

Definition assignEach_opt (current : gmap string (gmap string JsVal))
           (incoming : option (gmap string (gmap string JsVal)))
  : gmap string (gmap string JsVal) :=
  match incoming with
  | Some inc => assignEach current inc
  | None => current
  end.

(** [updateState(updates)]. *)
Definition updateState (updates : Updates) (m : Manager) : Manager :=
  mkManager (assign_opt (playhead m) (u_playhead updates))
            (assign_opt (progress m) (u_progress updates))
            (assign_opt (selection m) (u_selection updates))
            (assign_opt (timeline m) (u_timeline updates))
            (assign_opt (body m) (u_body updates))
            (assignEach_opt (markers m) (u_markers updates))
            (assignEach_opt (overlays m) (u_overlays updates))
            (dirtyFlags m) (batchUpdatePending m) (updateCount m) (skippedUpdates m)
            (isApplyingState m) (pendingFrames m) (applied m) (console m).

(** [scheduleBatchUpdate()]: at most one frame callback is pending. *)
Definition scheduleBatchUpdate (m : Manager) : Manager :=
  if batchUpdatePending m then m
  else set_batch true (S (pendingFrames m)) m.

Definition resetDirtyFlags (m : Manager) : Manager := set_dirty allClean m.

Definition is_dirty (sec : SectionName) (m : Manager) : bool :=
  match sec with
  | Playhead => d_playhead (dirtyFlags m)
  | Progress => d_progress (dirtyFlags m)
  | Selection => d_selection (dirtyFlags m)
  | Timeline => d_timeline (dirtyFlags m)
  | Body => d_body (dirtyFlags m)
  | Markers => d_markers (dirtyFlags m)
  | Overlays => d_overlays (dirtyFlags m)
  end.

(** The order in which [applyState] tests the flags. *)
Definition applyOrder : list SectionName :=
  [Playhead; Progress; Selection; Timeline; Body; Markers; Overlays].

(** How a call ends. *)
Inductive Outcome : Type :=
| Done (m : Manager)
| Raised (err : string) (m : Manager)
| OutOfFuel.

(** What the page does, synchronously, while an apply function writes
    to it: a callback may call [setState] again, and the step may
    throw. *)
Inductive Reaction : Type :=
| CallsSetState (updates : Updates) (batch : bool)
| Throws (err : string).

Definition is_call (r : Reaction) : bool :=
  match r with
  | CallsSetState _ _ => true
  | Throws _ => false
  end.

Section Apply.

(** The reactions of the page to each apply function. *)
Variable react : SectionName -> list Reaction.

(** The [setState] that a reaction reaches. *)
Variable nested : Updates -> bool -> Manager -> Outcome.

Fixpoint run_reactions (rs : list Reaction) (m : Manager) : Outcome :=
  match rs with
  | [] => Done m
  | CallsSetState u b :: rest =>
      match nested u b m with
      | Done m' => run_reactions rest m'
      | other => other
      end
  | Throws e :: _ => Raised e m
  end.

(** One of [applyPlayheadState], ..., [applyOverlayStates]. *)
Definition apply_section (sec : SectionName) (m : Manager) : Outcome :=
  run_reactions (react sec) (record_applied sec m).

(** The sequence of [if (this.state.dirtyFlags.x) this.applyX()]. *)
Fixpoint apply_dirty (secs : list SectionName) (m : Manager) : Outcome :=
  match secs with
  | [] => Done m
  | sec :: rest =>
      if is_dirty sec m then
        match apply_section sec m with
        | Done m' => apply_dirty rest m'
        | other => other
        end
      else apply_dirty rest m
  end.

(** [try { body } finally { this._isApplyingState = false }]. *)
Definition finally_release (o : Outcome) : Outcome :=
  match o with
  | Done m => Done (set_applying false m)
  | Raised e m => Raised e (set_applying false m)
  | OutOfFuel => OutOfFuel
  end.

Definition applyState_with (m : Manager) : Outcome :=
  if isApplyingState m then Done (log WarnApplyWhileApplying m)
  else
    let m1 := set_applying true m in
    finally_release
      (match apply_dirty applyOrder (count_update m1) with
       | Done m2 => Done (resetDirtyFlags m2)
       | other => other
       end).

End Apply.

Section SetState.

Variable react : SectionName -> list Reaction.

(** [setState(updates, batch)]; [fuel] bounds the depth of calls of
    [setState] from inside [applyState].  The closing
    [logStateChange] only prints. *)
Fixpoint setState_fuel (fuel : nat) (updates : Updates) (batch : bool) (m : Manager)
  : Outcome :=
  match fuel with
  | O => OutOfFuel
  | S fuel' =>
      if isApplyingState m then Done (log WarnSetStateWhileApplying m)
      else
        let '(hasChanges, m1) := detectChanges updates m in
        if negb hasChanges then Done (count_skipped m1)
        else
          let m2 := updateState updates m1 in
          if batch then Done (scheduleBatchUpdate m2)
          else applyState_with react (setState_fuel fuel') m2
  end.

(** Two levels are enough: a call from inside [applyState] returns
    at its guard (see [setState_fuel_enough]). *)
Definition setState (updates : Updates) (batch : bool) (m : Manager) : Outcome :=
  setState_fuel 2 updates batch m.

Definition applyState (m : Manager) : Outcome :=
  applyState_with react (setState_fuel 1) m.

(** The callback given to [requestAnimationFrame]. *)
Definition runAnimationFrame (m : Manager) : Outcome :=
  match pendingFrames m with
  | O => Done m
  | S n =>
      match applyState (set_batch (batchUpdatePending m) n m) with
      | Done m1 => Done (count_update (set_batch false (pendingFrames m1) m1))
      | other => other
      end
  end.

End SetState.

Definition manager_of (o : Outcome) (fallback : Manager) : Manager :=
  match o with
  | Done m => m
  | Raised _ m => m
  | OutOfFuel => fallback
  end.

(** A payload whose values all equal themselves under [===] (no
    [NaN]) and that carries neither a markers map nor an overlays
    map. *)
Definition self_equal (v : JsVal) : bool := strict_eq v v.

Definition object_self_equal (o : option (gmap string JsVal)) : bool :=
  match o with
  | Some obj => forallb (fun kv => self_equal kv.2) (map_to_list obj)
  | None => true
  end.

Definition diffable (u : Updates) : bool :=
  object_self_equal (u_playhead u) && object_self_equal (u_progress u)
  && object_self_equal (u_selection u) && object_self_equal (u_timeline u)
  && object_self_equal (u_body u)
  && bool_decide (u_markers u = None) && bool_decide (u_overlays u = None).

(** The sections that [detectChanges] marks dirty for a payload. *)
Definition changed_sections (u : Updates) (m : Manager) : list SectionName :=
  filter (fun sec => is_dirty sec (detectChanges u m).2) applyOrder.

Definition never_throws (react : SectionName -> list Reaction) : Prop :=
  forall sec, forallb is_call (react sec) = true.

(** What [setState] does when its guard fires: a warning, nothing else. *)
Definition dropped (_ : Updates) (_ : bool) (m : Manager) : Outcome :=
  Done (log WarnSetStateWhileApplying m).

Definition add_console (c : list LogLine) (m : Manager) : Manager :=
  mkManager (playhead m) (progress m) (selection m) (timeline m) (body m) (markers m)
            (overlays m) (dirtyFlags m) (batchUpdatePending m) (updateCount m)
            (skippedUpdates m) (isApplyingState m) (pendingFrames m) (applied m)
            (console m ++ c).

Definition add_applied (secs : list SectionName) (m : Manager) : Manager :=
  mkManager (playhead m) (progress m) (selection m) (timeline m) (body m) (markers m)
            (overlays m) (dirtyFlags m) (batchUpdatePending m) (updateCount m)
            (skippedUpdates m) (isApplyingState m) (pendingFrames m) (applied m ++ secs)
            (console m).

(** The seven sections of the state, as one tuple. *)
Definition sections (m : Manager) :=
  (playhead m, progress m, selection m, timeline m, body m, markers m, overlays m).

(** *** Sample data *)

(** [{ playhead: { position: 50 } }] *)
Definition playheadPayload : Updates :=
  mkUpdates (Some {[ "position" := VNum 50 ]}) None None None None None None.

(** [{ progress: { width: 50 } }] *)
Definition progressPayload : Updates :=
  mkUpdates None (Some {[ "width" := VNum 50 ]}) None None None None None.

(** [{ markers: new Map([["A", { selected: true }]]) }] *)
Definition markersPayload : Updates :=
  mkUpdates None None None None None
            (Some {[ "A" := {[ "selected" := VBool true ]} ]}) None.

(** [{ playhead: { position: NaN } }] *)
Definition nanPayload : Updates :=
  mkUpdates (Some {[ "position" := VNaN ]}) None None None None None None.

(** The initial manager with the playhead moved and marked dirty. *)
Definition sampleDirty : Manager :=
  updateState playheadPayload (detectChanges playheadPayload initialManager).2.

(** A page without synchronous callbacks. *)
Definition quietPage (_ : SectionName) : list Reaction := [].

(** A page where applying the playhead calls [setState] again. *)
Definition callingPage (sec : SectionName) : list Reaction :=
  match sec with
  | Playhead => [CallsSetState progressPayload false]
  | _ => []
  end.

(** A page where applying the playhead calls [setState] again and
    then throws. *)
Definition throwingPage (sec : SectionName) : list Reaction :=
  match sec with
  | Playhead => [CallsSetState progressPayload false; Throws "apply step failed"]
  | _ => []
  end.

End VisualState.

(** ** The trim selection of [VideoEditor] *)

Module Trim.

(** [a < b] as a boolean. *)
Definition Qltb (a b : Q) : bool := negb (Qle_bool b a).

(** The fields of the editor that the selection uses.  A bound is
    [None] when it is [null]; [videoDuration] is
    [this.videoPlayer.duration]. *)
Record VideoEditor : Type := mkEditor {
  startTime : option Q;
  endTime : option Q;
  isSelecting : bool;
  isSelectionModeActive : bool;
  videoDuration : Q
}.

(** The state the constructor leaves. *)
Definition newEditor (duration : Q) : VideoEditor :=
  mkEditor (Some 0%Q) (Some 0%Q) false false duration.

(** [this.timeline.getBoundingClientRect()]. *)
Record Rect : Type := mkRect { rect_left : Q; rect_width : Q }.

(** The time under the pointer:
    [((e.clientX - rect.left) / rect.width) * duration]. *)
Definition timeAt (clientX : Q) (rect : Rect) (ed : VideoEditor) : Q :=
  ((clientX - rect_left rect) / rect_width rect) * videoDuration ed.

(** [performSelection(e)]: the double click that marks the start. *)
Definition performSelection (clientX : Q) (rect : Rect) (ed : VideoEditor) : VideoEditor :=
  if Qeq_bool (videoDuration ed) 0 then ed
  else mkEditor (Some (timeAt clientX rect ed)) None (isSelecting ed) true
                (videoDuration ed).

(** [markSelectionEnd(e)]: the single click that marks the end. *)
Definition markSelectionEnd (clientX : Q) (rect : Rect) (ed : VideoEditor) : VideoEditor :=
  if negb (isSelectionModeActive ed) then ed
  else
    match startTime ed with
    | None => ed
    | Some st =>
        let clickTime := timeAt clientX rect ed in
        mkEditor (Some st) (Some (Qmax st clickTime)) (isSelecting ed)
                 (isSelectionModeActive ed) (videoDuration ed)
    end.

Inductive Notification : Type :=
| SelectRangeFirst
| StartMustPrecedeEnd
| RangeOutsideVideo
| RangeTooShort
| NoVideoBlob
| NoTempFile
| NoInputPath.

Definition minSelectionDuration : Q := 1 # 2.

(** [validateSelection()]: the verdict and the notification shown. *)
Definition validateSelection (ed : VideoEditor) : bool * list Notification :=
  match startTime ed, endTime ed with
  | Some st, Some en =>
      if Qle_bool en st then (false, [StartMustPrecedeEnd])
      else if Qltb st 0 || Qltb (videoDuration ed) en then (false, [RangeOutsideVideo])
      else if Qltb (en - st) minSelectionDuration then (false, [RangeTooShort])
      else (true, [])
  | _, _ => (false, [SelectRangeFirst])
  end.

(** What [cut()] learns from its collaborators while it looks for the
    input file. *)
Record CutEnv : Type := mkCutEnv {
  pathInMap : option string;
  urlIsBlob : bool;
  blobAvailable : bool;
  tempFile : option string
}.

Inductive Effect : Type :=
| Notify (n : Notification)
| HideTimeline
| TrimVideo (inputPath : string) (startTime endTime : option Q).

(** [cut()] up to and including the call of [electronAPI.trimVideo]. *)
Definition cut (env : CutEnv) (ed : VideoEditor) : list Effect :=
  let '(ok, notes) := validateSelection ed in
  if negb ok then Notify <$> notes
  else
    HideTimeline ::
    match pathInMap env with
    | Some path => [TrimVideo path (startTime ed) (endTime ed)]
    | None =>
        if urlIsBlob env then
          if negb (blobAvailable env) then [Notify NoVideoBlob]
          else
            match tempFile env with
            | None => [Notify NoTempFile]
            | Some path => [TrimVideo path (startTime ed) (endTime ed)]
            end
        else [Notify NoInputPath]
    end.

(** [cancelSelection()]. *)
Definition cancelSelection (ed : VideoEditor) : VideoEditor :=
  if negb (isSelectionModeActive ed) then ed
  else mkEditor (Some 0%Q) (Some 0%Q) (isSelecting ed) false (videoDuration ed).


(** *** Sample data: a 100 s video and a timeline 1000 px wide. *)
Definition sampleRect : Rect := mkRect 0 1000.
Definition sampleSelection : VideoEditor :=
  markSelectionEnd 500 sampleRect (performSelection 200 sampleRect (newEditor 100)).
Definition sampleCutEnv : CutEnv := mkCutEnv (Some "/videos/in.mp4") false false None.

End Trim.

(** ** Timeline elements, selection synchronisation, drag and resize *)

Module Timeline.

(** A marker or overlay element of the timeline.  [el_left] and
    [el_width] are the numbers that [parseFloat] reads from
    [style.left] and [style.width] (percent of the track); the
    [el_data_*] fields are the [data-*] attributes.  [el_attached]
    tells whether the node has a parent, which in this model is the
    same as being in the document. *)
Record Element : Type := mkElement {
  el_classes : gset string;
  el_attached : bool;
  el_left : Q;
  el_width : Q;
  el_data_id : string;
  el_data_label : string;
  el_data_start : Q;
  el_data_duration : Q;
  el_data_time : Q
}.

Definition set_classes (c : gset string) (el : Element) : Element :=
  mkElement c (el_attached el) (el_left el) (el_width el) (el_data_id el)
            (el_data_label el) (el_data_start el) (el_data_duration el) (el_data_time el).

Definition set_left (x : Q) (el : Element) : Element :=
  mkElement (el_classes el) (el_attached el) x (el_width el) (el_data_id el)
            (el_data_label el) (el_data_start el) (el_data_duration el) (el_data_time el).

Definition set_width (x : Q) (el : Element) : Element :=
  mkElement (el_classes el) (el_attached el) (el_left el) x (el_data_id el)
            (el_data_label el) (el_data_start el) (el_data_duration el) (el_data_time el).

Definition set_data_start (x : Q) (el : Element) : Element :=
  mkElement (el_classes el) (el_attached el) (el_left el) (el_width el) (el_data_id el)
            (el_data_label el) x (el_data_duration el) (el_data_time el).

Definition set_data_duration (x : Q) (el : Element) : Element :=
  mkElement (el_classes el) (el_attached el) (el_left el) (el_width el) (el_data_id el)
            (el_data_label el) (el_data_start el) x (el_data_time el).

Definition set_data_time (x : Q) (el : Element) : Element :=
  mkElement (el_classes el) (el_attached el) (el_left el) (el_width el) (el_data_id el)
            (el_data_label el) (el_data_start el) (el_data_duration el) x.

(** [classList.contains], [classList.add], [classList.remove]. *)
Definition has_class (c : string) (el : Element) : bool :=
  bool_decide (c ∈ el_classes el).

Definition classList_add (c : string) (el : Element) : Element :=
  set_classes ({[c]} ∪ el_classes el) el.

Definition classList_remove (cs : gset string) (el : Element) : Element :=
  set_classes (el_classes el ∖ cs) el.

Inductive InteractionType : Type :=
| Move
| ResizeLeft
| ResizeRight.

Inductive ResizeHandle : Type :=
| HandleLeft
| HandleRight.

(** [interactionType.includes('resize')]. *)
Definition includes_resize (t : InteractionType) : bool :=
  match t with
  | Move => false
  | _ => true
  end.

(** [timelineState.dragState]; [ds_element] is the index of the
    element in the document. *)
Record DragState : Type := mkDragState {
  ds_isDragging : bool;
  ds_element : option nat;
  ds_initialX : Q;
  ds_initialLeft : Q;
  ds_initialWidth : Q;
  ds_isResizing : bool;
  ds_isDraggingPlayhead : bool;
  ds_interactionType : option InteractionType;
  ds_resizeHandle : option ResizeHandle
}.

Definition idleDragState : DragState :=
  mkDragState false None 0 0 0 false false None None.

Record TimelineState : Type := mkTimelineState {
  selectedOverlay : option nat;
  dragState : DragState;
  currentMarkers : gmap string Q
}.

(** The page: the elements in document order, [timelineState], the
    overlay store with its project, the duration of the loaded video
    ([None] without a player) and the editor. *)
Record Page : Type := mkPage {
  dom : list Element;
  tl : TimelineState;
  world : OverlayStore.World;
  videoDuration : option Q;
  editor : Trim.VideoEditor
}.

Definition set_dom (d : list Element) (pg : Page) : Page :=
  mkPage d (tl pg) (world pg) (videoDuration pg) (editor pg).

Definition set_selected (x : option nat) (pg : Page) : Page :=
  mkPage (dom pg) (mkTimelineState x (dragState (tl pg)) (currentMarkers (tl pg)))
         (world pg) (videoDuration pg) (editor pg).

Definition set_drag (d : DragState) (pg : Page) : Page :=
  mkPage (dom pg) (mkTimelineState (selectedOverlay (tl pg)) d (currentMarkers (tl pg)))
         (world pg) (videoDuration pg) (editor pg).

Definition set_markers (m : gmap string Q) (pg : Page) : Page :=
  mkPage (dom pg) (mkTimelineState (selectedOverlay (tl pg)) (dragState (tl pg)) m)
         (world pg) (videoDuration pg) (editor pg).

Definition set_world (w : OverlayStore.World) (pg : Page) : Page :=
  mkPage (dom pg) (tl pg) w (videoDuration pg) (editor pg).

Definition set_editor (e : Trim.VideoEditor) (pg : Page) : Page :=
  mkPage (dom pg) (tl pg) (world pg) (videoDuration pg) e.

(** [videoPlayer && videoPlayer.duration ? videoPlayer.duration : 100]. *)
Definition durationOr100 (pg : Page) : Q :=
  match videoDuration pg with
  | Some d => if Qeq_bool d 0 then 100 else d
  | None => 100
  end.

(** *** Selected overlay: validation and synchronisation *)

(** [document.querySelector]: the first attached element, in document
    order, that matches. *)
Definition querySelector (matches : Element -> bool) (d : list Element) : option nat :=
  fst <$> list_find (fun el => Is_true (el_attached el && matches el)) d.

Definition is_selected_overlay (el : Element) : bool :=
  has_class "overlay-segment" el && has_class "selected" el.

Definition is_keyboard_overlay (el : Element) : bool :=
  has_class "overlay-segment" el && has_class "keyboard-active" el.

(** [.overlay-segment.selected, .overlay-segment.keyboard-active] *)
Definition is_marked_overlay (el : Element) : bool :=
  is_selected_overlay el || is_keyboard_overlay el.

Definition attached_at (d : list Element) (i : nat) : bool :=
  match d !! i with
  | Some el => el_attached el
  | None => false
  end.

(** [getValidatedSelectedOverlay()]: the element found and the page
    after the re-synchronisation it performs. *)
Definition getValidatedSelectedOverlay (pg : Page) : option nat * Page :=
  let fallback :=
    match querySelector is_selected_overlay (dom pg) with
    | Some j => (Some j, set_selected (Some j) pg)
    | None =>
        match querySelector is_keyboard_overlay (dom pg) with
        | Some k =>
            (Some k,
             set_selected (Some k) (set_dom (alter (classList_add "selected") k (dom pg)) pg))
        | None => (None, pg)
        end
    end in
  match selectedOverlay (tl pg) with
  | Some i => if attached_at (dom pg) i then (Some i, pg) else fallback
  | None => fallback
  end.

Definition unmark (el : Element) : Element :=
  classList_remove {[ "selected"; "keyboard-active" ]} el.

(** [syncSelectedOverlayStates(overlayElement)]. *)
Definition syncSelectedOverlayStates (overlayElement : option nat) (pg : Page) : Page :=
  match overlayElement with
  | None =>
      set_dom
        (imap (fun _ el => if el_attached el && is_marked_overlay el then unmark el else el)
              (dom pg))
        (set_selected None pg)
  | Some x =>
      let d1 := alter (fun el => classList_add "keyboard-active" (classList_add "selected" el))
                      x (dom pg) in
      set_dom
        (imap (fun i el =>
                 if el_attached el && is_marked_overlay el && negb (i =? x)
                 then unmark el else el) d1)
        (set_selected (Some x) pg)
  end.

(** *** Pointer interaction *)

Local Open Scope Q_scope.

(** [resetDragState()]. *)
Definition resetDragState (pg : Page) : Page := set_drag idleDragState pg.

(** [endCurrentInteraction()]. *)
Definition endCurrentInteraction (pg : Page) : Page :=
  if negb (ds_isDragging (dragState (tl pg))) then pg
  else
    match ds_element (dragState (tl pg)) with
    | None => pg
    | Some i =>
        let pg1 :=
          set_dom (alter (classList_remove
                            {[ "dragging"; "moving"; "resizing"; "resizing-left";
                               "resizing-right" ]}) i (dom pg)) pg in
        let pg2 :=
          match dom pg1 !! i with
          | Some el => if has_class "selected" el
                       then syncSelectedOverlayStates (Some i) pg1 else pg1
          | None => pg1
          end in
        resetDragState pg2
    end.

(** [startOverlayInteraction(element, interactionType, clientX)]. *)
Definition startOverlayInteraction (element : nat) (interactionType : InteractionType)
           (clientX : Q) (pg : Page) : Page :=
  let pg0 := if ds_isDragging (dragState (tl pg)) then endCurrentInteraction pg else pg in
  match dom pg0 !! element with
  | None => pg0
  | Some el =>
      let ds :=
        mkDragState true (Some element) clientX (el_left el) (el_width el)
                    (includes_resize interactionType)
                    (ds_isDraggingPlayhead (dragState (tl pg0)))
                    (Some interactionType)
                    (match interactionType with
                     | ResizeLeft => Some HandleLeft
                     | ResizeRight => Some HandleRight
                     | Move => ds_resizeHandle (dragState (tl pg0))
                     end) in
      let mark el :=
        classList_add (match interactionType with Move => "moving" | _ => "resizing" end)
          (classList_remove {[ "keyboard-active" ]} (classList_add "dragging" el)) in
      set_dom (alter mark element (dom pg0)) (set_drag ds pg0)
  end.

(** The position a pointer move gives a marker or an overlay:
    [Math.max(0, Math.min(100, initialLeft + deltaPercent))]. *)
Definition movedPosition (initialLeft deltaPercent : Q) : Q :=
  Qmax 0 (Qmin 100 (initialLeft + deltaPercent)).

(** [newLeft] and [newWidth] of [handleOverlayResize]. *)
Definition resizedGeometry (resizeType : InteractionType)
           (initialLeft initialWidth deltaPercent : Q) : Q * Q :=
  match resizeType with
  | ResizeLeft =>
      let deltaLeftPercent := (deltaPercent / 100) * 100 in
      let newLeft :=
        Qmax 0 (Qmin (initialLeft + deltaLeftPercent) (initialLeft + initialWidth - 1)) in
      (newLeft, initialWidth - (newLeft - initialLeft))
  | ResizeRight =>
      (initialLeft, Qmax 1 (Qmin (initialWidth + deltaPercent) (100 - initialLeft)))
  | Move => (initialLeft, initialWidth)
  end.

(** The [data] objects handed to [updateOverlay]. *)
Definition startPatch (t : Q) : OverlayStore.OverlayPatch :=
  OverlayStore.mkPatch None None None (Some t) None None None None (Some t) None.

Definition resizePatch (start duration end_ : Q) : OverlayStore.OverlayPatch :=
  OverlayStore.mkPatch None None None (Some start) (Some duration) None None None
                       (Some start) (Some end_).


(** What a pointer move of an overlay interaction hands to the store:
    the new start time for a move, the new start, duration and end for
    a resize. *)
Definition writtenPatch (interaction : InteractionType) (pg : Page) (deltaPercent : Q)
  : OverlayStore.OverlayPatch :=
  let ds := dragState (tl pg) in
  let duration := durationOr100 pg in
  match interaction with
  | Move =>
      startPatch ((movedPosition (ds_initialLeft ds) deltaPercent / 100) * duration)
  | _ =>
      let '(newLeft, newWidth) :=
        resizedGeometry interaction (ds_initialLeft ds) (ds_initialWidth ds) deltaPercent in
      let newStartTime := (newLeft / 100) * duration in
      let newEndTime := ((newLeft + newWidth) / 100) * duration in
      resizePatch newStartTime (newEndTime - newStartTime) newEndTime
  end.

Section Handlers.

(** What the subscribers of the overlay store do. *)
Variable behaviour :
  OverlayStore.HandlerId -> OverlayStore.EventData -> OverlayStore.World
  -> OverlayStore.Completion.

(** [if (overlayId && ...) OverlayState.updateOverlay(overlayId, data)]. *)
Definition updateStore (overlayId : string) (data : OverlayStore.OverlayPatch) (pg : Page)
  : Page :=
  if decide (overlayId = "") then pg
  else set_world
         (OverlayStore.world_of (OverlayStore.updateOverlay behaviour overlayId data (world pg)))
         pg.

(** [handleOverlayResize(resizeType, deltaPercent)]; [timelineWidth]
    is what [dimensionCache.getTrackWidth()] returns. *)
Definition handleOverlayResize (resizeType : InteractionType) (deltaPercent : Q)
           (timelineWidth : Q) (pg : Page) : Page :=
  match ds_element (dragState (tl pg)) with
  | None => pg
  | Some i =>
      match dom pg !! i with
      | None => pg
      | Some element =>
          if negb (has_class "overlay-segment" element) then pg
          else if Qle_bool timelineWidth 0 then pg
          else
            let duration := durationOr100 pg in
            let '(newLeft, newWidth) :=
              resizedGeometry resizeType (ds_initialLeft (dragState (tl pg)))
                              (ds_initialWidth (dragState (tl pg))) deltaPercent in
            let newStartTime := (newLeft / 100) * duration in
            let newEndTime := ((newLeft + newWidth) / 100) * duration in
            let newDuration := newEndTime - newStartTime in
            let element' :=
              set_data_duration newDuration
                (set_data_start newStartTime (set_width newWidth (set_left newLeft element))) in
            updateStore (el_data_id element)
                        (resizePatch newStartTime newDuration newEndTime)
                        (set_dom (<[i := element']> (dom pg)) pg)
      end
  end.

(** [handleAdvancedMouseMove(e)]; [trackWidth] is what
    [dimensionCache.getTrackWidth()] returns.  Dragging the playhead
    only moves the playhead, which this model does not hold. *)
Definition handleAdvancedMouseMove (clientX : Q) (trackWidth : Q) (pg : Page) : Page :=
  let ds := dragState (tl pg) in
  if negb (ds_isDragging ds) then pg
  else if ds_isDraggingPlayhead ds then pg
  else if Qle_bool trackWidth 0 then pg
  else
    let deltaX := clientX - ds_initialX ds in
    let deltaPercent := (deltaX / trackWidth) * 100 in
    match ds_element ds with
    | None => pg
    | Some i =>
        match dom pg !! i with
        | None => pg
        | Some element =>
            if has_class "marker-item" element then
              let newPosition := movedPosition (ds_initialLeft ds) deltaPercent in
              let newTime := (newPosition / 100) * durationOr100 pg in
              set_markers (<[el_data_label element := newTime]> (currentMarkers (tl pg)))
                (set_dom (<[i := set_data_time newTime (set_left newPosition element)]>
                            (dom pg)) pg)
            else if has_class "overlay-segment" element then
              match ds_interactionType ds with
              | Some ResizeLeft => handleOverlayResize ResizeLeft deltaPercent trackWidth pg
              | Some ResizeRight => handleOverlayResize ResizeRight deltaPercent trackWidth pg
              | _ =>
                  let newPosition := movedPosition (ds_initialLeft ds) deltaPercent in
                  let newTime := (newPosition / 100) * durationOr100 pg in
                  updateStore (el_data_id element) (startPatch newTime)
                    (set_dom (<[i := set_data_start newTime (set_left newPosition element)]>
                                (dom pg)) pg)
              end
            else pg
        end
    end.

(** [handleAdvancedMouseUp(e)]. *)
Definition handleAdvancedMouseUp (pg : Page) : Page :=
  let ds := dragState (tl pg) in
  if negb (ds_isDragging ds) then pg
  else if ds_isDraggingPlayhead ds then
    set_drag (mkDragState (ds_isDragging ds) (ds_element ds) (ds_initialX ds)
                          (ds_initialLeft ds) (ds_initialWidth ds) (ds_isResizing ds)
                          false (ds_interactionType ds) (ds_resizeHandle ds)) pg
  else
    match ds_element ds with
    | None => pg
    | Some i =>
        match dom pg !! i with
        | None => pg
        | Some element =>
            let pg1 :=
              if has_class "overlay-segment" element then
                let finalStartTime := el_data_start element in
                match OverlayStore.getOverlay (el_data_id element) (world pg) with
                | Some _ => updateStore (el_data_id element) (startPatch finalStartTime) pg
                | None => pg
                end
              else pg in
            let pg2 := set_dom (alter (classList_remove {[ "dragging" ]}) i (dom pg1)) pg1 in
            set_drag (mkDragState false None (ds_initialX ds) (ds_initialLeft ds)
                                  (ds_initialWidth ds) (ds_isResizing ds)
                                  (ds_isDraggingPlayhead ds) (ds_interactionType ds)
                                  (ds_resizeHandle ds)) pg2
        end
    end.

(** *** Keyboard *)

Inductive Direction : Type :=
| DirLeft
| DirRight.

(** [moveSelectedOverlay(direction, isLargeStep)]. *)
Definition moveSelectedOverlay (direction : Direction) (isLargeStep : bool) (pg : Page) : Page :=
  match getValidatedSelectedOverlay pg with
  | (None, pg1) => pg1
  | (Some i, pg1) =>
      match dom pg1 !! i with
      | None => pg1
      | Some el =>
          let step : Q := if isLargeStep then 5 else 1 in
          let currentPosition := el_left el in
          let currentWidth := el_width el in
          let newPosition :=
            match direction with
            | DirLeft => Qmax 0 (currentPosition - step)
            | DirRight => Qmin (100 - currentWidth) (currentPosition + step)
            end in
          let newTime := (newPosition / 100) * durationOr100 pg1 in
          updateStore (el_data_id el) (startPatch newTime)
                      (set_dom (<[i := set_left newPosition el]> (dom pg1)) pg1)
      end
  end.


End Handlers.

(** The [keydown] listeners of the document on [Escape]: only the
    editor's handler reacts, and only in selection mode. *)
Definition pressEscape (targetIsInput : bool) (pg : Page) : Page :=
  if targetIsInput then pg
  else if Trim.isSelectionModeActive (editor pg)
       then set_editor (Trim.cancelSelection (editor pg)) pg
       else pg.


(** *** Sample data *)

Definition sampleSegment (id : string) (left width : Q) (classes : gset string) : Element :=
  mkElement ({[ "overlay-segment" ]} ∪ classes) true left width id "Overlay 1"
            left width 0.

Definition quiet (_ : OverlayStore.HandlerId) (_ : OverlayStore.EventData)
           (w : OverlayStore.World) : OverlayStore.Completion :=
  OverlayStore.Normal w.

(** One overlay of 20 s starting at 50 s on a 100 s video, drawn at
    50% with a width of 20%. *)
Definition samplePage : Page :=
  mkPage [sampleSegment "a" 50 20 ∅]
         (mkTimelineState None idleDragState ∅)
         (OverlayStore.addOverlay (OverlayStore.sampleOverlay "a" 50 20) "unused"
                                  OverlayStore.initialWorld)
         (Some 100%Q)
         (Trim.newEditor 100).

(** The sample overlay grabbed at x = 100 px for a move. *)
Definition sampleGrabbed : Page := startOverlayInteraction 0 Move 100 samplePage.

(** The same overlay, selected, drawn at 78%. *)
Definition sampleSelectedPage : Page :=
  mkPage [sampleSegment "a" 78 20 {[ "selected" ]}]
         (mkTimelineState (Some 0%nat) idleDragState ∅)
         (OverlayStore.addOverlay (OverlayStore.sampleOverlay "a" 78 20) "unused"
                                  OverlayStore.initialWorld)
         (Some 100)
         (Trim.newEditor 100).

End Timeline.

(** ** The question list: [QuestionManager] *)

Module Questions.
Import Js.

(** A question of [project.questions].  A marker is the video time of
    an alternative; [q_overlay] is [None] for [null]. *)
Record Question : Type := mkQuestion {
  q_label : string;
  q_small_label : string;
  q_video : string;
  q_markers : gmap string JsNum;
  q_correctAnswer : string;
  q_originalIndex : Z;
  q_overlay : option string
}.

(** The object handed to [validateQuestion] and to [updateQuestion]:
    the three fields that are validated (a falsy [video] or
    [correctAnswer] is the empty string, a falsy [markers] is [None])
    and the other fields of a question, each present or not. *)
Record QuestionData : Type := mkData {
  d_video : string;
  d_markers : option (gmap string JsNum);
  d_correctAnswer : string;
  d_label : option string;
  d_small_label : option string;
  d_originalIndex : option Z;
  d_overlay : option (option string)
}.

(** The fields of [currentProject] that the manager reads and writes. *)
Record Project : Type := mkProject {
  questions : list Question;
  totalAlternatives : nat;
  isDirty : bool
}.

Inductive QError : Type :=
| LimitReached
| VideoRequired
| MarkersRequired
| AnswerRequired
| MarkerInvalid (alternative : string).

(** A call that returns or throws; a throw leaves the project as it
    was, since every check precedes the first write. *)
Inductive Result (A : Type) : Type :=
| Ok (a : A)
| Thrown (e : QError).

Arguments Ok {A} a.
Arguments Thrown {A} e.

Definition indexes (p : Project) : list Z := q_originalIndex <$> questions p.

(** [_getNextQuestionNumber()]. *)
Definition _getNextQuestionNumber (p : Project) : Z :=
  match indexes p with
  | [] => 1
  | i :: rest => fold_left Z.max rest i + 1
  end.

(** [Array.from({ length: n }, (_, i) => String.fromCharCode(65 + i))]:
    the letters ["A"], ["B"], ... *)
Definition expectedAlternatives (n : nat) : list string :=
  (fun i => String (ascii_of_nat (65 + i)) EmptyString) <$> seq 0 n.

(** [markers[marker] === undefined || isNaN(markers[marker])]. *)
Definition marker_invalid (markers : gmap string JsNum) (marker : string) : bool :=
  match markers !! marker with
  | None => true
  | Some NaN => true
  | Some _ => false
  end.

(** [validateQuestion(question)]: the error thrown, if any. *)
Definition validateQuestion (p : Project) (question : QuestionData) : option QError :=
  if decide (d_video question = "") then Some VideoRequired
  else
    match d_markers question with
    | None => Some MarkersRequired
    | Some markers =>
        if decide (d_correctAnswer question = "") then Some AnswerRequired
        else MarkerInvalid <$>
               List.find (marker_invalid markers) (expectedAlternatives (totalAlternatives p))
    end.

(** [parseFloat(x.toFixed(2))] for a finite [x]: the nearest multiple
    of [0.01], a tie going away from zero; from [1e21] on, [toFixed]
    prints the number itself. *)
Definition round2 (q : Q) : Q :=
  inject_Z (Qfloor (q * 100 + (1 # 2))) / 100.

Definition toFixed2 (q : Q) : Q :=
  if Qle_bool (10 ^ 21) (Qabs q) then q
  else if Qle_bool 0 q then round2 q
  else - round2 (- q).

(** [parseFloat(parseFloat(value).toFixed(2))] on a number. *)
Definition normalizeValue (value : JsNum) : JsNum :=
  match value with
  | Fin q => Fin (toFixed2 q)
  | other => other
  end.

(** [normalizeMarkers(markers)]. *)
Definition normalizeMarkers (markers : gmap string JsNum) : gmap string JsNum :=
  normalizeValue <$> markers.

Definition set_questions (l : list Question) (p : Project) : Project :=
  mkProject l (totalAlternatives p) true.

(** [addQuestion(videoUrl, markers, correctAnswer)]. *)
Definition addQuestion (videoUrl : string) (markers : option (gmap string JsNum))
           (correctAnswer : string) (p : Project) : Result (Question * Project) :=
  if decide (90 <= length (questions p))%nat then Thrown LimitReached
  else
    match validateQuestion p (mkData videoUrl markers correctAnswer None None None None) with
    | Some e => Thrown e
    | None =>
        let questionNumber := _getNextQuestionNumber p in
        let newQuestion :=
          {| q_label := "Questão " +:+ padStart0 2 (to_string (IFin questionNumber));
             q_small_label := padStart0 2 (to_string (IFin questionNumber));
             q_video := videoUrl;
             q_markers := normalizeMarkers (default ∅ markers);
             q_correctAnswer := correctAnswer;
             q_originalIndex := questionNumber;
             q_overlay := None |} in
        Ok (newQuestion, set_questions (questions p ++ [newQuestion]) p)
    end.

(** [Object.assign(question, { ...updatedData, markers })]. *)
Definition assign (question : Question) (updatedData : QuestionData)
           (markers : gmap string JsNum) : Question :=
  {| q_label := default (q_label question) (d_label updatedData);
     q_small_label := default (q_small_label question) (d_small_label updatedData);
     q_video := d_video updatedData;
     q_markers := markers;
     q_correctAnswer := d_correctAnswer updatedData;
     q_originalIndex := default (q_originalIndex question) (d_originalIndex updatedData);
     q_overlay := default (q_overlay question) (d_overlay updatedData) |}.

(** [updateQuestion(originalIndex, updatedData)]: the question
    returned ([None] for [null]) and the project. *)
Definition updateQuestion (originalIndex : Z) (updatedData : QuestionData) (p : Project)
  : Result (option Question * Project) :=
  match list_find (fun q => q_originalIndex q = originalIndex) (questions p) with
  | Some (i, questionToUpdate) =>
      match validateQuestion p updatedData with
      | Some e => Thrown e
      | None =>
          let updated :=
            assign questionToUpdate updatedData
                   (normalizeMarkers (default ∅ (d_markers updatedData))) in
          Ok (Some updated, set_questions (<[i := updated]> (questions p)) p)
      end
  | None => Ok (None, p)
  end.

(** [deleteQuestion(originalIndex)]. *)
Definition deleteQuestion (originalIndex : Z) (p : Project) : bool * Project :=
  match list_find (fun q => q_originalIndex q = originalIndex) (questions p) with
  | Some (indexToDelete, _) => (true, set_questions (delete indexToDelete (questions p)) p)
  | None => (false, p)
  end.

Inductive Notice : Type :=
| SelectQuestionFirst
| LimitOf90Reached
| QuestionDuplicated.

(** [currentProject.questions[activeQuestionIndex]]. *)
Definition questionAt (activeQuestionIndex : Z) (p : Project) : option Question :=
  if decide (0 <= activeQuestionIndex)%Z
  then questions p !! Z.to_nat activeQuestionIndex
  else None.

(** The global [duplicateCurrentQuestion()]; [questionManager] works
    on [currentProject]. *)
Definition duplicateCurrentQuestion (activeQuestionIndex : Z) (p : Project)
  : Notice * Project :=
  match questionAt activeQuestionIndex p with
  | None => (SelectQuestionFirst, p)
  | Some originalQuestion =>
      if decide (90 <= length (questions p))%nat then (LimitOf90Reached, p)
      else
        let n := _getNextQuestionNumber p in
        let duplicatedQuestion :=
          {| q_label := "Questão " +:+ to_string (IFin n);
             q_small_label := padStart0 2 (to_string (IFin n));
             q_video := q_video originalQuestion;
             q_markers := q_markers originalQuestion;
             q_correctAnswer := q_correctAnswer originalQuestion;
             q_originalIndex := n;
             q_overlay := q_overlay originalQuestion |} in
        (QuestionDuplicated, set_questions (questions p ++ [duplicatedQuestion]) p)
  end.

(** A call of the editing interface. *)
Inductive QuestionOp : Type :=
| OpAdd (videoUrl : string) (markers : option (gmap string JsNum)) (correctAnswer : string)
| OpUpdate (originalIndex : Z) (updatedData : QuestionData)
| OpDelete (originalIndex : Z)
| OpDuplicate (activeQuestionIndex : Z).

Definition project_of {A} (r : Result (A * Project)) (p : Project) : Project :=
  match r with
  | Ok (_, p') => p'
  | Thrown _ => p
  end.

Definition run_op (p : Project) (op : QuestionOp) : Project :=
  match op with
  | OpAdd v m a => project_of (addQuestion v m a p) p
  | OpUpdate i d => project_of (updateQuestion i d p) p
  | OpDelete i => (deleteQuestion i p).2
  | OpDuplicate i => (duplicateCurrentQuestion i p).2
  end.

Definition run_ops (ops : list QuestionOp) (p : Project) : Project :=
  fold_left run_op ops p.

(** An update that leaves the number of the question alone: its data
    carries no [originalIndex], or the one it is filed under. *)
Definition keeps_number (op : QuestionOp) : bool :=
  match op with
  | OpUpdate i d =>
      match d_originalIndex d with
      | None => true
      | Some j => bool_decide (j = i)
      end
  | _ => true
  end.

(** Every expected alternative has a marker that is a number. *)
Definition complete (n : nat) (q : Question) : Prop :=
  forall marker, marker ∈ expectedAlternatives n -> marker_invalid (q_markers q) marker = false.

Definition well_formed (p : Project) : Prop :=
  NoDup (indexes p)
  /\ (length (questions p) <= 90)%nat
  /\ (forall q, q ∈ questions p -> complete (totalAlternatives p) q).

(** *** Sample data *)

Definition sampleMarkers : gmap string JsNum :=
  {[ "A" := Fin (1234 # 1000); "B" := Fin (5 # 2); "C" := Fin 7; "D" := Fin (9999 # 1000) ]}.

Definition emptyProject : Project := mkProject [] 4 false.

Definition sampleProject : Project :=
  run_ops [OpAdd "blob:video-1" (Some sampleMarkers) "A";
           OpAdd "blob:video-2" (Some sampleMarkers) "C";
           OpDuplicate 0;
           OpDelete 2] emptyProject.

End Questions.

(** ** [OverlayUtils]: validation and placement of the overlay image *)

Module OverlayUtils.
Import Js.

(** A property that holds a number, [null], or is missing. *)
Inductive Field : Type :=
| FUndefined
| FNull
| FNum (n : JsNum).

(** The overlay configuration.  [cfg_imageFile] and [cfg_position] are
    the empty string when falsy; the three sizes are [None] when
    missing. *)
Record Config : Type := mkConfig {
  cfg_imageFile : string;
  cfg_startTime : Field;
  cfg_start : Field;
  cfg_duration : Field;
  cfg_position : string;
  cfg_size : option Q;
  cfg_imageHeight : option Q;
  cfg_imageWidth : option Q
}.

(** [n < 0] and [n <= 0] on a number; every comparison with [NaN] is
    false. *)
Definition lt0 (n : JsNum) : bool :=
  match n with
  | Fin q => Trim.Qltb q 0
  | NegInf => true
  | _ => false
  end.

Definition le0 (n : JsNum) : bool :=
  match n with
  | Fin q => Qle_bool q 0
  | NegInf => true
  | _ => false
  end.

(** [!field]. *)
Definition field_falsy (f : Field) : bool :=
  match f with
  | FNum n => falsy (ANum n)
  | _ => true
  end.

(** [config.startTime !== undefined ? config.startTime : config.start] *)
Definition effectiveStart (config : Config) : Field :=
  match cfg_startTime config with
  | FUndefined => cfg_start config
  | other => other
  end.

(** [validateOverlayConfig(config)]; [None] is a falsy [config]. *)
Definition validateOverlayConfig (config : option Config) : bool :=
  match config with
  | None => false
  | Some c =>
      if decide (cfg_imageFile c = "") then false
      else
        match effectiveStart c with
        | FUndefined => false
        | FNull => false
        | FNum startTime =>
            if lt0 startTime then false
            else
              match cfg_duration c with
              | FNum duration =>
                  if falsy (ANum duration) || le0 duration then false
                  else if decide (cfg_position c = "") then false
                  else true
              | _ => false
              end
        end
  end.

(** The copy that [OverlayManager.drawOverlayOnCanvas] validates:
    [startTime] is taken from [start] when only [start] is there. *)
Definition configForValidation (config : Config) : Config :=
  match cfg_start config, cfg_startTime config with
  | FUndefined, _ => config
  | start, FUndefined =>
      mkConfig (cfg_imageFile config) start (cfg_start config) (cfg_duration config)
               (cfg_position config) (cfg_size config) (cfg_imageHeight config)
               (cfg_imageWidth config)
  | _, _ => config
  end.

(** [{ width, height }] *)
Record Size : Type := mkSize { width : Q; height : Q }.

(** [{ x, y }] *)
Record Point : Type := mkPoint { px : Q; py : Q }.

(** [value || fallback] and the truthiness of an optional number. *)
Definition or_default (value : option Q) (fallback : Q) : Q :=
  match value with
  | Some q => if Qeq_bool q 0 then fallback else q
  | None => fallback
  end.

Definition truthy (value : option Q) : bool :=
  match value with
  | Some q => negb (Qeq_bool q 0)
  | None => false
  end.

(** [calculateOverlayDimensions(config, canvasSize)]. *)
Definition calculateOverlayDimensions (config : Config) (canvasSize : Size) : Size :=
  let size := or_default (cfg_size config) 50 in
  let overlayWidth := (width canvasSize * size / 100)%Q in
  let overlayHeight :=
    if truthy (cfg_imageHeight config) && truthy (cfg_imageWidth config)
    then (default 0%Q (cfg_imageHeight config) * overlayWidth
          / default 0%Q (cfg_imageWidth config))%Q
    else (height canvasSize * size / 100)%Q in
  mkSize overlayWidth overlayHeight.

(** [Math.min(20, Math.min(width, height) * 0.05)] *)
Definition padding (containerSize : Size) : Q :=
  Qmin 20 (Qmin (width containerSize) (height containerSize) * (5 # 100)).

Inductive Align : Type :=
| AtStart
| AtCentre
| AtEnd.

(** The three formulas of [calculatePosition] along one axis. *)
Definition place (a : Align) (padding extent container : Q) : Q :=
  match a with
  | AtStart => padding
  | AtCentre => ((container - extent) / 2)%Q
  | AtEnd => Qmax padding (container - extent - padding)
  end.

(** The [switch] of [calculatePosition]: the horizontal and the
    vertical alignment of each position name; [default] shares the
    case of ['center']. *)
Definition alignment (position : string) : Align * Align :=
  if String.eqb position "top-left" then (AtStart, AtStart)
  else if String.eqb position "top-center" then (AtCentre, AtStart)
  else if String.eqb position "top-right" then (AtEnd, AtStart)
  else if String.eqb position "center-left" then (AtStart, AtCentre)
  else if String.eqb position "center-right" then (AtEnd, AtCentre)
  else if String.eqb position "bottom-left" then (AtStart, AtEnd)
  else if String.eqb position "bottom-center" then (AtCentre, AtEnd)
  else if String.eqb position "bottom-right" then (AtEnd, AtEnd)
  else (AtCentre, AtCentre).

(** [calculatePosition(position, size, containerSize)]. *)
Definition calculatePosition (position : string) (size containerSize : Size) : Point :=
  let padding := padding containerSize in
  let '(h, v) := alignment position in
  mkPoint (place h padding (width size) (width containerSize))
          (place v padding (height size) (height containerSize)).

(** The rectangle lies in the container, [margin] away from each edge. *)
Definition inside (margin : Q) (p : Point) (size containerSize : Size) : Prop :=
  (margin <= px p)%Q /\ (px p + width size <= width containerSize - margin)%Q
  /\ (margin <= py p)%Q /\ (py p + height size <= height containerSize - margin)%Q.

(** *** Sample data *)

Definition sampleConfig : Config :=
  mkConfig "logo.png" FUndefined (FNum (Fin 3)) (FNum (Fin 5)) "bottom-right"
           (Some 25%Q) None None.

Definition sampleCanvas : Size := mkSize 640 360.

End OverlayUtils.

(** ** Adjusting and moving the trim selection with the pointer *)

Module SelectionHandles.
Import Trim.
Local Open Scope Q_scope.

(** A bound used as a number: [null] counts as [0]. *)
Definition num (t : option Q) : Q := default 0 t.

(** [this.endTime ? a : b]: [null] and [0] are falsy. *)
Definition truthy (t : option Q) : option Q :=
  match t with
  | Some q => if Qeq_bool q 0 then None else Some q
  | None => None
  end.

Inductive Handle : Type :=
| StartHandle
| EndHandle.

(** The time under the pointer, the pointer being kept on the
    timeline: [Math.max(0, Math.min(clientX - rect.left, rect.width))
    / rect.width * duration]. *)
Definition clampedTimeAt (clientX : Q) (rect : Rect) (ed : VideoEditor) : Q :=
  (Qmax 0 (Qmin (clientX - rect_left rect) (rect_width rect)) / rect_width rect)
  * videoDuration ed.

(** The [dragHandler] of [startHandleAdjustment(type, e)]: one pointer
    move while a handle is held. *)
Definition dragHandler (type : Handle) (clientX : Q) (rect : Rect) (ed : VideoEditor)
  : VideoEditor :=
  let time := clampedTimeAt clientX rect ed in
  match type with
  | StartHandle =>
      let minEndTime :=
        match truthy (endTime ed) with
        | Some en => en - (1 # 10)
        | None => time + (1 # 10)
        end in
      mkEditor (Some (Qmin time minEndTime)) (endTime ed) (isSelecting ed)
               (isSelectionModeActive ed) (videoDuration ed)
  | EndHandle =>
      let maxStartTime :=
        match truthy (startTime ed) with
        | Some st => st + (1 # 10)
        | None => time - (1 # 10)
        end in
      mkEditor (startTime ed) (Some (Qmax time maxStartTime)) (isSelecting ed)
               (isSelectionModeActive ed) (videoDuration ed)
  end.

(** What the [mousedown] listener of [setupSelectionMovement] keeps
    for the moves that follow: the length of the selection and the
    offset of the pointer from its start. *)
Record Grab : Type := mkGrab {
  g_duration : Q;
  g_startOffsetTime : Q;
  g_rect : Rect
}.

Definition grabSelection (clientX : Q) (rect : Rect) (ed : VideoEditor) : Grab :=
  mkGrab (num (endTime ed) - num (startTime ed))
         (timeAt clientX rect ed - num (startTime ed))
         rect.

(** The [moveHandler] of [setupSelectionMovement]: one pointer move
    while the selection is held. *)
Definition moveHandler (g : Grab) (ed : VideoEditor) (clientX : Q) : VideoEditor :=
  let currentMiddleTime := timeAt clientX (g_rect g) ed in
  let newStartTime := currentMiddleTime - g_startOffsetTime g in
  let newEndTime := newStartTime + g_duration g in
  if Qle_bool 0 newStartTime && Qle_bool newEndTime (videoDuration ed)
  then mkEditor (Some newStartTime) (Some newEndTime) (isSelecting ed)
                (isSelectionModeActive ed) (videoDuration ed)
  else ed.

(** A whole gesture: the selection is grabbed at [clientX] and the
    pointer moves through [moves]. *)
Definition moveSelection (clientX : Q) (rect : Rect) (moves : list Q) (ed : VideoEditor)
  : VideoEditor :=
  fold_left (moveHandler (grabSelection clientX rect ed)) moves ed.

(** The length of the selection. *)
Definition selected (ed : VideoEditor) : Q := num (endTime ed) - num (startTime ed).

(** *** Sample data: seconds 20 to 50 of a 100 s video are selected. *)
Definition sampleEditor : VideoEditor := mkEditor (Some 20) (Some 50) false true 100.

End SelectionHandles.

(** ** Reading the visual state back, and batches of updates *)

Module VisualStateUse.
Import VisualState.

(** The five object sections: where a payload carries the section and
    where the state keeps it. *)
Definition objectSections
  : list ((Updates -> option (gmap string JsVal)) * (Manager -> gmap string JsVal)) :=
  [ (u_playhead, playhead); (u_progress, progress); (u_selection, selection);
    (u_timeline, timeline); (u_body, body) ].

(** [VisualStateManager.batchUpdate(updates)]. *)
Definition batchUpdate (react : SectionName -> list Reaction) (updates : Updates)
           (m : Manager) : Outcome :=
  setState react updates true m.

(** A run of [batchUpdate] calls with no animation frame in between. *)
Definition batchAll (react : SectionName -> list Reaction) (payloads : list Updates)
           (m : Manager) : Manager :=
  fold_left (fun m updates => manager_of (batchUpdate react updates m) m) payloads m.

(** No section is dirty. *)
Definition clean (m : Manager) : bool :=
  forallb (fun sec => negb (is_dirty sec m)) applyOrder.

(** The manager is not applying state and has asked for at most one
    animation frame. *)
Definition idle (m : Manager) : Prop :=
  isApplyingState m = false
  /\ (batchUpdatePending m = false /\ pendingFrames m = 0
      \/ batchUpdatePending m = true /\ pendingFrames m = 1).

End VisualStateUse.

(** ** Batched DOM work: [DOMUpdateBatcher] *)

Module Batcher.

(** The functions handed to [read] and [write] are named. *)
Definition Fn : Type := nat.

(** The batcher, the animation frames it has asked for, and two
    observations: the functions run so far, in order, and the number
    of warnings printed for functions that threw.  [requested] are
    the frames the browser still has to run; [animationFrames] is the
    list kept by [timelineState.eventRegistry].  The statistic
    [averageFrameTime], a function of the clock, is left out. *)
Record DOMUpdateBatcher : Type := mkBatcher {
  pendingReads : list Fn;
  pendingWrites : list Fn;
  isScheduled : bool;
  frameId : option nat;
  totalBatches : nat;
  totalReads : nat;
  totalWrites : nat;
  requested : list nat;
  animationFrames : list nat;
  nextFrame : nat;
  ran : list Fn;
  warnings : nat
}.

(** [new DOMUpdateBatcher()]; frame ids start at 1. *)
Definition newBatcher : DOMUpdateBatcher :=
  mkBatcher [] [] false None 0 0 0 [] [] 1 [] 0.

(** [schedule()], with [eventRegistry.registerAnimationFrame]. *)
Definition schedule (b : DOMUpdateBatcher) : DOMUpdateBatcher :=
  if isScheduled b then b
  else mkBatcher (pendingReads b) (pendingWrites b) true (Some (nextFrame b))
                 (totalBatches b) (totalReads b) (totalWrites b)
                 (requested b ++ [nextFrame b]) (animationFrames b ++ [nextFrame b])
                 (S (nextFrame b)) (ran b) (warnings b).

(** [read(fn)] and [write(fn)]. *)
Definition read (fn : Fn) (b : DOMUpdateBatcher) : DOMUpdateBatcher :=
  schedule (mkBatcher (pendingReads b ++ [fn]) (pendingWrites b) (isScheduled b) (frameId b)
                      (totalBatches b) (totalReads b) (totalWrites b) (requested b)
                      (animationFrames b) (nextFrame b) (ran b) (warnings b)).

Definition write (fn : Fn) (b : DOMUpdateBatcher) : DOMUpdateBatcher :=
  schedule (mkBatcher (pendingReads b) (pendingWrites b ++ [fn]) (isScheduled b) (frameId b)
                      (totalBatches b) (totalReads b) (totalWrites b) (requested b)
                      (animationFrames b) (nextFrame b) (ran b) (warnings b)).

(** [readWrite(readFn, writeFn)]. *)
Definition readWrite (readFn writeFn : Fn) (b : DOMUpdateBatcher) : DOMUpdateBatcher :=
  write writeFn (read readFn b).

(** What a queued function does to the batcher while it runs: it may
    queue further work, and it may throw. *)
Inductive Act : Type :=
| QueueRead (fn : Fn)
| QueueWrite (fn : Fn)
| Raise.

(** The acts of a function up to its first throw; the boolean tells
    whether it threw. *)
Fixpoint run_acts (acts : list Act) (b : DOMUpdateBatcher) : DOMUpdateBatcher * bool :=
  match acts with
  | [] => (b, false)
  | QueueRead fn :: rest => run_acts rest (read fn b)
  | QueueWrite fn :: rest => run_acts rest (write fn b)
  | Raise :: _ => (b, true)
  end.

Definition record_run (fn : Fn) (b : DOMUpdateBatcher) : DOMUpdateBatcher :=
  mkBatcher (pendingReads b) (pendingWrites b) (isScheduled b) (frameId b)
            (totalBatches b) (totalReads b) (totalWrites b) (requested b)
            (animationFrames b) (nextFrame b) (ran b ++ [fn]) (warnings b).

Definition warn (b : DOMUpdateBatcher) : DOMUpdateBatcher :=
  mkBatcher (pendingReads b) (pendingWrites b) (isScheduled b) (frameId b)
            (totalBatches b) (totalReads b) (totalWrites b) (requested b)
            (animationFrames b) (nextFrame b) (ran b) (S (warnings b)).

Section Flush.

(** What each queued function does. *)
Variable behaviour : Fn -> list Act.

(** [try { fn() } catch (error) { console.warn(...) }]. *)
Definition call (fn : Fn) (b : DOMUpdateBatcher) : DOMUpdateBatcher :=
  let '(b', threw) := run_acts (behaviour fn) (record_run fn b) in
  if threw then warn b' else b'.

(** [queue.forEach(fn => ...)]: the length is read once, each index is
    read from the live array when its turn comes. *)
Fixpoint forEach (queue : DOMUpdateBatcher -> list Fn) (k remaining : nat)
         (b : DOMUpdateBatcher) : DOMUpdateBatcher :=
  match remaining with
  | O => b
  | S r =>
      match queue b !! k with
      | Some fn => forEach queue (S k) r (call fn b)
      | None => forEach queue (S k) r b
      end
  end.

(** The functions [fns] run one after the other. *)
Definition callAll (fns : list Fn) (b : DOMUpdateBatcher) : DOMUpdateBatcher :=
  fold_left (fun b fn => call fn b) fns b.

(** What the functions [fns] queue, taken together. *)
Definition queuedBy (select : list Act -> list Fn) (fns : list Fn) : list Fn :=
  flat_map (fun fn => select (behaviour fn)) fns.

(** [flush()]. *)
Definition flush (b : DOMUpdateBatcher) : DOMUpdateBatcher :=
  let b1 := forEach pendingReads 0 (length (pendingReads b)) b in
  let b2 := forEach pendingWrites 0 (length (pendingWrites b1)) b1 in
  mkBatcher [] [] false None
            (S (totalBatches b2))
            (totalReads b2 + length (pendingReads b2))
            (totalWrites b2 + length (pendingWrites b2))
            (requested b2) (animationFrames b2) (nextFrame b2) (ran b2) (warnings b2).

(** The browser runs the animation frame [id], whose callback is
    [() => this.flush()]. *)
Definition runFrame (id : nat) (b : DOMUpdateBatcher) : DOMUpdateBatcher :=
  if bool_decide (id ∈ requested b)
  then flush (mkBatcher (pendingReads b) (pendingWrites b) (isScheduled b) (frameId b)
                        (totalBatches b) (totalReads b) (totalWrites b)
                        (filter (fun i => i ≠ id) (requested b))
                        (animationFrames b) (nextFrame b) (ran b) (warnings b))
  else b.

(** [flushNow()]. *)
Definition flushNow (b : DOMUpdateBatcher) : DOMUpdateBatcher :=
  flush (mkBatcher (pendingReads b) (pendingWrites b) false None
                   (totalBatches b) (totalReads b) (totalWrites b)
                   (match frameId b with
                    | Some id => filter (fun i => i ≠ id) (requested b)
                    | None => requested b
                    end)
                   (animationFrames b) (nextFrame b) (ran b) (warnings b)).

End Flush.

(** The writes a function queues before it returns or throws. *)
Fixpoint queuedWrites (acts : list Act) : list Fn :=
  match acts with
  | [] => []
  | QueueRead _ :: rest => queuedWrites rest
  | QueueWrite fn :: rest => fn :: queuedWrites rest
  | Raise :: _ => []
  end.

Fixpoint queuedReads (acts : list Act) : list Fn :=
  match acts with
  | [] => []
  | QueueRead fn :: rest => fn :: queuedReads rest
  | QueueWrite _ :: rest => queuedReads rest
  | Raise :: _ => []
  end.

Fixpoint throws (acts : list Act) : bool :=
  match acts with
  | [] => false
  | Raise :: _ => true
  | _ :: rest => throws rest
  end.

(** A request made from outside a flush. *)
Inductive Request : Type :=
| ReqRead (fn : Fn)
| ReqWrite (fn : Fn).

Definition request (b : DOMUpdateBatcher) (r : Request) : DOMUpdateBatcher :=
  match r with
  | ReqRead fn => read fn b
  | ReqWrite fn => write fn b
  end.

Definition reads_of (rs : list Request) : list Fn :=
  omap (fun r => match r with ReqRead fn => Some fn | ReqWrite _ => None end) rs.

Definition writes_of (rs : list Request) : list Fn :=
  omap (fun r => match r with ReqWrite fn => Some fn | ReqRead _ => None end) rs.

(** *** Sample data: function 1 measures and queues the write 10 and
    the read 11; function 2 throws; every other function just runs. *)
Definition sampleBehaviour (fn : Fn) : list Act :=
  match fn with
  | 1 => [QueueWrite 10; QueueRead 11]
  | 2 => [Raise]
  | _ => []
  end.

End Batcher.

(** ** The resource registry [timelineState.eventRegistry] *)

Module EventRegistry.

(** An event listener as the DOM identifies it: the target, the event
    type, the callback and the [capture] flag of its options (the
    default [null] means no capture). *)
Record Listener : Type := mkListener {
  l_element : nat;
  l_event : string;
  l_handler : nat;
  l_capture : bool
}.

#[global] Instance Listener_eq_dec : EqDecision Listener.
Proof. solve_decision. Defined.

(** The registry with the browser around it: the listeners attached
    to the DOM, and the animation frames, timeouts and intervals that
    are still to run. *)
Record Env : Type := mkEnv {
  listeners : list Listener;
  animationFrames : list nat;
  timeouts : list nat;
  intervals : list nat;
  attached : list Listener;
  liveFrames : list nat;
  liveTimeouts : list nat;
  liveIntervals : list nat;
  nextId : nat
}.

Definition initialEnv : Env := mkEnv [] [] [] [] [] [] [] [] 1.

(** [element.addEventListener]: a listener that is already attached
    is not attached again. *)
Definition dom_add (l : Listener) (dom : list Listener) : list Listener :=
  if bool_decide (l ∈ dom) then dom else dom ++ [l].

(** [element.removeEventListener]. *)
Definition dom_remove (l : Listener) (dom : list Listener) : list Listener :=
  filter (fun l' => l' ≠ l) dom.

(** [register(element, event, handler, options)]. *)
Definition register (l : Listener) (e : Env) : Env :=
  mkEnv (listeners e ++ [l]) (animationFrames e) (timeouts e) (intervals e)
        (dom_add l (attached e)) (liveFrames e) (liveTimeouts e) (liveIntervals e)
        (nextId e).

(** [registerAnimationFrame(callback)], [registerTimeout(callback,
    delay)], [registerInterval(callback, delay)]: the id returned and
    the new state. *)
Definition registerAnimationFrame (e : Env) : nat * Env :=
  (nextId e,
   mkEnv (listeners e) (animationFrames e ++ [nextId e]) (timeouts e) (intervals e)
         (attached e) (liveFrames e ++ [nextId e]) (liveTimeouts e) (liveIntervals e)
         (S (nextId e))).

Definition registerTimeout (e : Env) : nat * Env :=
  (nextId e,
   mkEnv (listeners e) (animationFrames e) (timeouts e ++ [nextId e]) (intervals e)
         (attached e) (liveFrames e) (liveTimeouts e ++ [nextId e]) (liveIntervals e)
         (S (nextId e))).

Definition registerInterval (e : Env) : nat * Env :=
  (nextId e,
   mkEnv (listeners e) (animationFrames e) (timeouts e) (intervals e ++ [nextId e])
         (attached e) (liveFrames e) (liveTimeouts e) (liveIntervals e ++ [nextId e])
         (S (nextId e))).

(** [l.element === element && l.event === event && l.handler === handler] *)
Definition same_target (element : nat) (event : string) (handler : nat) (l : Listener)
  : Prop :=
  l_element l = element /\ l_event l = event /\ l_handler l = handler.

#[global] Instance same_target_dec element event handler l :
  Decision (same_target element event handler l).
Proof. unfold same_target. apply _. Defined.

(** [removeListener(element, event, handler)]: the DOM call is made
    without options, and the first matching entry is spliced out. *)
Definition removeListener (element : nat) (event : string) (handler : nat) (e : Env) : Env :=
  let dom := dom_remove (mkListener element event handler false) (attached e) in
  let entries :=
    match list_find (same_target element event handler) (listeners e) with
    | Some (index, _) => delete index (listeners e)
    | None => listeners e
    end in
  mkEnv entries (animationFrames e) (timeouts e) (intervals e)
        dom (liveFrames e) (liveTimeouts e) (liveIntervals e) (nextId e).

(** [cancelAnimationFrame], [clearTimeout], [clearInterval]. *)
Definition cancel (id : nat) (live : list nat) : list nat :=
  filter (fun i => i ≠ id) live.

(** [cleanup()]. *)
Definition cleanup (e : Env) : Env :=
  mkEnv [] [] [] []
        (fold_left (fun dom l => dom_remove l dom) (listeners e) (attached e))
        (fold_left (fun live id => cancel id live) (animationFrames e) (liveFrames e))
        (fold_left (fun live id => cancel id live) (timeouts e) (liveTimeouts e))
        (fold_left (fun live id => cancel id live) (intervals e) (liveIntervals e))
        (nextId e).

(** [getStats()]. *)
Definition getStats (e : Env) : nat * nat * nat * nat :=
  (length (listeners e), length (animationFrames e), length (timeouts e),
   length (intervals e)).

(** What happens between two cleanups: calls of the registry, and the
    browser running a frame or a timeout. *)
Inductive Step : Type :=
| Register (l : Listener)
| RegisterAnimationFrame
| RegisterTimeout
| RegisterInterval
| RemoveListener (element : nat) (event : string) (handler : nat)
| FrameRuns (id : nat)
| TimeoutRuns (id : nat).

Definition step (e : Env) (s : Step) : Env :=
  match s with
  | Register l => register l e
  | RegisterAnimationFrame => (registerAnimationFrame e).2
  | RegisterTimeout => (registerTimeout e).2
  | RegisterInterval => (registerInterval e).2
  | RemoveListener element event handler => removeListener element event handler e
  | FrameRuns id =>
      mkEnv (listeners e) (animationFrames e) (timeouts e) (intervals e)
            (attached e) (cancel id (liveFrames e)) (liveTimeouts e) (liveIntervals e)
            (nextId e)
  | TimeoutRuns id =>
      mkEnv (listeners e) (animationFrames e) (timeouts e) (intervals e)
            (attached e) (liveFrames e) (cancel id (liveTimeouts e)) (liveIntervals e)
            (nextId e)
  end.

Definition run (steps : list Step) (e : Env) : Env := fold_left step steps e.

(** Listeners registered with the default options, as every caller of
    [register] in the source does. *)
Definition without_capture (s : Step) : bool :=
  match s with
  | Register l => negb (l_capture l)
  | _ => true
  end.

(** Everything the browser holds is known to the registry. *)
Definition tracked (e : Env) : Prop :=
  attached e ⊆ listeners e
  /\ liveFrames e ⊆ animationFrames e
  /\ liveTimeouts e ⊆ timeouts e
  /\ liveIntervals e ⊆ intervals e
  /\ Forall (fun l => l_capture l = false) (listeners e).

(** *** Sample data *)
Definition sampleSteps : list Step :=
  [ Register (mkListener 0 "mousemove" 1 false);
    Register (mkListener 0 "mouseup" 2 false);
    Register (mkListener 0 "mousemove" 1 false);
    RegisterAnimationFrame;
    RegisterTimeout;
    RemoveListener 0 "mousemove" 1;
    RegisterInterval;
    FrameRuns 1 ].

End EventRegistry.

(** ** The list of recent projects *)

Module RecentProjects.

Record RecentProject : Type := mkRecent {
  path : string;
  name : string;
  lastOpened : string
}.

Definition MAX_RECENT_PROJECTS : nat := 5.

(** [addToRecentProjects(projectPath, projectName)]; [now] is
    [new Date().toISOString()].  The list returned is also the one
    written to local storage. *)
Definition addToRecentProjects (projectPath projectName now : string)
           (recentProjects : list RecentProject) : list RecentProject :=
  take MAX_RECENT_PROJECTS
       (mkRecent projectPath projectName now
          :: filter (fun p => path p ≠ projectPath) recentProjects).

(** [removeFromRecentProjects(projectPath)]. *)
Definition removeFromRecentProjects (projectPath : string)
           (recentProjects : list RecentProject) : list RecentProject :=
  filter (fun p => path p ≠ projectPath) recentProjects.

End RecentProjects.

(** ** Timeline zoom *)

Module Zoom.
Local Open Scope Q_scope.

(** [zoomIn()] and [zoomOut()] on [timelineState.zoomLevel]. *)
Definition zoomIn (zoomLevel : Q) : Q := Qmin (zoomLevel * (12 # 10)) 5.
Definition zoomOut (zoomLevel : Q) : Q := Qmax (zoomLevel / (12 # 10)) (1 # 2).

Inductive ZoomStep : Type :=
| In
| Out.

Definition zoom (zoomLevel : Q) (s : ZoomStep) : Q :=
  match s with
  | In => zoomIn zoomLevel
  | Out => zoomOut zoomLevel
  end.

(** The level the page starts with. *)
Definition initialZoom : Q := 1.

End Zoom.

(** ** Jumping from marker to marker *)

Module MarkerNavigation.
Local Open Scope Q_scope.

(** The running choice of the loop: [nextMarkerTime] and
    [nextMarkerKey], both [null] at first. *)
Definition Choice : Type := option (string * Q).

(** [!nextMarkerTime]: [null] and [0] are falsy. *)
Definition unset (c : Choice) : bool :=
  match c with
  | None => true
  | Some (_, t) => Qeq_bool t 0
  end.

Definition time_of (c : Choice) : Q :=
  match c with
  | Some (_, t) => t
  | None => 0
  end.

(** One round of [for (const key in timelineState.currentMarkers)] of
    [seekToNextMarker]. *)
Definition next_step (currentTime : Q) (c : Choice) (entry : string * Q) : Choice :=
  let '(key, markerTime) := entry in
  if Trim.Qltb currentTime markerTime && (unset c || Trim.Qltb markerTime (time_of c))
  then Some (key, markerTime) else c.

(** One round of the loop of [seekToPreviousMarker]. *)
Definition previous_step (currentTime : Q) (c : Choice) (entry : string * Q) : Choice :=
  let '(key, markerTime) := entry in
  if Trim.Qltb markerTime currentTime && (unset c || Trim.Qltb (time_of c) markerTime)
  then Some (key, markerTime) else c.

(** What a jump does to the page: the time the player is set to, the
    position handed to the playhead, and the label of the marker
    element that gets selected. *)
Record Jump : Type := mkJump {
  j_currentTime : Q;
  j_percentage : Q;
  j_label : string
}.

(** [seekToPosition(percentage)] on a player with a duration. *)
Definition seekToPosition (duration percentage : Q) : Q * Q :=
  ((percentage / 100) * duration, percentage).

Definition jump_to (duration : Q) (c : Choice) : option Jump :=
  match c with
  | Some (key, markerTime) =>
      let '(targetTime, percentage) := seekToPosition duration ((markerTime / duration) * 100) in
      Some (mkJump targetTime percentage key)
  | None => None
  end.

(** [seekToNextMarker()] and [seekToPreviousMarker()]: [duration] is
    [None] without a player and is falsy when [0]; [markers] are the
    entries of [timelineState.currentMarkers] in enumeration order. *)
Definition seekToNextMarker (duration : option Q) (currentTime : Q)
           (markers : list (string * Q)) : option Jump :=
  match duration with
  | None => None
  | Some d =>
      if Qeq_bool d 0 then None
      else jump_to d (fold_left (next_step currentTime) markers None)
  end.

Definition seekToPreviousMarker (duration : option Q) (currentTime : Q)
           (markers : list (string * Q)) : option Jump :=
  match duration with
  | None => None
  | Some d =>
      if Qeq_bool d 0 then None
      else jump_to d (fold_left (previous_step currentTime) markers None)
  end.

(** *** Sample data *)
Definition sampleMarkers : list (string * Q) :=
  [("A", 12); ("B", 0); ("C", 30); ("D", 7 # 2)].

End MarkerNavigation.

(** ** The time fields of the overlay form ([OverlayManager]) *)

Module TimeInputs.
Import Js.

(** [a < b] on numbers; every comparison with [NaN] is false. *)
Definition lt (a b : JsNum) : bool :=
  match a, b with
  | NaN, _ | _, NaN => false
  | Fin x, Fin y => Trim.Qltb x y
  | NegInf, NegInf => false
  | NegInf, _ => true
  | _, PosInf => match a with PosInf => false | _ => true end
  | _, _ => false
  end.

Definition le (a b : JsNum) : bool :=
  match a, b with
  | NaN, _ | _, NaN => false
  | Fin x, Fin y => Qle_bool x y
  | NegInf, _ => true
  | _, PosInf => true
  | _, _ => false
  end.

(** [a + b]; opposite infinities give [NaN]. *)
Definition add (a b : JsNum) : JsNum :=
  match a, b with
  | NaN, _ | _, NaN => NaN
  | Fin x, Fin y => Fin (x + y)
  | PosInf, NegInf | NegInf, PosInf => NaN
  | PosInf, _ | _, PosInf => PosInf
  | NegInf, _ | _, NegInf => NegInf
  end.

Definition isNaN (a : JsNum) : bool :=
  match a with
  | NaN => true
  | _ => false
  end.

Section Form.

(** [parseFloat] on the text of an input field. *)
Variable parseFloat : string -> JsNum.

(** [validateTimeInput(input)]: [value] is [input.value],
    [videoDuration] is [this.videoPlayer.duration]. *)
Definition validateTimeInput (value : string) (videoDuration : JsNum) : bool :=
  let v := parseFloat value in
  if isNaN v || lt v (Fin 0) then false
  else if negb (falsy (ANum videoDuration)) && lt videoDuration v then false
  else true.

(** [validateDurationInput(input)]: [startValue] is the text of the
    start field, [None] when the field is not in the document; an
    empty text counts as [0]. *)
Definition validateDurationInput (value : string) (startValue : option string)
           (videoDuration : JsNum) : bool :=
  let v := parseFloat value in
  if isNaN v || le v (Fin 0) then false
  else
    let startTime :=
      match startValue with
      | Some s => if decide (s = "") then Fin 0 else parseFloat s
      | None => Fin 0
      end in
    if negb (falsy (ANum videoDuration)) && lt videoDuration (add startTime v) then false
    else true.

(** [validateTimeInputs()] with both fields and the Apply button in
    the document: whether the button ends up enabled. *)
Definition validateTimeInputs (startValue durationValue : string) (videoDuration : JsNum)
           (imageSelected : bool) : bool :=
  let startValid := validateTimeInput startValue videoDuration in
  let durationValid := validateDurationInput durationValue (Some startValue) videoDuration in
  startValid && durationValid && imageSelected.

End Form.

(** *** Sample data: a reader of a few literals. *)
Definition sampleParse (s : string) : JsNum :=
  if String.eqb s "2.5" then Fin (5 # 2)
  else if String.eqb s "4" then Fin 4
  else NaN.

End TimeInputs.

(** ** Which gesture a press on the timeline starts
    ([TimelineEventDelegator]) *)

Module Delegation.
Import Timeline.
Local Open Scope Q_scope.



End Delegation.

(** ** More gestures on the sample page *)

Module TimelineSamples.
Import Timeline.


(** A marker of alternative B at 30 s, drawn at 30%, and the same page
    with the marker grabbed at x = 300 px. *)
Definition sampleMarker : Element :=
  mkElement {[ "marker-item" ]} true 30 0 "" "B" 0 0 30.

Definition sampleMarkerPage : Page :=
  mkPage [sampleMarker]
         (mkTimelineState None idleDragState {[ "B" := 30%Q ]})
         OverlayStore.initialWorld (Some 100%Q) (Trim.newEditor 100).

Definition sampleMarkerGrabbed : Page :=
  set_drag (mkDragState true (Some 0%nat) 300 30 0 false false None None) sampleMarkerPage.

End TimelineSamples.

(** ** The cache of CSS custom properties ([VisualStateManager]) *)

Module CssCache.

(** The cache [state.lastAppliedState], the custom properties on the
    style of the document root, whether the root and its style are
    there, the flag [state.transitionEnabled], and the number of
    [setProperty] calls made.  Values are the strings handed to CSS. *)
Record Root : Type := mkRoot {
  lastAppliedState : gmap string string;
  rootStyle : gmap string string;
  rootAvailable : bool;
  transitionEnabled : bool;
  setPropertyCalls : nat
}.

(** [setCSSProperty(property, value, force)]. *)
Definition setCSSProperty (property value : string) (force : bool) (r : Root) : Root :=
  if negb force && bool_decide (lastAppliedState r !! property = Some value) then r
  else if rootAvailable r then
    mkRoot (<[property := value]> (lastAppliedState r)) (<[property := value]> (rootStyle r))
           (rootAvailable r) (transitionEnabled r) (S (setPropertyCalls r))
  else r.

Definition transitionProperty : string := "--state-transition".

(** [setTransitionEnabled(enabled)], which writes to the root style
    directly; without a root the write throws after the flag is set. *)
Definition setTransitionEnabled (enabled : bool) (r : Root) : Root :=
  if rootAvailable r then
    mkRoot (lastAppliedState r)
           (<[transitionProperty :=
                if enabled then "all 0.2s cubic-bezier(0.4, 0, 0.2, 1)" else "none"]>
              (rootStyle r))
           (rootAvailable r) enabled (S (setPropertyCalls r))
  else mkRoot (lastAppliedState r) (rootStyle r) (rootAvailable r) enabled
              (setPropertyCalls r).

(** The part of [cleanup()] that concerns the cache. *)
Definition cleanup (r : Root) : Root :=
  mkRoot ∅ (rootStyle r) (rootAvailable r) (transitionEnabled r) (setPropertyCalls r).

Inductive Call : Type :=
| SetCSSProperty (property value : string) (force : bool)
| SetTransitionEnabled (enabled : bool)
| Cleanup.

Definition call (r : Root) (c : Call) : Root :=
  match c with
  | SetCSSProperty p v f => setCSSProperty p v f r
  | SetTransitionEnabled b => setTransitionEnabled b r
  | Cleanup => cleanup r
  end.



End CssCache.

(** ** [VisualStateManager.throttle] *)

Module Throttle.

Section Throttled.

(** The arguments of a call, and [delay] in milliseconds. *)
Variable A : Type.
Variable delay : Z.

(** The closure of the throttled function: [lastExecTime]; the timer
    behind [timeoutId] while it waits, with the time it is due and the
    arguments its callback will pass; and the calls of [func] made so
    far, each with its time. *)
Record Closure : Type := mkClosure {
  lastExecTime : Z;
  timer : option (Z * A);
  executed : list (Z * A)
}.

Definition created : Closure := mkClosure 0 None [].

(** The throttled function, called when [Date.now()] is [now].  The
    first branch leaves a waiting timer alone. *)
Definition throttled (now : Z) (args : A) (c : Closure) : Closure :=
  if (delay <? now - lastExecTime c)%Z
  then mkClosure now (timer c) (executed c ++ [(now, args)])
  else mkClosure (lastExecTime c)
                 (Some (now + (delay - (now - lastExecTime c)), args)%Z)
                 (executed c).

(** The browser runs the callback of the waiting timer when [Date.now()]
    is [now]; it never does so before the timer is due. *)
Definition timeout (now : Z) (c : Closure) : Closure :=
  match timer c with
  | Some (due, args) =>
      if (due <=? now)%Z then mkClosure now None (executed c ++ [(now, args)]) else c
  | None => c
  end.

Inductive Event : Type :=
| Call (now : Z) (args : A)
| Timeout (now : Z).

Definition step (c : Closure) (e : Event) : Closure :=
  match e with
  | Call now args => throttled now args c
  | Timeout now => timeout now c
  end.

Definition run (events : list Event) : Closure := fold_left step events created.

(** The arguments of the calls, in order. *)
Definition calls (events : list Event) : list A :=
  omap (fun e => match e with Call _ args => Some args | Timeout _ => None end) events.

(** No call finds a timer waiting that is overdue. *)
Fixpoint punctual (c : Closure) (events : list Event) : Prop :=
  match events with
  | [] => True
  | e :: rest =>
      match e, timer c with
      | Call now _, Some (due, _) => (now <= due)%Z
      | _, _ => True
      end /\ punctual (step c e) rest
  end.

(** Consecutive entries are at least [delay] apart. *)
Fixpoint spaced (log : list (Z * A)) : Prop :=
  match log with
  | [] => True
  | (t1, _) :: rest =>
      match rest with
      | [] => True
      | (t2, _) :: _ => (t1 + delay <= t2)%Z
      end /\ spaced rest
  end.

(** What holds of a closure after the calls [seen]. *)
Definition invariant (c : Closure) (seen : list A) : Prop :=
  (forall due a, timer c = Some (due, a) -> due = (lastExecTime c + delay)%Z)
  /\ spaced (executed c)
  /\ (forall t a, last (executed c) = Some (t, a) -> t = lastExecTime c)
  /\ match timer c with
     | Some (_, a) => last seen = Some a
     | None => seen = [] \/ exists t a, last (executed c) = Some (t, a) /\ last seen = Some a
     end
  /\ (forall t a, (t, a) ∈ executed c -> a ∈ seen).

End Throttled.

Arguments mkClosure {A} _ _ _.
Arguments lastExecTime {A} _.
Arguments timer {A} _.
Arguments executed {A} _.
Arguments created {A}.
Arguments throttled {A} _ _ _ _.
Arguments timeout {A} _ _.
Arguments Call {A} _ _.
Arguments Timeout {A} _.
Arguments step {A} _ _ _.
Arguments run {A} _ _.
Arguments calls {A} _.
Arguments punctual {A} _ _ _.
Arguments spaced {A} _ _.
Arguments invariant {A} _ _ _.

(** A timer that runs late, after a later call has been served. *)
Definition lateTimer : list (Event string) :=
  [Call 1000 "a"; Call 1010 "b"; Call 1200 "c"; Timeout 1201].

Definition timerOnTime : list (Event string) :=
  [Call 1000 "a"; Call 1010 "b"; Call 1050 "c"; Timeout 1104; Call 1300 "d"].

End Throttle.

(* ================================================================== *)
(** * Part II.  Properties                                             *)
(* ================================================================== *)

(** ** Time formatting *)

Section TimeFormatClaims.
Import Js TimeFormat.
Local Open Scope string_scope.

(** C9.  The global [formatTime] has no guard for non-finite input:
    for [NaN], [undefined] and [Infinity] it does not throw, but it
    returns ["NaN:NaN"] (with milliseconds ["NaN:NaN.NaN"],
    ["Infinity:NaN.NaN"]) where the specification promises ["0:00"].  The
    sibling [OverlayUtils.formatTime] has the guard and returns
    ["0:00"].  On 0, 59.999 and 60 the result has the shape
    [MM:SS.mmm] (digits by exact arithmetic). *)
Theorem formatTime_lacks_fallback :
  formatTime (ANum NaN) false = "NaN:NaN"
  /\ formatTime AUndefined false = "NaN:NaN"
  /\ formatTime (ANum NaN) true = "NaN:NaN.NaN"
  /\ formatTime (ANum PosInf) true = "Infinity:NaN.NaN"
  /\ OverlayUtils_formatTime (ANum NaN) = "0:00"
  /\ OverlayUtils_formatTime AUndefined = "0:00"
  /\ OverlayUtils_formatTime (ANum PosInf) = "0:00"
  /\ OverlayUtils_formatTimeWithMilliseconds (ANum NaN) = "0:00.000"
  /\ OverlayUtils_formatTime (ANum (Fin 0)) = "0:00"
  /\ OverlayUtils_formatTime (ANum (Fin (59999 # 1000))) = "0:59"
  /\ OverlayUtils_formatTime (ANum (Fin 60)) = "1:00"
  /\ formatTime (ANum (Fin 0)) true = "00:00.000"
  /\ formatTime (ANum (Fin (59999 # 1000))) true = "00:59.999"
  /\ formatTime (ANum (Fin 60)) true = "01:00.000"
  /\ formatTime (ANum (Fin 60)) false = "01:00".
Proof. repeat split; vm_compute; reflexivity. Qed.

Lemma padded_digits_below (width bound : nat) (z : Z) :
  forallb (padded_digits width) (seq 0 bound) = true ->
  (0 <= z < Z.of_nat bound)%Z ->
  String.length (padStart0 width (to_string (IFin z))) = width
  /\ all_digits (padStart0 width (to_string (IFin z))) = true.
Proof.
  intros Hall Hz. rewrite forallb_forall in Hall.
  assert (Hin : In (Z.to_nat z) (seq 0 bound)) by (apply in_seq; lia).
  specialize (Hall _ Hin). unfold padded_digits in Hall.
  rewrite Z2Nat.id in Hall by lia.
  apply andb_prop in Hall as [Hlen Hdig]. split; [by apply Nat.eqb_eq|done].
Qed.

Lemma two_digits z :
  (0 <= z < 100)%Z ->
  exists a b, padStart0 2 (to_string (IFin z)) = String a (String b EmptyString)
              /\ is_digit a = true /\ is_digit b = true.
Proof.
  intros Hz.
  destruct (padded_digits_below 2 100 z) as [Hlen Hdig]; [by vm_compute|done|].
  destruct (padStart0 2 (to_string (IFin z))) as [|a [|b [|c r]]]; try discriminate.
  simpl in Hdig. apply andb_prop in Hdig as [Ha Hb]. apply andb_prop in Hb as [Hb _].
  by exists a, b.
Qed.

Lemma three_digits z :
  (0 <= z < 1000)%Z ->
  String.length (padStart0 3 (to_string (IFin z))) = 3%nat
  /\ all_digits (padStart0 3 (to_string (IFin z))) = true.
Proof. intros Hz. apply (padded_digits_below 3 1000 z); [by vm_compute|done]. Qed.

(** On a finite time from 0 up to, not including, 100 minutes the
    global [formatTime] returns a string of the shape [MM:SS], or
    [MM:SS.mmm] when milliseconds are asked for. *)
Lemma formatTime_shape (q : Q) (withMilliseconds : bool) :
  (0 <= q)%Q -> (q < 6000)%Q ->
  has_shape withMilliseconds (formatTime (ANum (Fin q)) withMilliseconds) = true.
Proof.
  intros H0 H1. unfold formatTime. cbn [to_number div_pos rem_pos floor of_int sub mul_pos].
  assert (Hq : (q == 60 * (q / 60))%Q) by field.
  pose proof (Qfloor_le (q / 60)) as Hfl. pose proof (Qlt_floor (q / 60)) as Hfu.
  rewrite inject_Z_plus in Hfu. change (inject_Z 1) with 1%Q in Hfu.
  assert (Htr : Qtrunc (q / 60) = Qfloor (q / 60)).
  { unfold Qtrunc. replace (Qle_bool 0 (q / 60)) with true; [done|].
    symmetry. apply Qle_bool_iff. set (x := (q / 60)%Q) in *. clearbody x. lra. }
  rewrite Htr.
  set (m := Qfloor (q / 60)) in *.
  assert (Hm : (0 <= m < 100)%Z).
  { subst m. set (x := (q / 60)%Q) in *. clearbody x. split.
    - replace 0%Z with (Qfloor 0) by reflexivity. apply Qfloor_resp_le. lra.
    - rewrite Zlt_Qlt. change (inject_Z 100) with 100%Q.
      set (z := inject_Z (Qfloor x)) in *. clearbody z. lra. }
  set (r := (q - 60 * inject_Z m)%Q).
  assert (Hr : (0 <= r)%Q /\ (r < 60)%Q).
  { subst r. set (x := (q / 60)%Q) in *. set (z := inject_Z m) in *.
    clearbody x z. lra. }
  pose proof (Qfloor_le r) as Hsl. pose proof (Qlt_floor r) as Hsu.
  rewrite inject_Z_plus in Hsu. change (inject_Z 1) with 1%Q in Hsu.
  set (sec := Qfloor r) in *.
  assert (Hsec : (0 <= sec < 60)%Z).
  { subst sec. split.
    - replace 0%Z with (Qfloor 0) by reflexivity. apply Qfloor_resp_le. tauto.
    - rewrite Zlt_Qlt. change (inject_Z 60) with 60%Q.
      set (z := inject_Z (Qfloor r)) in *. clearbody z. lra. }
  set (f := ((r - inject_Z sec) * 1000)%Q).
  assert (Hf : (0 <= f)%Q /\ (f < 1000)%Q).
  { subst f. set (z := inject_Z sec) in *. clearbody z. lra. }
  pose proof (Qfloor_le f) as Hml. pose proof (Qlt_floor f) as Hmu.
  rewrite inject_Z_plus in Hmu. change (inject_Z 1) with 1%Q in Hmu.
  set (ms := Qfloor f) in *.
  assert (Hms : (0 <= ms < 1000)%Z).
  { subst ms. split.
    - replace 0%Z with (Qfloor 0) by reflexivity. apply Qfloor_resp_le. tauto.
    - rewrite Zlt_Qlt. change (inject_Z 1000) with 1000%Q.
      set (z := inject_Z (Qfloor f)) in *. clearbody z. lra. }
  destruct (two_digits m) as (a & b & -> & Ha & Hb); [lia|].
  destruct (two_digits sec) as (c & d & -> & Hc & Hd); [lia|].
  destruct withMilliseconds.
  - destruct (three_digits ms Hms) as [Hlen Hdig].
    set (t := padStart0 3 (to_string (IFin ms))) in *. clearbody t.
    simpl. change (String.append EmptyString t) with t.
    rewrite Ha, Hb, Hc, Hd, Hlen, Hdig. reflexivity.
  - simpl. rewrite Ha, Hb, Hc, Hd. reflexivity.
Qed.

End TimeFormatClaims.

(** ** Overlay store *)

Section OverlayStoreFacts.
Import OverlayStore.

Lemma index_from_notin k proj m id :
  id ∉ po_id <$> proj -> index_from k proj m !! id = m !! id.
Proof.
  revert k m. induction proj as [|e rest IH]; intros k m Hid; simpl; [done|].
  simpl in Hid. apply not_elem_of_cons in Hid as [Hne Hrest].
  rewrite IH by done. by rewrite lookup_insert_ne.
Qed.

Lemma index_from_entry k proj m j e :
  NoDup (po_id <$> proj) -> proj !! j = Some e ->
  index_from k proj m !! po_id e = Some (k + j).
Proof.
  revert k m j. induction proj as [|e0 rest IH]; intros k m j Hnd Hj; [done|].
  simpl in Hnd. apply NoDup_cons in Hnd as [Hnotin Hnd].
  destruct j as [|j]; simpl in *.
  - injection Hj as ->. rewrite index_from_notin by done.
    rewrite lookup_insert_eq. f_equal. lia.
  - rewrite (IH (S k) _ j) by done. f_equal. lia.
Qed.

Lemma index_from_Some k proj m id i :
  index_from k proj m !! id = Some i ->
  (exists e, proj !! (i - k) = Some e /\ po_id e = id /\ k <= i) \/ m !! id = Some i.
Proof.
  revert k m. induction proj as [|e0 rest IH]; intros k m H; simpl in *; [by right|].
  apply IH in H as [(e & He & Hid & Hle)|H].
  - left. exists e. replace (i - k) with (S (i - S k)) by lia. simpl. repeat split; [done|done|lia].
  - destruct (decide (po_id e0 = id)) as [<-|Hne].
    + rewrite lookup_insert_eq in H. injection H as <-. left. exists e0.
      replace (k - k) with 0 by lia. done.
    + rewrite lookup_insert_ne in H by done. by right.
Qed.

Lemma upd_if_id o e : po_id (upd_if o e) = po_id e.
Proof. unfold upd_if. by case_decide. Qed.

Lemma alter_as_map m P o i :
  loop_inv m P -> m !! ov_id o = Some i ->
  alter (fun e => overlayData o (po_obj e)) i P = upd_if o <$> P.
Proof.
  intros [H1 H3] Hm. apply list_eq. intros j. rewrite list_lookup_fmap.
  destruct (decide (i = j)) as [->|Hne].
  - rewrite list_lookup_alter_eq. destruct (H1 _ _ Hm) as (e & He & Hid).
    rewrite He. simpl. unfold upd_if. by rewrite decide_True.
  - rewrite list_lookup_alter_ne by done.
    destruct (P !! j) as [e|] eqn:He; [|done]. simpl. unfold upd_if.
    case_decide as Hid; [|done]. exfalso. apply Hne.
    apply (H3 j e He). by rewrite Hid.
Qed.

Lemma loop_inv_initial proj :
  NoDup (po_id <$> proj) -> loop_inv (currentOverlaysMap proj) proj.
Proof.
  intros Hnd. split.
  - intros id i H. apply index_from_Some in H as [(e & He & Hid & _)|H].
    + exists e. by rewrite Nat.sub_0_r in He.
    + by rewrite lookup_empty in H.
  - intros j e He i Hi. unfold currentOverlaysMap in Hi.
    rewrite (index_from_entry 0 proj ∅ j e Hnd He) in Hi. by injection Hi.
Qed.

Lemma loop_inv_update m P o i :
  loop_inv m P -> m !! ov_id o = Some i ->
  loop_inv (delete (ov_id o) m) (upd_if o <$> P).
Proof.
  intros [H1 H3] Hm. split.
  - intros id j Hj. apply lookup_delete_Some in Hj as [Hne Hj].
    destruct (H1 _ _ Hj) as (e & He & Hid). exists (upd_if o e).
    rewrite list_lookup_fmap, He, upd_if_id. done.
  - intros j e' He' k Hk. rewrite list_lookup_fmap in He'.
    destruct (P !! j) as [e|] eqn:He; [|done]. simpl in He'. injection He' as <-.
    rewrite upd_if_id in Hk. apply lookup_delete_Some in Hk as [_ Hk]. eauto.
Qed.

Lemma loop_inv_append m P o n :
  loop_inv m P -> m !! ov_id o = None ->
  loop_inv m (P ++ [overlayData o n]).
Proof.
  intros [H1 H3] Hm. split.
  - intros id j Hj. destruct (H1 _ _ Hj) as (e & He & Hid). exists e.
    split; [|done]. apply lookup_app_l_Some. done.
  - intros j e He k Hk. apply lookup_app_Some in He as [He|[_ He]]; [eauto|].
    apply list_lookup_singleton_Some in He as [_ <-]. simpl in Hk. congruence.
Qed.

Lemma find_overlay_Some id S o : find_overlay id S = Some o -> o ∈ S /\ ov_id o = id.
Proof.
  induction S as [|o' S IH]; simpl; [done|]. case_decide.
  - intros [= <-]. split; [left|done].
  - intros H'. destruct (IH H'). split; [by right|done].
Qed.

Lemma find_overlay_None id S : find_overlay id S = None <-> id ∉ ov_id <$> S.
Proof.
  induction S as [|o' S IH]; simpl.
  - split; [intros _; apply not_elem_of_nil|done].
  - case_decide as Hd.
    + split; [done|]. intros Hn. exfalso. apply Hn. rewrite <- Hd. left.
    + rewrite IH, not_elem_of_cons. split; [intros; split; [congruence|done]|tauto].
Qed.

Lemma find_overlay_elem S o :
  NoDup (ov_id <$> S) -> o ∈ S -> find_overlay (ov_id o) S = Some o.
Proof.
  induction S as [|o' S IH]; simpl; intros Hnd Ho; [by apply elem_of_nil in Ho|].
  apply NoDup_cons in Hnd as [Hnotin Hnd].
  apply elem_of_cons in Ho as [->|Ho]; [by rewrite decide_True|].
  case_decide as Hd; [|by apply IH].
  exfalso. apply Hnotin. rewrite Hd. by apply list_elem_of_fmap_2.
Qed.

Lemma filter_ext_elem {A} (P1 P2 : A -> Prop)
      `{!forall x, Decision (P1 x), !forall x, Decision (P2 x)} (l : list A) :
  (forall x, x ∈ l -> (P1 x <-> P2 x)) -> filter P1 l = filter P2 l.
Proof.
  induction l as [|x l IH]; intros Hext; [done|].
  rewrite !filter_cons. rewrite IH by (intros y Hy; apply Hext; by right).
  destruct (decide (P1 x)) as [Hx1|Hx1], (decide (P2 x)) as [Hx2|Hx2]; try done;
    exfalso; [apply Hx2|apply Hx1]; apply (Hext x); try done; left.
Qed.

Lemma sync_loop_closed S : forall m P n,
  loop_inv m P -> NoDup (ov_id <$> S) ->
  fold_left sync_step S (m, P, n) =
    (fold_left (fun m o => delete (ov_id o) m) S m,
     (looped m S <$> P)
       ++ imap (fun i o => overlayData o (n + i)) (filter (fun o => m !! ov_id o = None) S),
     n + length (filter (fun o => m !! ov_id o = None) S)).
Proof.
  induction S as [|o S IH]; intros m P n Hinv Hnd.
  - simpl. rewrite app_nil_r, Nat.add_0_r. f_equal. f_equal.
    rewrite <- (list_fmap_id P) at 1. apply list_fmap_ext. intros i e _.
    unfold looped. simpl. by destruct (m !! po_id e).
  - rewrite fmap_cons in Hnd. apply NoDup_cons in Hnd as [Hnotin Hnd].
    assert (Hflt : filter (fun o' => delete (ov_id o) m !! ov_id o' = None) S
                   = filter (fun o' => m !! ov_id o' = None) S).
    { apply filter_ext_elem. intros o' Ho'.
      rewrite lookup_delete_ne; [done|]. intros Heq. apply Hnotin.
      rewrite Heq. by apply list_elem_of_fmap_2. }
    cbn [fold_left]. unfold sync_step at 2.
    destruct (m !! ov_id o) as [i|] eqn:Hm.
    + rewrite (alter_as_map m P o i Hinv Hm).
      rewrite IH by eauto using loop_inv_update.
      rewrite (filter_cons_False _ o) by (rewrite Hm; done).
      rewrite Hflt. f_equal. f_equal. f_equal.
      rewrite <- list_fmap_compose. apply list_fmap_ext. intros j e _. simpl.
      unfold looped, upd_if. simpl. case_decide as Hid.
      * simpl. rewrite lookup_delete_eq. rewrite Hid, Hm.
        by rewrite decide_True.
      * rewrite lookup_delete_ne by done.
        rewrite decide_False by done. done.
    + rewrite IH by eauto using loop_inv_append.
      rewrite (filter_cons_True _ o) by done.
      rewrite (delete_id m (ov_id o)) by done.
      rewrite fmap_app, imap_cons. simpl length.
      rewrite <- app_assoc. simpl.
      f_equal; [f_equal|lia].
      f_equal; [|f_equal].
      * apply list_fmap_ext. intros j e _. unfold looped. simpl.
        case_decide as Hid; [|done]. by rewrite <- Hid, Hm.
      * unfold looped. simpl. by rewrite Hm, Nat.add_0_r.
      * apply imap_ext. intros j o' _. simpl. f_equal. lia.
Qed.

Lemma filter_all {A} (P : A -> Prop) `{!forall x, Decision (P x)} (l : list A) :
  (forall x, x ∈ l -> P x) -> filter P l = l.
Proof.
  induction l as [|x l IH]; intros Hall; [done|].
  rewrite filter_cons_True by (apply Hall; left).
  f_equal. apply IH. intros y Hy. apply Hall. by right.
Qed.

Lemma fold_delete_lookup (St : list Overlay) (m : gmap string nat) id :
  fold_left (fun m o => delete (ov_id o) m) St m !! id
  = if decide (id ∈ ov_id <$> St) then None else m !! id.
Proof.
  revert m. induction St as [|o St IH]; intros m.
  - case_decide as Hin; [by apply elem_of_nil in Hin|done].
  - cbn [fold_left]. rewrite IH, fmap_cons. clear IH.
    destruct (decide (id ∈ ov_id <$> St)) as [Hin|Hin],
             (decide (id ∈ ov_id o :: (ov_id <$> St))) as [Hin'|Hin']; try done.
    + exfalso. apply Hin'. by right.
    + apply elem_of_cons in Hin' as [->|?]; [|done]. apply lookup_delete_eq.
    + apply lookup_delete_ne. intros Heq. apply Hin'. rewrite <- Heq. left.
Qed.

Lemma removed_ids_lookup (m : gmap string nat) id :
  id ∉ (map_to_list m).*1 <-> m !! id = None.
Proof.
  split.
  - intros Hn. destruct (m !! id) as [i|] eqn:Hi; [|done]. exfalso. apply Hn.
    apply list_elem_of_fmap. exists (id, i). split; [done|].
    by apply elem_of_map_to_list.
  - intros Hnone Hin. apply list_elem_of_fmap in Hin as ([id' i] & -> & Hin).
    apply elem_of_map_to_list in Hin. simpl in Hnone. congruence.
Qed.

Lemma current_map_None proj id :
  NoDup (po_id <$> proj) ->
  currentOverlaysMap proj !! id = None <-> id ∉ po_id <$> proj.
Proof.
  intros Hnd. split.
  - intros Hnone Hin. apply list_elem_of_fmap in Hin as (e & -> & He).
    apply list_elem_of_lookup in He as [j Hj].
    unfold currentOverlaysMap in Hnone.
    by rewrite (index_from_entry 0 proj ∅ j e Hnd Hj) in Hnone.
  - intros Hnotin. unfold currentOverlaysMap. by rewrite index_from_notin.
Qed.

Lemma filter_looped (m0 : gmap string nat) (St : list Overlay) (l : list ProjectOverlay) :
  (forall e, e ∈ l -> is_Some (m0 !! po_id e)) ->
  filter (fun e => fold_left (fun m o => delete (ov_id o) m) St m0 !! po_id e = None)
         (looped m0 St <$> l)
  = omap (fun e => (fun o => overlayData o (po_obj e)) <$> find_overlay (po_id e) St) l.
Proof.
  induction l as [|e rest IH]; intros Hall; [done|].
  rewrite fmap_cons. cbn [omap list_omap].
  destruct (Hall e) as [i Hi]; [left|].
  assert (IH' := IH (fun e' He' => Hall e' (list_elem_of_further _ _ _ He'))).
  unfold looped at 1. rewrite Hi.
  destruct (find_overlay (po_id e) St) as [o|] eqn:Hfind; simpl.
  - apply find_overlay_Some in Hfind as [Ho Hid].
    rewrite filter_cons_True.
    + by rewrite IH'.
    + simpl. rewrite fold_delete_lookup. rewrite decide_True; [done|].
      by apply list_elem_of_fmap_2.
  - apply find_overlay_None in Hfind.
    rewrite filter_cons_False; [done|].
    rewrite fold_delete_lookup, decide_False by done. by rewrite Hi.
Qed.

(** [syncWithProject] computes the id-based diff of the specification. *)
Lemma syncWithProject_reconcile w proj :
  projectOverlays w = Some proj ->
  NoDup (po_id <$> proj) -> NoDup (ov_id <$> overlays w) ->
  projectOverlays (syncWithProject w)
    = Some (reconcile_by_id (overlays w) proj (nextObj w))
  /\ overlays (syncWithProject w) = overlays w.
Proof.
  intros Hproj Hndp Hnds. unfold syncWithProject. rewrite Hproj.
  rewrite sync_loop_closed by auto using loop_inv_initial.
  set (m0 := currentOverlaysMap proj).
  set (mf := fold_left (fun m o => delete (ov_id o) m) (overlays w) m0).
  simpl. split; [|done]. f_equal.
  set (P1 := (looped m0 (overlays w) <$> proj) ++ _).
  assert (Hfilter :
    (if decide ((map_to_list mf).*1 = []) then P1
     else filter (fun o => po_id o ∉ (map_to_list mf).*1) P1)
    = filter (fun e => mf !! po_id e = None) P1).
  { case_decide as Hempty.
    - symmetry. apply filter_all. intros e _.
      apply fmap_nil_inv in Hempty. apply map_to_list_empty_iff in Hempty.
      rewrite Hempty. apply lookup_empty.
    - apply list_filter_iff. intros e. apply removed_ids_lookup. }
  rewrite Hfilter. clear Hfilter. subst P1. rewrite filter_app.
  unfold reconcile_by_id. f_equal.
  - apply filter_looped. intros e He. destruct (m0 !! po_id e) eqn:Hm; [done|].
    apply current_map_None in Hm; [|done]. exfalso. apply Hm.
    by apply list_elem_of_fmap_2.
  - rewrite (list_filter_iff (fun o => m0 !! ov_id o = None)
               (fun o => ov_id o ∉ po_id <$> proj))
      by (intros o; by apply current_map_None).
    apply filter_all. intros e He.
    apply elem_of_lookup_imap in He as (j & o & -> & Hj).
    apply list_elem_of_lookup_2, list_elem_of_filter in Hj as [Hnotin _].
    simpl. subst mf. rewrite fold_delete_lookup. case_decide; [done|].
    by apply current_map_None.
Qed.

Lemma NoDup_fmap_filter {A B} (f : A -> B) (P : A -> Prop)
      `{!forall x, Decision (P x)} (l : list A) :
  NoDup (f <$> l) -> NoDup (f <$> filter P l).
Proof.
  induction l as [|x l IH]; [done|]. rewrite fmap_cons, NoDup_cons.
  intros [Hx Hl]. rewrite filter_cons. case_decide; [|by apply IH].
  rewrite fmap_cons. apply NoDup_cons. split; [|by apply IH].
  intros Hin. apply Hx. apply list_elem_of_fmap in Hin as (y & -> & Hy).
  apply list_elem_of_filter in Hy as [_ Hy]. by apply list_elem_of_fmap_2.
Qed.

Lemma filter_unique {A B} `{EqDecision B} (f : A -> B) (l : list A) (x : A) :
  NoDup (f <$> l) -> x ∈ l -> filter (fun y => f y = f x) l = [x].
Proof.
  induction l as [|a l IH]; intros Hnd Hx; [by apply elem_of_nil in Hx|].
  rewrite fmap_cons in Hnd. apply NoDup_cons in Hnd as [Ha Hnd].
  apply elem_of_cons in Hx as [->|Hx].
  - rewrite filter_cons_True by done. f_equal.
    destruct (filter (fun y => f y = f a) l) as [|y ys] eqn:Hf; [done|].
    exfalso. assert (Hy : y ∈ filter (fun y => f y = f a) l) by (rewrite Hf; left).
    apply list_elem_of_filter in Hy as [Hy1 Hy2]. apply Ha. rewrite <- Hy1.
    by apply list_elem_of_fmap_2.
  - rewrite filter_cons_False; [by apply IH|].
    intros Heq. apply Ha. rewrite Heq. by apply list_elem_of_fmap_2.
Qed.

Lemma reconcile_ids_kept (St : list Overlay) (proj : list ProjectOverlay) e :
  e ∈ omap (fun e => (fun o => overlayData o (po_obj e)) <$> find_overlay (po_id e) St) proj ->
  exists e0 o, e0 ∈ proj /\ o ∈ St /\ ov_id o = po_id e0 /\ e = overlayData o (po_obj e0).
Proof.
  intros He. apply list_elem_of_omap in He as (e0 & He0 & Hh).
  destruct (find_overlay (po_id e0) St) as [o|] eqn:Hfind; [|done].
  simpl in Hh. injection Hh as <-.
  apply find_overlay_Some in Hfind as [Ho Hid]. by exists e0, o.
Qed.

Lemma reconcile_NoDup_kept (St : list Overlay) (proj : list ProjectOverlay) :
  NoDup (po_id <$> proj) ->
  NoDup (po_id <$> omap (fun e => (fun o => overlayData o (po_obj e))
                                    <$> find_overlay (po_id e) St) proj).
Proof.
  induction proj as [|e0 rest IH]; [done|].
  rewrite fmap_cons, NoDup_cons. intros [Hhd Hnd]. cbn [omap list_omap].
  destruct (find_overlay (po_id e0) St) as [o|] eqn:Hfind; simpl; [|by apply IH].
  apply NoDup_cons. split; [|by apply IH].
  intros Hin. apply Hhd. apply list_elem_of_fmap in Hin as (e & Hid & He).
  apply reconcile_ids_kept in He as (e1 & o1 & He1 & _ & Hid1 & ->).
  simpl in Hid. apply find_overlay_Some in Hfind as [_ Hfind].
  rewrite <- Hfind, Hid, Hid1. by apply list_elem_of_fmap_2.
Qed.

(** The diff of the specification yields a matching projection. *)
Lemma reconcile_matches (St : list Overlay) (proj : list ProjectOverlay) n :
  NoDup (po_id <$> proj) -> NoDup (ov_id <$> St) ->
  projection_matches St (reconcile_by_id St proj n).
Proof.
  intros Hndp Hnds.
  assert (Hids : forall e, e ∈ reconcile_by_id St proj n ->
                           exists o, o ∈ St /\ ov_id o = po_id e
                                     /\ po_start e = ov_startTime o
                                     /\ po_duration e = ov_duration o).
  { intros e He. apply elem_of_app in He as [He|He].
    - apply reconcile_ids_kept in He as (e0 & o & _ & Ho & _ & ->). by exists o.
    - apply elem_of_lookup_imap in He as (j & o & -> & Hj).
      apply list_elem_of_lookup_2, list_elem_of_filter in Hj as [_ Ho]. by exists o. }
  assert (Hnd : NoDup (po_id <$> reconcile_by_id St proj n)).
  { unfold reconcile_by_id. rewrite fmap_app. apply NoDup_app. split; [|split].
    - by apply reconcile_NoDup_kept.
    - intros id Hin1 Hin2.
      apply list_elem_of_fmap in Hin1 as (e & -> & He).
      apply reconcile_ids_kept in He as (e0 & o & He0 & _ & Hid & ->). simpl in Hin2.
      apply list_elem_of_fmap in Hin2 as (e' & Hid' & He').
      apply elem_of_lookup_imap in He' as (j & o' & -> & Hj).
      apply list_elem_of_lookup_2, list_elem_of_filter in Hj as [Hnotin _].
      apply Hnotin. simpl in Hid'. rewrite <- Hid', Hid. by apply list_elem_of_fmap_2.
    - rewrite fmap_imap. simpl.
      rewrite (imap_ext _ (const ov_id)) by done. rewrite imap_const.
      by apply NoDup_fmap_filter. }
  split; [done|]. split.
  - intros o Ho.
    assert (Hex : exists e, e ∈ reconcile_by_id St proj n /\ po_id e = ov_id o).
    { destruct (decide (ov_id o ∈ po_id <$> proj)) as [Hin|Hnotin].
      - apply list_elem_of_fmap in Hin as (e0 & Hid & He0).
        exists (overlayData o (po_obj e0)). split; [|done].
        apply elem_of_app. left. apply list_elem_of_omap. exists e0. split; [done|].
        rewrite <- Hid. by rewrite (find_overlay_elem St o).
      - assert (Hf : o ∈ filter (fun o => ov_id o ∉ po_id <$> proj) St)
          by (by apply list_elem_of_filter).
        apply list_elem_of_lookup in Hf as [j Hj].
        exists (overlayData o (n + j)). split; [|done].
        apply elem_of_app. right.
        apply (elem_of_lookup_imap_2 (fun i o => overlayData o (n + i)) _ _ _ Hj). }
    destruct Hex as (e & He & Hid). exists e.
    rewrite <- Hid. split; [by apply filter_unique|].
    destruct (Hids e He) as (o' & Ho' & Hid' & Hs & Hd).
    assert (o' = o) as ->.
    { assert (Hf := find_overlay_elem St o' Hnds Ho').
      rewrite Hid', Hid, (find_overlay_elem St o Hnds Ho) in Hf. by injection Hf. }
    done.
  - intros e He. destruct (Hids e He) as (o & Ho & Hid & _). rewrite <- Hid.
    by apply list_elem_of_fmap_2.
Qed.

(** *** Event delivery *)

Lemma forEach_normal event cb :
  (forall h w, is_normal (cb h w) = true) ->
  forall remaining k w, is_normal (forEach_listeners event cb k remaining w) = true.
Proof.
  intros Hcb. induction remaining as [|r IH]; intros k w; simpl; [done|].
  destruct (listenersOf event w !! k) as [h|]; [|apply IH].
  specialize (Hcb h w). destruct (cb h w); [apply IH|done].
Qed.

Lemma forEach_frame {X} (F : World -> X) event cb :
  (forall h w, F (world_of (cb h w)) = F w) ->
  forall remaining k w, F (world_of (forEach_listeners event cb k remaining w)) = F w.
Proof.
  intros Hcb. induction remaining as [|r IH]; intros k w; simpl; [done|].
  destruct (listenersOf event w !! k) as [h|]; [|apply IH].
  specialize (Hcb h w). destruct (cb h w) as [w'|e w']; simpl in *; [|done].
  by rewrite IH.
Qed.

Section Delivery.
Variable behaviour : HandlerId -> EventData -> World -> Completion.

Lemma guarded_normal event data h w :
  guarded behaviour event data h w = Normal (delivered behaviour event data w h).
Proof. unfold guarded, try_catch, delivered. by destruct (behaviour h data w). Qed.

Lemma guarded_frame {X} (F : World -> X) event data :
  (forall l w, F (log l w) = F w) ->
  (forall h d w, F (world_of (behaviour h d w)) = F w) ->
  forall h w, F (world_of (guarded behaviour event data h w)) = F w.
Proof.
  intros Hlog Hb h w. rewrite guarded_normal. simpl. unfold delivered.
  specialize (Hb h data w). destruct (behaviour h data w); simpl in *; [done|].
  by rewrite Hlog.
Qed.

Lemma guarded_is_normal event data h w :
  is_normal (guarded behaviour event data h w) = true.
Proof. by rewrite guarded_normal. Qed.

Lemma emit_normal event data w : is_normal (emit behaviour event data w) = true.
Proof.
  unfold emit. destruct (eventListeners w !! event) as [arr|]; [|done].
  pose proof (forEach_normal event (guarded behaviour event data)
                (guarded_is_normal event data) (length arr) 0 w) as Hn.
  by destruct (forEach_listeners event (guarded behaviour event data) 0 (length arr) w).
Qed.

Lemma emit_frame {X} (F : World -> X) event data w :
  (forall l w, F (log l w) = F w) ->
  (forall h d w, F (world_of (behaviour h d w)) = F w) ->
  F (world_of (emit behaviour event data w)) = F w.
Proof.
  intros Hlog Hb. unfold emit. destruct (eventListeners w !! event) as [arr|]; [|done].
  pose proof (forEach_frame F event (guarded behaviour event data)
                (guarded_frame F event data Hlog Hb) (length arr) 0 w) as Hf.
  destruct (forEach_listeners event (guarded behaviour event data) 0 (length arr) w);
    simpl in *; [by rewrite Hlog|done].
Qed.

(** With a registry that the subscribers leave alone, the loop
    visits the listeners from position [k] on, one after the other. *)
Lemma forEach_all event data (Hkeep : keeps_listeners behaviour) :
  forall remaining k w,
    k + remaining = length (listenersOf event w) ->
    forEach_listeners event (guarded behaviour event data) k remaining w
    = Normal (fold_left (delivered behaviour event data) (drop k (listenersOf event w)) w).
Proof.
  induction remaining as [|r IH]; intros k w Hlen; simpl.
  - rewrite drop_ge by lia. done.
  - destruct (listenersOf event w !! k) as [h|] eqn:Hk.
    + rewrite guarded_normal.
      assert (Hsame : listenersOf event (delivered behaviour event data w h) = listenersOf event w).
      { unfold listenersOf. f_equal.
        rewrite <- (guarded_frame eventListeners event data (fun _ _ => eq_refl) Hkeep h w).
        by rewrite guarded_normal. }
      rewrite IH by (rewrite Hsame; lia). rewrite Hsame.
      by rewrite (drop_S _ _ _ Hk).
    + apply lookup_ge_None in Hk. lia.
Qed.

End Delivery.

(** *** Consistency is kept by every call *)




Section Calls.
Variable behaviour : HandlerId -> EventData -> World -> Completion.
Hypothesis Hkeep : keeps_store behaviour.







End Calls.


Lemma sampleBehaviour_keeps_store : keeps_store sampleBehaviour.
Proof. intros [|[|h]] d w; done. Qed.

Lemma sampleBehaviour_keeps_listeners : keeps_listeners sampleBehaviour.
Proof. intros [|[|h]] d w; done. Qed.

End OverlayStoreFacts.

Section OverlayStoreClaims.
Import OverlayStore.



(** Without unique ids the projection drifts: two records added under
    the same id leave a further entry at every later sync. *)
Example duplicate_ids_multiply_entries :
  let w := run_ops sampleBehaviour
             [OpAdd (sampleOverlay "a" 1 1) "g"; OpAdd (sampleOverlay "a" 2 2) "g";
              OpRemove "other"] initialWorld in
  length (overlays w) = 2%nat
  /\ (length <$> projectOverlays w) = Some 3%nat.
Proof. vm_compute. done. Qed.

(** C8.  Listener exception isolation.  [emit] never ends by an
    exception.  With subscribers that do not touch the registry during
    delivery, every registered subscriber is run exactly once, in
    registration order, whether or not an earlier one threw; a thrown
    exception is replaced by one error line in the console.  With
    subscribers that leave the records alone, the records and the
    projection after [emit] are those before it. *)
Theorem emit_isolates_listener_exceptions
        (behaviour : HandlerId -> EventData -> World -> Completion)
        (event : string) (data : EventData) (w : World) :
  is_normal (emit behaviour event data w) = true
  /\ (keeps_listeners behaviour ->
      forall hs, eventListeners w !! event = Some hs ->
        emit behaviour event data w
        = Normal (log (EventEmitted event)
                      (fold_left (delivered behaviour event data) hs w)))
  /\ (keeps_store behaviour ->
      overlays (world_of (emit behaviour event data w)) = overlays w
      /\ projectOverlays (world_of (emit behaviour event data w)) = projectOverlays w).
Proof.
  split; [apply emit_normal|]. split.
  - intros Hkeep hs Hhs. unfold emit. rewrite Hhs.
    rewrite (forEach_all behaviour event data Hkeep (length hs) 0 w).
    + unfold listenersOf. rewrite Hhs. simpl. by rewrite drop_0.
    + unfold listenersOf. by rewrite Hhs.
  - intros Hkeep. split.
    + apply (emit_frame behaviour overlays); [done|apply Hkeep].
    + apply (emit_frame behaviour projectOverlays); [done|apply Hkeep].
Qed.

Lemma emit_isolates_listener_exceptions_witness :
  emit sampleBehaviour "overlayUpdated" sampleEvent sampleListening
  = Normal (log (EventEmitted "overlayUpdated")
                (fold_left (delivered sampleBehaviour "overlayUpdated" sampleEvent)
                           [0; 1] sampleListening))
  /\ overlays (world_of (emit sampleBehaviour "overlayUpdated" sampleEvent sampleListening))
     = overlays sampleListening.
Proof.
  destruct (emit_isolates_listener_exceptions
              sampleBehaviour "overlayUpdated" sampleEvent sampleListening)
    as (_ & Hall & Hstore).
  split.
  - apply Hall; [exact sampleBehaviour_keeps_listeners|]. vm_compute. reflexivity.
  - apply Hstore. exact sampleBehaviour_keeps_store.
Defined.

(** C10.  [clear()] empties the records and resets [activeOverlay] and
    [videoState]; it runs no projection sync and emits no event: the
    project's overlay array, the listener registry and the object
    counter are what they were, and the console gains the single line
    of [clear] itself. *)
Theorem clear_leaves_projection (w : World) :
  overlays (clear w) = []
  /\ activeOverlay (clear w) = None
  /\ videoState (clear w) = initialVideoState
  /\ projectOverlays (clear w) = projectOverlays w
  /\ nextObj (clear w) = nextObj w
  /\ eventListeners (clear w) = eventListeners w
  /\ console (clear w) = console w ++ [StateCleared].
Proof. unfold clear. simpl. repeat split. Qed.

End OverlayStoreClaims.

(** ** Visual state manager *)

Section VisualStateFacts.
Import VisualState.

Lemma get_assign (cur inc : gmap string JsVal) k v :
  inc !! k = Some v -> get (assign cur inc) k = v.
Proof.
  intros Hk. unfold get, assign. by rewrite (lookup_union_Some_l inc cur k v Hk).
Qed.

Lemma hasObjectChanged_false (cur inc : gmap string JsVal) :
  (forall k v, inc !! k = Some v -> strict_eq (get cur k) v = true) ->
  hasObjectChanged cur inc = false.
Proof.
  intros Hall. unfold hasObjectChanged.
  apply not_true_is_false. intros Hex. apply existsb_exists in Hex as ([k v] & Hin & Hneq).
  apply list_elem_of_In, elem_of_map_to_list in Hin. simpl in Hneq.
  by rewrite (Hall k v Hin) in Hneq.
Qed.

Lemma hasObjectChanged_assign (cur inc : gmap string JsVal) :
  object_self_equal (Some inc) = true ->
  hasObjectChanged (assign cur inc) inc = false.
Proof.
  intros Hself. apply hasObjectChanged_false. intros k v Hk.
  rewrite (get_assign cur inc k v Hk). simpl in Hself.
  rewrite forallb_forall in Hself. apply (Hself (k, v)).
  by apply list_elem_of_In, elem_of_map_to_list.
Qed.

Lemma add_console_nil m : add_console [] m = m.
Proof. destruct m. unfold add_console. simpl. by rewrite app_nil_r. Qed.

Lemma add_applied_nil m : add_applied [] m = m.
Proof. destruct m. unfold add_applied. simpl. by rewrite app_nil_r. Qed.

Section Guarded.
Variable react : SectionName -> list Reaction.

(** A call of [setState] while the guard is up is dropped. *)
Lemma setState_fuel_dropped fuel u b m :
  isApplyingState m = true ->
  setState_fuel react (S fuel) u b m = dropped u b m.
Proof. intros Hflag. simpl. by rewrite Hflag. Qed.

Lemma run_reactions_dropped fuel rs : forall m,
  isApplyingState m = true ->
  run_reactions (setState_fuel react (S fuel)) rs m = run_reactions dropped rs m.
Proof.
  induction rs as [|[u b|e] rs IH]; intros m Hflag; [done| |done].
  cbn [run_reactions]. rewrite setState_fuel_dropped by done.
  unfold dropped. by apply IH.
Qed.

(** With dropped calls, the reactions only add warnings to the console. *)
Lemma run_reactions_console rs : forall m,
  exists c,
    (run_reactions dropped rs m = Done (add_console c m) /\ forallb is_call rs = true)
    \/ (exists e, run_reactions dropped rs m = Raised e (add_console c m)
                  /\ forallb is_call rs = false).
Proof.
  induction rs as [|[u b|e] rs IH]; intros m.
  - exists []. left. by rewrite add_console_nil.
  - cbn [run_reactions]. unfold dropped.
    destruct (IH (log WarnSetStateWhileApplying m)) as [c H].
    exists (WarnSetStateWhileApplying :: c).
    assert (Heq : add_console c (log WarnSetStateWhileApplying m)
                  = add_console (WarnSetStateWhileApplying :: c) m).
    { unfold add_console, log. simpl. by rewrite <- app_assoc. }
    rewrite Heq in H. destruct H as [[H1 H2]|(e & H1 & H2)]; [left|right; exists e]; done.
  - exists []. right. exists e. by rewrite add_console_nil.
Qed.

Lemma apply_section_console sec m :
  exists c,
    (apply_section react dropped sec m = Done (add_console c (add_applied [sec] m))
     /\ forallb is_call (react sec) = true)
    \/ (exists e, apply_section react dropped sec m
                  = Raised e (add_console c (add_applied [sec] m))
                  /\ forallb is_call (react sec) = false).
Proof. unfold apply_section. apply (run_reactions_console (react sec)). Qed.

(** What a pass over the dirty sections leaves behind: the apply
    functions called, and console lines. *)
Lemma apply_dirty_console secs : forall m,
  exists c done_,
    (apply_dirty react dropped secs m = Done (add_console c (add_applied done_ m))
     \/ exists e, apply_dirty react dropped secs m
                  = Raised e (add_console c (add_applied done_ m)))
    /\ (never_throws react ->
        apply_dirty react dropped secs m = Done (add_console c (add_applied done_ m))
        /\ done_ = filter (fun sec => is_dirty sec m) secs).
Proof.
  induction secs as [|sec secs IH]; intros m.
  - exists [], []. rewrite add_applied_nil, add_console_nil. split; [by left|done].
  - cbn [apply_dirty]. destruct (is_dirty sec m) eqn:Hd.
    + destruct (apply_section_console sec m) as [c [[H1 H2]|(e & H1 & H2)]].
      * rewrite H1.
        destruct (IH (add_console c (add_applied [sec] m))) as (c' & d' & Hres & Hnt).
        exists (c ++ c'), (sec :: d').
        assert (Heq : add_console c' (add_applied d' (add_console c (add_applied [sec] m)))
                      = add_console (c ++ c') (add_applied (sec :: d') m)).
        { unfold add_console, add_applied. simpl. by rewrite <- !app_assoc. }
        rewrite Heq in Hres, Hnt. split; [done|].
        intros Hn. destruct (Hnt Hn) as [Ha Hb]. split; [done|].
        rewrite filter_cons_True by (by rewrite Hd). by rewrite Hb.
      * rewrite H1. exists c, [sec]. split; [right; by exists e|].
        intros Hn. by rewrite (Hn sec) in H2.
    + destruct (IH m) as (c' & d' & Hres & Hnt). exists c', d'. split; [done|].
      intros Hn. destruct (Hnt Hn) as [Ha Hb]. split; [done|].
      rewrite filter_cons_False by (rewrite Hd; by intros []). done.
Qed.

Lemma apply_dirty_dropped fuel secs : forall m,
  isApplyingState m = true ->
  apply_dirty react (setState_fuel react (S fuel)) secs m
  = apply_dirty react dropped secs m.
Proof.
  induction secs as [|sec secs IH]; intros m Hflag; [done|].
  cbn [apply_dirty]. destruct (is_dirty sec m); [|by apply IH].
  unfold apply_section. rewrite run_reactions_dropped by done.
  destruct (apply_section_console sec m) as [c [[H1 _]|(e & H1 & _)]];
    unfold apply_section in H1; rewrite H1; [|done].
  by apply IH.
Qed.

(** Inside [applyState], every nested [setState] is a dropped one. *)
Lemma applyState_with_dropped fuel m :
  applyState_with react (setState_fuel react (S fuel)) m
  = applyState_with react dropped m.
Proof.
  unfold applyState_with. destruct (isApplyingState m); [done|].
  by rewrite apply_dirty_dropped.
Qed.

Lemma setState_fuel_unfold fuel u b m :
  setState_fuel react (S fuel) u b m
  = if isApplyingState m then Done (log WarnSetStateWhileApplying m)
    else if negb (detectChanges u m).1 then Done (count_skipped (detectChanges u m).2)
    else if b then Done (scheduleBatchUpdate (updateState u (detectChanges u m).2))
    else applyState_with react (setState_fuel react fuel)
                         (updateState u (detectChanges u m).2).
Proof.
  cbn [setState_fuel]. destruct (isApplyingState m); [done|].
  by destruct (detectChanges u m) as [has m1].
Qed.

(** Two levels of fuel are enough. *)
Lemma setState_fuel_enough n u b m :
  setState_fuel react (2 + n) u b m = setState react u b m.
Proof.
  unfold setState. change (2 + n) with (S (S n)).
  rewrite !setState_fuel_unfold. by rewrite !applyState_with_dropped.
Qed.

(** The two ways [applyState] ends when it is entered with the guard
    down. *)
Lemma applyState_outcome m :
  isApplyingState m = false ->
  exists c done_,
    let body := add_console c (add_applied done_ (count_update (set_applying true m))) in
    (applyState react m = Done (set_applying false (resetDirtyFlags body))
     \/ exists e, applyState react m = Raised e (set_applying false body))
    /\ (never_throws react ->
        applyState react m = Done (set_applying false (resetDirtyFlags body))
        /\ done_ = filter (fun sec => is_dirty sec m) applyOrder).
Proof.
  intros Hflag. unfold applyState. rewrite applyState_with_dropped.
  unfold applyState_with. rewrite Hflag.
  destruct (apply_dirty_console applyOrder (count_update (set_applying true m)))
    as (c & d & Hres & Hnt).
  exists c, d. cbn zeta. split.
  - destruct Hres as [->|[e ->]]; [by left|right; by exists e].
  - intros Hn. destruct (Hnt Hn) as [-> ->]. done.
Qed.

Lemma detectChanges_sections u m : sections (detectChanges u m).2 = sections m.
Proof. reflexivity. Qed.

Lemma detectChanges_frame u m :
  let m' := (detectChanges u m).2 in
  updateCount m' = updateCount m /\ skippedUpdates m' = skippedUpdates m
  /\ applied m' = applied m /\ pendingFrames m' = pendingFrames m
  /\ batchUpdatePending m' = batchUpdatePending m
  /\ isApplyingState m' = isApplyingState m /\ console m' = console m.
Proof. repeat split. Qed.

Lemma detect_object_unchanged cur inc setFlag acc :
  object_self_equal inc = true ->
  (detect_object inc (assign_opt cur inc) setFlag acc).1 = acc.1.
Proof.
  destruct inc as [o|]; [|done]. intros Hself. simpl.
  by rewrite hasObjectChanged_assign.
Qed.

(** After the payload has been merged into the state, the same
    payload shows no change. *)
Lemma detectChanges_after_update u m m1 :
  diffable u = true ->
  sections m1 = sections (updateState u m) ->
  (detectChanges u m1).1 = false.
Proof.
  intros Hd Hs. unfold diffable in Hd.
  repeat (apply andb_prop in Hd as [Hd ?]).
  repeat match goal with H : bool_decide _ = true |- _ =>
                           apply bool_decide_eq_true in H end.
  unfold sections, updateState in Hs. simpl in Hs.
  injection Hs as Hp Hg Hsel Ht Hb _ _.
  unfold detectChanges, detect_all. cbn [fst].
  rewrite Hp, Hg, Hsel, Ht, Hb.
  replace (u_overlays u) with (@None (gmap string (gmap string JsVal))) by done.
  replace (u_markers u) with (@None (gmap string (gmap string JsVal))) by done.
  cbn [detect_map]. by rewrite !detect_object_unchanged.
Qed.

Lemma detect_map_present u m :
  u_markers u <> None \/ u_overlays u <> None -> (detectChanges u m).1 = true.
Proof.
  intros Hmaps. unfold detectChanges, detect_all. cbn [fst].
  destruct (u_overlays u); [done|]. destruct (u_markers u); [done|].
  by destruct Hmaps.
Qed.

End Guarded.

Lemma quietPage_never_throws : never_throws quietPage.
Proof. by intros []. Qed.

Lemma callingPage_never_throws : never_throws callingPage.
Proof. by intros []. Qed.

End VisualStateFacts.

Section VisualStateClaims.
Import VisualState.

(** C3.  Re-entrancy guard.  (1) A [setState] that arrives while
    [applyState] is in progress is dropped: it returns at once, the
    only trace being a console warning, so sections, dirty flags and
    counters are untouched.  (2) [applyState] entered with the guard
    down always ends, normally or by an exception of an apply step,
    with the guard down again; whatever the page called back, the
    sections are those it started with.  (3) When no apply step
    throws, a later independent [setState] that changes something is
    applied in one pass over exactly the sections it marked, and
    leaves all flags clean. *)
Theorem reentrancy_guard (react : SectionName -> list Reaction) :
  (forall fuel u b m,
      isApplyingState m = true ->
      setState_fuel react (S fuel) u b m = Done (log WarnSetStateWhileApplying m))
  /\ (forall m,
        isApplyingState m = true ->
        applyState react m = Done (log WarnApplyWhileApplying m))
  /\ (forall m,
        isApplyingState m = false ->
        (exists m', applyState react m = Done m'
                    /\ isApplyingState m' = false /\ dirtyFlags m' = allClean
                    /\ sections m' = sections m
                    /\ updateCount m' = S (updateCount m))
        \/ (exists e m', applyState react m = Raised e m'
                         /\ isApplyingState m' = false
                         /\ dirtyFlags m' = dirtyFlags m
                         /\ sections m' = sections m))
  /\ (never_throws react ->
      forall u m,
        isApplyingState m = false -> (detectChanges u m).1 = true ->
        exists m', setState react u false m = Done m'
                   /\ applied m' = applied m ++ changed_sections u m
                   /\ sections m' = sections (updateState u m)
                   /\ dirtyFlags m' = allClean /\ isApplyingState m' = false
                   /\ updateCount m' = S (updateCount m)
                   /\ skippedUpdates m' = skippedUpdates m).
Proof.
  split; [|split; [|split]].
  - intros fuel u b m Hflag. by rewrite setState_fuel_dropped.
  - intros m Hflag. unfold applyState, applyState_with. by rewrite Hflag.
  - intros m Hflag.
    destruct (applyState_outcome react m Hflag) as (c & d & [Hdone|[e Hraised]] & _).
    + left. eexists. split; [exact Hdone|]. done.
    + right. eexists e, _. split; [exact Hraised|]. done.
  - intros Hn u m Hflag Hchg. unfold setState.
    rewrite setState_fuel_unfold, Hflag, Hchg. cbn [negb].
    destruct (detectChanges_frame u m) as (Hu & Hsk & Ha & Hp & Hb & Hf & Hc).
    set (m2 := updateState u (detectChanges u m).2).
    assert (Hflag2 : isApplyingState m2 = false) by (subst m2; simpl; congruence).
    destruct (applyState_outcome react m2 Hflag2) as (c & d & _ & Hnt).
    destruct (Hnt Hn) as [Hdone ->]. unfold applyState in Hdone.
    eexists. split; [exact Hdone|]. subst m2. repeat split.
Qed.

Lemma reentrancy_guard_witness :
  setState_fuel throwingPage 1 progressPayload false (set_applying true initialManager)
    = Done (log WarnSetStateWhileApplying (set_applying true initialManager))
  /\ applyState throwingPage (set_applying true initialManager)
     = Done (log WarnApplyWhileApplying (set_applying true initialManager))
  /\ ((exists m', applyState throwingPage sampleDirty = Done m'
                  /\ isApplyingState m' = false /\ dirtyFlags m' = allClean
                  /\ sections m' = sections sampleDirty
                  /\ updateCount m' = S (updateCount sampleDirty))
      \/ (exists e m', applyState throwingPage sampleDirty = Raised e m'
                       /\ isApplyingState m' = false
                       /\ dirtyFlags m' = dirtyFlags sampleDirty
                       /\ sections m' = sections sampleDirty))
  /\ exists m', setState callingPage playheadPayload false initialManager = Done m'
                /\ applied m' = applied initialManager
                                ++ changed_sections playheadPayload initialManager
                /\ sections m' = sections (updateState playheadPayload initialManager)
                /\ dirtyFlags m' = allClean /\ isApplyingState m' = false
                /\ updateCount m' = S (updateCount initialManager)
                /\ skippedUpdates m' = skippedUpdates initialManager.
Proof.
  destruct (reentrancy_guard throwingPage) as (Hdrop & Hguard & Hrelease & _).
  split; [|split; [|split]].
  - apply Hdrop. reflexivity.
  - apply Hguard. reflexivity.
  - apply Hrelease. reflexivity.
  - apply (proj2 (proj2 (proj2 (reentrancy_guard callingPage)))).
    + exact callingPage_never_throws.
    + reflexivity.
    + vm_compute. reflexivity.
Defined.

(** On the page whose playhead step calls back and then throws, the
    pass over a dirty playhead ends by the exception, the guard is
    down, and the nested call has left one warning. *)
Example applyState_releases_after_throw :
  exists m', applyState throwingPage sampleDirty = Raised "apply step failed" m'
             /\ isApplyingState m' = false
             /\ console m' = [WarnSetStateWhileApplying]
             /\ applied m' = [Playhead].
Proof. eexists. split; [vm_compute; reflexivity|]. done. Qed.

(** C4, as the specification words it, fails for a payload with a markers
    map: the map is not diffed, so the second identical call is
    applied again and the skipped counter does not move. *)
Lemma setState_markers_payload_not_skipped :
  let m1 := manager_of (setState quietPage markersPayload false initialManager)
                       initialManager in
  let m2 := manager_of (setState quietPage markersPayload false m1) m1 in
  ~ (updateCount m2 = S (updateCount initialManager)
     /\ skippedUpdates m2 = S (skippedUpdates initialManager)).
Proof. vm_compute. intros [H _]. discriminate H. Qed.

(** C4, amended.  The five object sections are diffed key by key with
    [!==]; a markers map or an overlays map is never diffed, its mere
    presence marks the section dirty.  For a payload of object
    sections only whose values equal themselves (no [NaN]) and that
    changes the current state, a synchronous [setState] runs one
    render pass, and the same payload again, batched or not, is
    skipped: no pass, no frame requested, sections unchanged, and the
    skipped counter goes up by exactly one. *)
Theorem setState_identical_payload_skipped
        (react : SectionName -> list Reaction) (u : Updates) (m : Manager) (b : bool) :
  isApplyingState m = false ->
  diffable u = true ->
  (detectChanges u m).1 = true ->
  let first := setState react u false m in
  let m1 := manager_of first m in
  let m2 := count_skipped (detectChanges u m1).2 in
  first <> OutOfFuel
  /\ updateCount m1 = S (updateCount m)
  /\ skippedUpdates m1 = skippedUpdates m
  /\ setState react u b m1 = Done m2
  /\ updateCount m2 = updateCount m1
  /\ skippedUpdates m2 = S (skippedUpdates m1)
  /\ applied m2 = applied m1
  /\ pendingFrames m2 = pendingFrames m1
  /\ sections m2 = sections m1
  /\ (forall u' m', u_markers u' <> None \/ u_overlays u' <> None ->
                    (detectChanges u' m').1 = true).
Proof.
  intros Hflag Hd Hchg first m1 m2.
  destruct (detectChanges_frame u m) as (Hu & Hsk & Ha & Hp & Hb & Hf & Hc).
  pose proof (detectChanges_sections u m) as Hs.
  set (mu := updateState u (detectChanges u m).2).
  assert (Hflagu : isApplyingState mu = false) by (subst mu; simpl; congruence).
  assert (Hfirst : first = applyState react mu).
  { subst first. unfold setState. by rewrite setState_fuel_unfold, Hflag, Hchg. }
  assert (Hm1 : first <> OutOfFuel /\ updateCount m1 = S (updateCount m)
                /\ skippedUpdates m1 = skippedUpdates m
                /\ isApplyingState m1 = false /\ sections m1 = sections (updateState u m)).
  { subst m1. rewrite Hfirst.
    destruct (applyState_outcome react mu Hflagu) as (c & d & [Hdone|[e Hraised]] & _).
    - rewrite Hdone. subst mu. repeat split. done.
    - rewrite Hraised. subst mu. repeat split. done. }
  destruct Hm1 as (Hne & Hcnt & Hskip & Hflag1 & Hsec1).
  assert (Hno : (detectChanges u m1).1 = false)
    by (by apply (detectChanges_after_update u m m1)).
  destruct (detectChanges_frame u m1) as (Hu1 & Hsk1 & Ha1 & Hp1 & Hb1 & Hf1 & Hc1).
  repeat split; try done.
  - unfold setState. by rewrite setState_fuel_unfold, Hflag1, Hno.
  - intros u' m'. apply detect_map_present.
Qed.

Lemma setState_identical_payload_skipped_witness :
  let first := setState callingPage playheadPayload false initialManager in
  let m1 := manager_of first initialManager in
  let m2 := count_skipped (detectChanges playheadPayload m1).2 in
  first <> OutOfFuel
  /\ updateCount m1 = S (updateCount initialManager)
  /\ skippedUpdates m1 = skippedUpdates initialManager
  /\ setState callingPage playheadPayload true m1 = Done m2
  /\ updateCount m2 = updateCount m1
  /\ skippedUpdates m2 = S (skippedUpdates m1)
  /\ applied m2 = applied m1
  /\ pendingFrames m2 = pendingFrames m1
  /\ sections m2 = sections m1
  /\ (forall u' m', u_markers u' <> None \/ u_overlays u' <> None ->
                    (detectChanges u' m').1 = true).
Proof.
  apply (setState_identical_payload_skipped callingPage playheadPayload initialManager true).
  - reflexivity.
  - vm_compute. reflexivity.
  - vm_compute. reflexivity.
Defined.

(** A [NaN] value is never equal to the state it was merged into, so a
    payload carrying one is applied on every call. *)
Example setState_nan_payload_not_skipped :
  let m1 := manager_of (setState quietPage nanPayload false initialManager)
                       initialManager in
  let m2 := manager_of (setState quietPage nanPayload false m1) m1 in
  updateCount m2 = 2 /\ skippedUpdates m2 = 0.
Proof. vm_compute. done. Qed.

(** In batch mode the skip also clears the dirty flag that the pending
    frame was to apply: a batched call followed by the same payload
    before the frame runs leaves the frame with nothing to apply. *)
Example batched_then_identical_payload_applies_nothing :
  let m1 := manager_of (setState quietPage playheadPayload true initialManager)
                       initialManager in
  let m2 := manager_of (setState quietPage playheadPayload true m1) m1 in
  let m3 := manager_of (runAnimationFrame quietPage m2) m2 in
  pendingFrames m1 = 1%nat /\ d_playhead (dirtyFlags m1) = true
  /\ skippedUpdates m2 = 1%nat /\ d_playhead (dirtyFlags m2) = false
  /\ applied m3 = [] /\ get (playhead m3) "position" = VNum 50.
Proof. vm_compute. done. Qed.

(** A payload equal to the current state is skipped on the first call
    already. *)
Example setState_unchanged_payload_skipped_at_once :
  let u := mkUpdates (Some {[ "position" := VNum 0 ]}) None None None None None None in
  let m1 := manager_of (setState quietPage u false initialManager) initialManager in
  updateCount m1 = 0 /\ skippedUpdates m1 = 1.
Proof. vm_compute. done. Qed.

End VisualStateClaims.

(** ** Trim selection *)

Section TrimClaims.
Import Trim.


Lemma Qltb_ge a b : Qltb a b = false <-> (b <= a)%Q.
Proof.
  unfold Qltb. rewrite negb_false_iff. apply Qle_bool_iff.
Qed.





(** Scenario: on a 100 s video, a double click at 20% and a click at
    50% select 20 s to 50 s, and the cut issues one trim request. *)
Example cut_sample_selection :
  match cut sampleCutEnv sampleSelection with
  | [HideTimeline; TrimVideo path (Some st) (Some en)] =>
      path = "/videos/in.mp4" /\ (st == 20)%Q /\ (en == 50)%Q
  | _ => False
  end.
Proof. vm_compute. done. Qed.

End TrimClaims.

(** ** Selected overlay *)

Section SelectionSyncClaims.
Import Timeline.








(** For an element that has left the document the in-memory reference
    is not trusted: [getValidatedSelectedOverlay] does not return it. *)
Example detached_selection_not_returned :
  let detached :=
    mkElement {[ "overlay-segment" ]} false 10 10 "gone" "Overlay 2" 10 10 0 in
  let pg := set_dom [detached] samplePage in
  (getValidatedSelectedOverlay (syncSelectedOverlayStates (Some 0%nat) pg)).1 = None.
Proof. vm_compute. reflexivity. Qed.

End SelectionSyncClaims.

(** ** Drag and resize *)

Section DragResizeClaims.
Import Timeline.
Local Open Scope Q_scope.

Ltac qminmax :=
  repeat match goal with
         | |- context [Qmax ?a ?b] =>
             let m := fresh "m" in
             let H := fresh "Hm" in
             pose proof (Q.max_spec a b) as H; set (m := Qmax a b) in *; clearbody m
         | |- context [Qmin ?a ?b] =>
             let m := fresh "m" in
             let H := fresh "Hm" in
             pose proof (Q.min_spec a b) as H; set (m := Qmin a b) in *; clearbody m
         | _ : context [Qmax ?a ?b] |- _ =>
             let m := fresh "m" in
             let H := fresh "Hm" in
             pose proof (Q.max_spec a b) as H; set (m := Qmax a b) in *; clearbody m
         | _ : context [Qmin ?a ?b] |- _ =>
             let m := fresh "m" in
             let H := fresh "Hm" in
             pose proof (Q.min_spec a b) as H; set (m := Qmin a b) in *; clearbody m
         end.

(** A pointer move keeps the left edge on the track, whatever the
    width of the element. *)
Lemma movedPosition_range l d : 0 <= movedPosition l d /\ movedPosition l d <= 100.
Proof. unfold movedPosition. qminmax. lra. Qed.



Lemma updateStore_tl behaviour id data pg : tl (updateStore behaviour id data pg) = tl pg.
Proof. unfold updateStore. by case_decide. Qed.

Lemma Qle_bool_false a b : a < b -> Qle_bool b a = false.
Proof.
  intros Hlt. apply not_true_is_false. intros Hle. apply Qle_bool_iff in Hle.
  apply (Qlt_not_le _ _ Hlt Hle).
Qed.





(** C1.  The pointer move breaks the clamping of the specification.
    An overlay drawn at 50% with a width of 20%, grabbed at x = 100 px
    and moved to x = 700 px on a track of 1000 px, ends at left = 100%,
    beyond [100 - width = 80]; the store receives a start time of 100 s
    for a 20 s overlay on a 100 s video.  The keyboard move, which
    clamps with the width, stops such an overlay drawn at 78% at 80%. *)
Theorem pointer_move_overshoots_track :
  let moved := handleAdvancedMouseMove quiet 700 1000 sampleGrabbed in
  (exists el o,
      dom moved !! 0%nat = Some el
      /\ el_left el == 100 /\ el_width el == 20
      /\ ~ (el_left el <= 100 - el_width el)
      /\ OverlayStore.getOverlay "a" (world moved) = Some o
      /\ OverlayStore.ov_startTime o == 100
      /\ ~ (OverlayStore.ov_startTime o + OverlayStore.ov_duration o <= 100))
  /\ (exists el,
        dom (moveSelectedOverlay quiet DirRight true sampleSelectedPage) !! 0%nat = Some el
        /\ el_left el == 80 /\ el_width el == 20).
Proof.
  split.
  - eexists _, _. split; [vm_compute; reflexivity|].
    split; [reflexivity|]. split; [reflexivity|]. split; [intros H; vm_compute in H; done|].
    split; [vm_compute; reflexivity|]. split; [reflexivity|].
    intros H. vm_compute in H. done.
  - eexists. split; [vm_compute; reflexivity|]. split; reflexivity.
Qed.

(** Once a move has pushed the segment past [100 - width], a resize from
    the right edge puts the right edge outside the track. *)
Example resize_after_overshoot_leaves_track :
  let moved := handleAdvancedMouseUp quiet
                 (handleAdvancedMouseMove quiet 700 1000 sampleGrabbed) in
  let resized := handleAdvancedMouseMove quiet 0 1000
                   (startOverlayInteraction 0 ResizeRight 0 moved) in
  exists el, dom resized !! 0%nat = Some el
             /\ el_left el == 100 /\ el_width el == 1
             /\ ~ (el_left el + el_width el <= 100).
Proof.
  eexists. split; [vm_compute; reflexivity|]. split; [reflexivity|].
  split; [reflexivity|]. intros H. vm_compute in H. done.
Qed.

Lemma syncWithProject_overlays w :
  OverlayStore.overlays (OverlayStore.syncWithProject w) = OverlayStore.overlays w.
Proof.
  unfold OverlayStore.syncWithProject.
  destruct (OverlayStore.projectOverlays w) as [proj|]; [|done].
  by destruct (fold_left _ _ _) as [[m p1] n].
Qed.

(** What [updateOverlay] leaves in the records when the id is found. *)
Lemma updateOverlay_overlays behaviour id data w k o :
  OverlayStore.keeps_store behaviour ->
  list_find (fun o => OverlayStore.ov_id o = id) (OverlayStore.overlays w) = Some (k, o) ->
  OverlayStore.overlays (OverlayStore.world_of (OverlayStore.updateOverlay behaviour id data w))
  = <[k := OverlayStore.assign o data]> (OverlayStore.overlays w).
Proof.
  intros Hkeep Hfind. unfold OverlayStore.updateOverlay. rewrite Hfind.
  rewrite (emit_frame behaviour OverlayStore.overlays); [|done|apply Hkeep].
  simpl. by rewrite syncWithProject_overlays.
Qed.

(** C6, as the specification words it, fails: the sample overlay starts at
    50 s; grabbed, moved by 100 px on a track of 1000 px and then left
    with Escape, it starts at 60 s in the store. *)
Lemma escape_keeps_dragged_position :
  let moved := handleAdvancedMouseMove quiet 200 1000 sampleGrabbed in
  let cancelled := pressEscape false moved in
  exists before after,
    OverlayStore.getOverlay "a" (world samplePage) = Some before
    /\ OverlayStore.getOverlay "a" (world cancelled) = Some after
    /\ OverlayStore.ov_startTime before == 50
    /\ OverlayStore.ov_startTime after == 60
    /\ ~ (OverlayStore.ov_startTime after == OverlayStore.ov_startTime before).
Proof.
  eexists _, _. split; [vm_compute; reflexivity|]. split; [vm_compute; reflexivity|].
  split; [reflexivity|]. split; [reflexivity|]. intros H. vm_compute in H. discriminate H.
Qed.

(** C6, amended.  A drag or resize has no Escape cancellation.  Escape
    is handled by the trim selection only: it leaves the overlay store,
    the elements and the drag state as they are.  A pointer move of an
    overlay interaction (move, resize-left or resize-right) writes to
    the store at once, so the store after a move, followed by Escape or
    not, holds what that move wrote. *)
Theorem escape_keeps_drag_writes
        (behaviour : OverlayStore.HandlerId -> OverlayStore.EventData -> OverlayStore.World
                     -> OverlayStore.Completion)
        (targetIsInput : bool) (clientX trackWidth : Q) (pg : Page)
        (interaction : InteractionType)
        (i k : nat) (el : Element) (o : OverlayStore.Overlay) :
  OverlayStore.keeps_store behaviour ->
  ds_isDragging (dragState (tl pg)) = true ->
  ds_isDraggingPlayhead (dragState (tl pg)) = false ->
  ds_element (dragState (tl pg)) = Some i ->
  ds_interactionType (dragState (tl pg)) = Some interaction ->
  dom pg !! i = Some el ->
  has_class "marker-item" el = false -> has_class "overlay-segment" el = true ->
  0 < trackWidth ->
  el_data_id el <> "" ->
  list_find (fun o => OverlayStore.ov_id o = el_data_id el) (OverlayStore.overlays (world pg))
  = Some (k, o) ->
  let moved := handleAdvancedMouseMove behaviour clientX trackWidth pg in
  let deltaPercent := (clientX - ds_initialX (dragState (tl pg))) / trackWidth * 100 in
  OverlayStore.overlays (world moved)
  = <[k := OverlayStore.assign o (writtenPatch interaction pg deltaPercent)]>
      (OverlayStore.overlays (world pg))
  /\ world (pressEscape targetIsInput moved) = world moved
  /\ dom (pressEscape targetIsInput moved) = dom moved
  /\ tl (pressEscape targetIsInput moved) = tl moved.
Proof.
  intros Hkeep Hdrag Hph Hi Hint Hel Hmk Hseg Htw Hid Hfind moved deltaPercent.
  split.
  - subst moved. unfold handleAdvancedMouseMove.
    rewrite Hdrag, Hph, (Qle_bool_false _ _ Htw), Hi, Hel, Hmk, Hseg, Hint. simpl.
    fold deltaPercent.
    destruct interaction; unfold writtenPatch.
    + unfold updateStore. rewrite decide_False by done. simpl.
      by apply updateOverlay_overlays.
    + unfold handleOverlayResize.
      rewrite Hi, Hel, Hseg, (Qle_bool_false _ _ Htw). simpl.
      unfold updateStore. rewrite decide_False by done. simpl.
      by apply updateOverlay_overlays.
    + unfold handleOverlayResize.
      rewrite Hi, Hel, Hseg, (Qle_bool_false _ _ Htw). simpl.
      unfold updateStore. rewrite decide_False by done. simpl.
      by apply updateOverlay_overlays.
  - unfold pressEscape. destruct targetIsInput; [done|].
    by destruct (Trim.isSelectionModeActive (editor moved)).
Qed.

Lemma quiet_keeps_store : OverlayStore.keeps_store quiet.
Proof. by intros h d w. Qed.

Lemma escape_keeps_drag_writes_witness :
  let moved := handleAdvancedMouseMove quiet 200 1000 sampleGrabbed in
  let deltaPercent := (200 - ds_initialX (dragState (tl sampleGrabbed))) / 1000 * 100 in
  OverlayStore.overlays (world moved)
  = <[0%nat := OverlayStore.assign (OverlayStore.sampleOverlay "a" 50 20)
                                   (writtenPatch Move sampleGrabbed deltaPercent)]>
      (OverlayStore.overlays (world sampleGrabbed))
  /\ world (pressEscape false moved) = world moved
  /\ dom (pressEscape false moved) = dom moved
  /\ tl (pressEscape false moved) = tl moved.
Proof.
  apply (escape_keeps_drag_writes quiet false 200 1000 sampleGrabbed Move 0 0
           (classList_add "moving"
              (classList_remove {[ "keyboard-active" ]}
                 (classList_add "dragging" (sampleSegment "a" 50 20 ∅))))
           (OverlayStore.sampleOverlay "a" 50 20)).
  - exact quiet_keeps_store.
  - reflexivity.
  - reflexivity.
  - reflexivity.
  - reflexivity.
  - reflexivity.
  - vm_compute. reflexivity.
  - vm_compute. reflexivity.
  - reflexivity.
  - discriminate.
  - vm_compute. reflexivity.
Defined.

End DragResizeClaims.

(** ** The question list *)

Section QuestionFacts.
Import Js Questions.

Lemma fold_max_ge (l : list Z) : forall a, (a <= fold_left Z.max l a)%Z.
Proof.
  induction l as [|x l IH]; intros a; simpl; [lia|].
  specialize (IH (Z.max a x)). lia.
Qed.

Lemma fold_max_elem (l : list Z) : forall a x, x ∈ l -> (x <= fold_left Z.max l a)%Z.
Proof.
  induction l as [|y l IH]; intros a x Hx; simpl.
  - by apply elem_of_nil in Hx.
  - apply elem_of_cons in Hx as [->|Hx].
    + pose proof (fold_max_ge l (Z.max a y)). lia.
    + by apply IH.
Qed.

(** The next number is above every number in use. *)
Lemma next_number_above (p : Project) (i : Z) :
  i ∈ indexes p -> (i < _getNextQuestionNumber p)%Z.
Proof.
  unfold _getNextQuestionNumber. destruct (indexes p) as [|a rest]; intros Hi.
  - by apply elem_of_nil in Hi.
  - apply elem_of_cons in Hi as [->|Hi].
    + pose proof (fold_max_ge rest a). lia.
    + pose proof (fold_max_elem rest a i Hi). lia.
Qed.

Lemma next_number_fresh (p : Project) : _getNextQuestionNumber p ∉ indexes p.
Proof. intros Hin. apply next_number_above in Hin. lia. Qed.

Lemma normalizeValue_valid (m : gmap string JsNum) (marker : string) :
  marker_invalid (normalizeMarkers m) marker = marker_invalid m marker.
Proof.
  unfold marker_invalid, normalizeMarkers. rewrite lookup_fmap.
  destruct (m !! marker) as [[]|]; reflexivity.
Qed.

Lemma validateQuestion_complete (p : Project) (d : QuestionData) (m : gmap string JsNum) :
  validateQuestion p d = None -> d_markers d = Some m ->
  forall marker, marker ∈ expectedAlternatives (totalAlternatives p) ->
                 marker_invalid m marker = false.
Proof.
  unfold validateQuestion. intros Hv Hm marker Hin.
  destruct (decide (d_video d = "")); [discriminate|].
  rewrite Hm in Hv. destruct (decide (d_correctAnswer d = "")); [discriminate|].
  destruct (List.find _ _) eqn:Hfind; [discriminate|].
  apply list_elem_of_In in Hin.
  pose proof (find_none _ _ Hfind marker Hin) as Hnone. exact Hnone.
Qed.

Lemma validateQuestion_markers (p : Project) (d : QuestionData) :
  validateQuestion p d = None -> is_Some (d_markers d).
Proof.
  unfold validateQuestion. destruct (decide _); [discriminate|].
  destruct (d_markers d); [eauto|discriminate].
Qed.

Lemma addQuestion_Ok v m a p q p' :
  addQuestion v m a p = Ok (q, p') ->
  (length (questions p) < 90)%nat
  /\ q_originalIndex q = _getNextQuestionNumber p
  /\ p' = set_questions (questions p ++ [q]) p
  /\ complete (totalAlternatives p) q.
Proof.
  unfold addQuestion. destruct (decide _) as [|Hlen]; [discriminate|].
  destruct (validateQuestion _ _) eqn:Hv; [discriminate|].
  intros [= <- <-]. split; [lia|]. do 2 (split; [reflexivity|]).
  intros marker Hin. simpl.
  destruct (validateQuestion_markers _ _ Hv) as [m' Hm']. simpl in Hm'. subst m. simpl.
  rewrite normalizeValue_valid.
  by eapply (validateQuestion_complete p _ m' Hv).
Qed.

Lemma indexes_snoc l n b q :
  indexes (mkProject (l ++ [q]) n b) = q_originalIndex <$> l ++ [q].
Proof. reflexivity. Qed.

Lemma well_formed_snoc (p : Project) (q : Question) :
  well_formed p -> (length (questions p) < 90)%nat ->
  q_originalIndex q = _getNextQuestionNumber p ->
  complete (totalAlternatives p) q ->
  well_formed (set_questions (questions p ++ [q]) p).
Proof.
  intros (Hnd & Hlen & Hall) Hlt Hq Hc. repeat split.
  - unfold indexes, set_questions. simpl. rewrite fmap_app. apply NoDup_app.
    split; [exact Hnd|]. split; [|apply NoDup_singleton].
    intros x Hx Hx'. simpl in Hx'. apply list_elem_of_singleton in Hx'. subst x.
    rewrite Hq in Hx. by apply next_number_fresh in Hx.
  - simpl. rewrite length_app. simpl. lia.
  - simpl. intros q' Hq'. apply elem_of_app in Hq' as [Hq'|Hq'].
    + by apply Hall.
    + apply list_elem_of_singleton in Hq'. by subst q'.
Qed.

Lemma addQuestion_well_formed v m a p :
  well_formed p -> well_formed (project_of (addQuestion v m a p) p).
Proof.
  intros Hwf. destruct (addQuestion v m a p) as [[q p']|] eqn:Hadd; [|exact Hwf].
  apply addQuestion_Ok in Hadd as (Hlt & Hq & -> & Hc). simpl.
  by apply well_formed_snoc.
Qed.

Lemma duplicate_well_formed i p :
  well_formed p -> well_formed (duplicateCurrentQuestion i p).2.
Proof.
  intros Hwf. unfold duplicateCurrentQuestion.
  destruct (questionAt i p) as [orig|] eqn:Hat; [|exact Hwf].
  destruct (decide _) as [|Hlen]; [exact Hwf|]. simpl.
  apply well_formed_snoc; [exact Hwf|lia|reflexivity|].
  destruct Hwf as (_ & _ & Hall). unfold questionAt in Hat.
  destruct (decide _); [|discriminate].
  apply list_elem_of_lookup_2 in Hat. exact (Hall _ Hat).
Qed.

Lemma delete_well_formed i p : well_formed p -> well_formed (deleteQuestion i p).2.
Proof.
  intros (Hnd & Hlen & Hall). unfold deleteQuestion.
  destruct (list_find _ _) as [[k q]|] eqn:Hfind; [|by repeat split].
  simpl. repeat split; simpl.
  - eapply sublist_NoDup; [exact Hnd|].
    unfold indexes. apply fmap_sublist, sublist_delete.
  - apply list_find_Some in Hfind as (Hk & _).
    rewrite length_delete; [|eauto]. lia.
  - intros q' Hq'. apply Hall.
    eapply elem_of_sublist; [exact Hq'|apply sublist_delete].
Qed.

Lemma update_well_formed i d p :
  keeps_number (OpUpdate i d) = true ->
  well_formed p -> well_formed (project_of (updateQuestion i d p) p).
Proof.
  intros Hkeep (Hnd & Hlen & Hall). unfold updateQuestion.
  destruct (list_find _ _) as [[k q]|] eqn:Hfind; [|by repeat split].
  destruct (validateQuestion p d) eqn:Hv; [by repeat split|].
  apply list_find_Some in Hfind as (Hk & Hq & _). simpl.
  assert (Hsame : q_originalIndex (assign q d (normalizeMarkers (default ∅ (d_markers d))))
                  = q_originalIndex q).
  { simpl. simpl in Hkeep. destruct (d_originalIndex d) as [j|]; [|reflexivity].
    simpl. apply bool_decide_eq_true in Hkeep. congruence. }
  repeat split; simpl.
  - unfold indexes. simpl. rewrite list_fmap_insert, Hsame.
    rewrite list_insert_id; [exact Hnd|]. by rewrite list_lookup_fmap, Hk.
  - by rewrite length_insert.
  - intros q' Hq'. apply list_elem_of_lookup in Hq' as [j Hj].
    destruct (decide (j = k)) as [->|Hne].
    + rewrite list_lookup_insert_eq in Hj by (by eapply lookup_lt_Some).
      injection Hj as <-. intros marker Hin. simpl.
      destruct (validateQuestion_markers _ _ Hv) as [m' Hm']. rewrite Hm'. simpl.
      rewrite normalizeValue_valid. by eapply validateQuestion_complete.
    + rewrite list_lookup_insert_ne in Hj by done.
      apply Hall. by eapply list_elem_of_lookup_2.
Qed.

Lemma run_op_well_formed op p :
  keeps_number op = true -> well_formed p -> well_formed (run_op p op).
Proof.
  destruct op; simpl run_op; intros Hk Hwf.
  - by apply addQuestion_well_formed.
  - by apply update_well_formed.
  - by apply delete_well_formed.
  - by apply duplicate_well_formed.
Qed.

Lemma Qfloor_ge (n : Z) (x : Q) : (inject_Z n <= x)%Q -> (n <= Qfloor x)%Z.
Proof. intros Hle. rewrite <- (Qfloor_Z n). by apply Qfloor_resp_le. Qed.

Lemma Qfloor_half (n : Z) : Qfloor (inject_Z n + (1 # 2)) = n.
Proof.
  symmetry. apply Z.le_antisymm.
  - apply Qfloor_ge. rewrite <- (Qplus_0_r (inject_Z n)) at 1.
    apply Qplus_le_r. discriminate.
  - apply Z.lt_succ_r. rewrite Zlt_Qlt.
    eapply Qle_lt_trans; [apply Qfloor_le|].
    unfold Z.succ. rewrite inject_Z_plus. apply Qplus_lt_r. reflexivity.
Qed.

Lemma round2_cents (n : Z) : (round2 (inject_Z n / 100) == inject_Z n / 100)%Q.
Proof.
  unfold round2.
  assert (Heq : (inject_Z n / 100 * 100 + (1 # 2) == inject_Z n + (1 # 2))%Q) by field.
  rewrite Heq, Qfloor_half. reflexivity.
Qed.

Lemma round2_near (q : Q) :
  (round2 q - q <= 1 # 200)%Q /\ (q - round2 q <= 1 # 200)%Q.
Proof.
  unfold round2.
  pose proof (Qfloor_le (q * 100 + (1 # 2))) as Hle.
  pose proof (Qlt_floor (q * 100 + (1 # 2))) as Hlt.
  rewrite inject_Z_plus in Hlt.
  set (f := inject_Z (Qfloor (q * 100 + (1 # 2)))) in *. clearbody f.
  assert (Hd : (f / 100 == f * (1 # 100))%Q) by field.
  rewrite Hd. change (inject_Z 1) with 1%Q in Hlt. split; lra.
Qed.

Lemma round2_nonneg (q : Q) : (0 <= q)%Q -> (0 <= round2 q)%Q.
Proof.
  intros Hq. unfold round2.
  assert (H0 : (0 <= Qfloor (q * 100 + (1 # 2)))%Z).
  { apply Qfloor_ge. change (inject_Z 0) with 0%Q. lra. }
  rewrite Zle_Qle in H0. change (inject_Z 0) with 0%Q in H0.
  set (f := inject_Z _) in *. clearbody f.
  assert (Hd : (f / 100 == f * (1 # 100))%Q) by field.
  rewrite Hd. lra.
Qed.

Lemma Qle_bool_comp (a x y : Q) : (x == y)%Q -> Qle_bool a x = Qle_bool a y.
Proof.
  intros Heq. apply Bool.eq_iff_eq_true. rewrite !Qle_bool_iff. by rewrite Heq.
Qed.

Lemma round2_comp (x y : Q) : (x == y)%Q -> round2 x = round2 y.
Proof.
  intros Heq. unfold round2. f_equal. f_equal. apply Qfloor_comp. by rewrite Heq.
Qed.

Lemma toFixed2_comp (x y : Q) : (x == y)%Q -> (toFixed2 x == toFixed2 y)%Q.
Proof.
  intros Heq. unfold toFixed2.
  rewrite (Qle_bool_comp _ (Qabs x) (Qabs y)) by (by rewrite Heq).
  rewrite (Qle_bool_comp _ x y Heq).
  destruct (Qle_bool _ _); [exact Heq|].
  destruct (Qle_bool _ _).
  - by rewrite (round2_comp x y Heq).
  - rewrite (round2_comp (- x) (- y)) by (by rewrite Heq). reflexivity.
Qed.

(** A whole number of hundredths is left as it is. *)
Lemma toFixed2_cents (n : Z) : (toFixed2 (inject_Z n / 100) == inject_Z n / 100)%Q.
Proof.
  unfold toFixed2. destruct (Qle_bool _ _); [reflexivity|].
  destruct (Qle_bool 0 _); [apply round2_cents|].
  assert (Hopp : (- (inject_Z n / 100) == inject_Z (- n) / 100)%Q)
    by (rewrite inject_Z_opp; field).
  rewrite (round2_comp _ _ Hopp), round2_cents, inject_Z_opp. field.
Qed.

Lemma toFixed2_spec (q : Q) :
  (Qabs (toFixed2 q - q) <= 1 # 200)%Q
  /\ (toFixed2 (toFixed2 q) == toFixed2 q)%Q
  /\ ((Qabs q < 10 ^ 21)%Q -> exists n : Z, (toFixed2 q == inject_Z n / 100)%Q).
Proof.
  destruct (Qle_bool (10 ^ 21) (Qabs q)) eqn:Hbig.
  - assert (Hq : toFixed2 q = q) by (unfold toFixed2; by rewrite Hbig).
    rewrite !Hq. split; [apply Qabs_Qle_condition; lra|]. split; [reflexivity|].
    apply Qle_bool_iff in Hbig. intros Hlt. exfalso.
    apply (Qlt_irrefl (Qabs q)). eapply Qlt_le_trans; [exact Hlt|exact Hbig].
  - destruct (Qle_bool 0 q) eqn:Hsign.
    + assert (Hq : toFixed2 q = round2 q) by (unfold toFixed2; by rewrite Hbig, Hsign).
      rewrite !Hq. pose proof (round2_near q) as [H1 H2].
      split; [apply Qabs_Qle_condition; lra|]. split.
      * unfold round2. apply toFixed2_cents.
      * intros _. eexists. unfold round2. reflexivity.
    + assert (Hq : toFixed2 q = (- round2 (- q))%Q)
        by (unfold toFixed2; by rewrite Hbig, Hsign).
      rewrite !Hq. pose proof (round2_near (- q)) as [H1 H2].
      assert (Hcents : (- round2 (- q)
                        == inject_Z (- Qfloor (- q * 100 + (1 # 2))) / 100)%Q)
        by (unfold round2; rewrite inject_Z_opp; field).
      split; [apply Qabs_Qle_condition; lra|]. split.
      * rewrite (toFixed2_comp _ _ Hcents), toFixed2_cents. by rewrite Hcents.
      * intros _. eexists. exact Hcents.
Qed.

End QuestionFacts.

Section QuestionClaims.
Import Js Questions.

(** X1.  Question numbers stay unique: whatever sequence of
    [addQuestion], [updateQuestion], [deleteQuestion] and
    [duplicateCurrentQuestion] calls runs on a project whose questions
    carry distinct [originalIndex] values, at most 90 of them, each
    with a numeric marker for every expected alternative, the project
    is of that kind afterwards, provided no update rewrites the number
    of the question it addresses.  Calls that throw or refuse leave
    the project as it was. *)
Theorem question_numbers_stay_unique (ops : list QuestionOp) (p : Project) :
  well_formed p ->
  forallb keeps_number ops = true ->
  well_formed (run_ops ops p).
Proof.
  revert p. induction ops as [|op ops IH]; intros p Hwf Hkeep; [exact Hwf|].
  simpl in Hkeep. apply andb_true_iff in Hkeep as [Hop Hops].
  simpl. apply IH; [|exact Hops]. by apply run_op_well_formed.
Qed.

Lemma question_numbers_stay_unique_witness :
  well_formed sampleProject /\ indexes sampleProject = [1; 3]%Z.
Proof.
  split; [|vm_compute; reflexivity].
  apply (question_numbers_stay_unique
           [OpAdd "blob:video-1" (Some sampleMarkers) "A";
            OpAdd "blob:video-2" (Some sampleMarkers) "C";
            OpDuplicate 0; OpDelete 2] emptyProject).
  - repeat split.
    + apply NoDup_nil_2.
    + simpl. lia.
    + intros q Hq. by apply elem_of_nil in Hq.
  - reflexivity.
Defined.

(** X2.  Adding and then deleting: when [addQuestion] succeeds, the new
    question carries a number above every number in use, and
    [deleteQuestion] with that number returns [true] and gives back the
    question list that was there before the addition (the project
    stays marked dirty). *)
Theorem addQuestion_then_deleteQuestion v m a (p : Project) (q : Question) (p' : Project) :
  addQuestion v m a p = Ok (q, p') ->
  (forall i, i ∈ indexes p -> (i < q_originalIndex q)%Z)
  /\ deleteQuestion (q_originalIndex q) p' = (true, set_questions (questions p) p).
Proof.
  intros Hadd. apply addQuestion_Ok in Hadd as (_ & Hq & -> & _).
  split; [intros i Hi; rewrite Hq; by apply next_number_above|].
  unfold deleteQuestion. simpl.
  assert (Hnone : list_find (fun q' => q_originalIndex q' = q_originalIndex q) (questions p)
                  = None).
  { apply list_find_None, Forall_forall. intros q' Hq' Heq.
    apply (next_number_fresh p). rewrite <- Hq, <- Heq.
    unfold indexes. apply list_elem_of_fmap. eauto. }
  rewrite (list_find_app_r _ _ _ Hnone). simpl.
  destruct (decide _) as [_|Hne]; [|done]. simpl.
  replace (0 + length (questions p))%nat with (length (questions p)) by lia.
  rewrite delete_middle, app_nil_r. reflexivity.
Qed.

Lemma addQuestion_then_deleteQuestion_witness :
  exists q p',
    addQuestion "blob:video-3" (Some sampleMarkers) "B" sampleProject = Ok (q, p')
    /\ q_originalIndex q = 4%Z
    /\ deleteQuestion 4 p' = (true, set_questions (questions sampleProject) sampleProject).
Proof.
  destruct (addQuestion "blob:video-3" (Some sampleMarkers) "B" sampleProject)
    as [[q p']|] eqn:Hadd; [|vm_compute in Hadd; discriminate].
  exists q, p'. split; [reflexivity|].
  assert (Hq : q_originalIndex q = 4%Z).
  { vm_compute in Hadd. injection Hadd as <- _. reflexivity. }
  split; [exact Hq|]. rewrite <- Hq.
  apply (addQuestion_then_deleteQuestion _ _ _ _ _ _ Hadd).
Defined.

(** X3.  [deleteQuestion] tells whether the number was in use; a number
    not in use leaves the project untouched (not even marked dirty),
    and otherwise exactly one question goes, the first one carrying
    the number, every other question keeping its place in the order. *)
Theorem deleteQuestion_removes_first (i : Z) (p : Project) :
  (deleteQuestion i p).1 = bool_decide (i ∈ indexes p)
  /\ ((deleteQuestion i p).1 = false /\ (deleteQuestion i p).2 = p
      \/ exists before q after,
           questions p = before ++ q :: after
           /\ q_originalIndex q = i
           /\ (i ∉ q_originalIndex <$> before)
           /\ (deleteQuestion i p).2 = set_questions (before ++ after) p).
Proof.
  unfold deleteQuestion.
  destruct (list_find _ _) as [[k q]|] eqn:Hfind; simpl.
  - apply list_find_Some in Hfind as (Hk & Hq & Hfirst). split.
    + symmetry. apply bool_decide_eq_true. unfold indexes.
      apply list_elem_of_fmap. exists q. split; [done|]. by eapply list_elem_of_lookup_2.
    + right. exists (take k (questions p)), q, (drop (S k) (questions p)).
      split; [by rewrite <- (take_drop_middle _ _ _ Hk) at 1|].
      split; [exact Hq|]. split.
      * intros Hin. apply list_elem_of_fmap in Hin as (q' & Hq' & Hin).
        apply list_elem_of_lookup in Hin as [j Hj].
        pose proof (lookup_lt_Some _ _ _ Hj) as Hlt. rewrite length_take in Hlt.
        rewrite lookup_take_lt in Hj by lia.
        apply (Hfirst j q' Hj); [lia|done].
      * f_equal. rewrite <- (take_drop_middle _ _ _ Hk) at 1.
        pose proof (lookup_lt_Some _ _ _ Hk) as Hlt.
        replace k with (length (take k (questions p))) at 1
          by (rewrite length_take; lia).
        by rewrite delete_middle.
  - apply list_find_None in Hfind. split; [|by left].
    symmetry. apply bool_decide_eq_false. unfold indexes. intros Hin.
    apply list_elem_of_fmap in Hin as (q & Hq & Hin).
    rewrite Forall_forall in Hfind. by apply (Hfind q Hin).
Qed.

(** X4.  [normalizeMarkers] keeps the set of marker names and the
    non-finite values, and replaces a finite time by a number within
    half a hundredth of it that normalising again leaves as it is;
    below [1e21] that number is a whole number of hundredths. *)
Theorem normalizeMarkers_rounds_to_hundredths (markers : gmap string JsNum) (marker : string) :
  match markers !! marker with
  | None => normalizeMarkers markers !! marker = None
  | Some (Fin q) =>
      exists r, normalizeMarkers markers !! marker = Some (Fin r)
                /\ (Qabs (r - q) <= 1 # 200)%Q
                /\ (toFixed2 r == r)%Q
                /\ ((Qabs q < 10 ^ 21)%Q -> exists n : Z, (r == inject_Z n / 100)%Q)
  | Some other => normalizeMarkers markers !! marker = Some other
  end.
Proof.
  unfold normalizeMarkers. rewrite lookup_fmap.
  destruct (markers !! marker) as [[q| | |]|]; try reflexivity.
  exists (toFixed2 q). split; [reflexivity|]. apply toFixed2_spec.
Qed.

End QuestionClaims.

(** ** Validation and placement of the overlay image *)

Section OverlayUtilsClaims.
Import Js OverlayUtils.
Local Open Scope Q_scope.

Lemma place_fits (a : Align) (p extent container : Q) :
  extent + 2 * p <= container ->
  p <= place a p extent container /\ place a p extent container + extent <= container - p.
Proof.
  intros Hfit. destruct a; simpl.
  - split; lra.
  - assert (Hhalf : (container - extent) / 2 == (container - extent) * (1 # 2)) by field.
    rewrite Hhalf. split; lra.
  - rewrite Q.max_r by lra. split; lra.
Qed.

Lemma padding_small (containerSize : Size) :
  2 * padding containerSize <= width containerSize * (1 # 10)
  /\ 2 * padding containerSize <= height containerSize * (1 # 10).
Proof.
  unfold padding.
  pose proof (Q.le_min_r 20 (Qmin (width containerSize) (height containerSize) * (5 # 100))).
  pose proof (Q.le_min_l (width containerSize) (height containerSize)).
  pose proof (Q.le_min_r (width containerSize) (height containerSize)).
  split; lra.
Qed.

Lemma calculatePosition_fits (position : string) (size containerSize : Size) :
  width size + 2 * padding containerSize <= width containerSize ->
  height size + 2 * padding containerSize <= height containerSize ->
  inside (padding containerSize) (calculatePosition position size containerSize)
         size containerSize.
Proof.
  intros Hw Hh. unfold calculatePosition, inside.
  destruct (alignment position) as [h v]. simpl.
  pose proof (place_fits h _ _ _ Hw). pose proof (place_fits v _ _ _ Hh). tauto.
Qed.

(** X5.  Placement: for each of the nine position names, and for any
    other name (which is placed like ['center']), an overlay that fits
    into the container with the padding on both sides is placed
    entirely inside the container, at least the padding away from
    every edge. *)
Theorem calculatePosition_inside_container (position : string) (size containerSize : Size) :
  width size + 2 * padding containerSize <= width containerSize ->
  height size + 2 * padding containerSize <= height containerSize ->
  inside (padding containerSize) (calculatePosition position size containerSize)
         size containerSize.
Proof. apply calculatePosition_fits. Qed.

Lemma calculatePosition_inside_container_witness :
  inside 18 (calculatePosition "bottom-right" (mkSize 160 90) sampleCanvas)
         (mkSize 160 90) sampleCanvas
  /\ px (calculatePosition "bottom-right" (mkSize 160 90) sampleCanvas) == 462
  /\ py (calculatePosition "bottom-right" (mkSize 160 90) sampleCanvas) == 252.
Proof.
  split; [|split; vm_compute; reflexivity].
  apply (calculatePosition_inside_container "bottom-right" (mkSize 160 90) sampleCanvas);
    vm_compute; discriminate.
Defined.

(** X6.  Sizing and placement together, as [drawOverlayOnCanvas] calls
    them: with a size of at most 90 (percent of the canvas width; 50
    when the size is missing or zero) the overlay is as wide as that
    share of the canvas and lies horizontally inside the canvas, the
    padding away from both sides, whatever the position name; when the
    height comes from the known image size the aspect ratio of the
    image is kept, and otherwise the overlay also lies vertically
    inside the canvas. *)
Theorem overlay_sized_and_placed_inside_canvas (config : Config) (canvas : Size) :
  0 <= width canvas -> 0 <= height canvas ->
  0 <= or_default (cfg_size config) 50 <= 90 ->
  let dimensions := calculateOverlayDimensions config canvas in
  let position := calculatePosition (cfg_position config) dimensions canvas in
  width dimensions == width canvas * or_default (cfg_size config) 50 / 100
  /\ padding canvas <= px position
  /\ px position + width dimensions <= width canvas - padding canvas
  /\ match cfg_imageHeight config, cfg_imageWidth config with
     | Some ih, Some iw =>
         if Qeq_bool ih 0 || Qeq_bool iw 0
         then inside (padding canvas) position dimensions canvas
         else height dimensions * iw == ih * width dimensions
     | _, _ => inside (padding canvas) position dimensions canvas
     end.
Proof.
  intros HW HH [Hs0 Hs90]. cbv zeta.
  set (s := or_default (cfg_size config) 50) in *.
  pose proof (padding_small canvas) as [Hpw Hph].
  assert (Hwidth : width (calculateOverlayDimensions config canvas)
                   == width canvas * s * (1 # 100)).
  { unfold calculateOverlayDimensions. simpl. fold s. field. }
  assert (Hfitw : width (calculateOverlayDimensions config canvas) + 2 * padding canvas
                  <= width canvas).
  { rewrite Hwidth. nra. }
  assert (Hplain : truthy (cfg_imageHeight config) && truthy (cfg_imageWidth config) = false ->
                   inside (padding canvas)
                          (calculatePosition (cfg_position config)
                             (calculateOverlayDimensions config canvas) canvas)
                          (calculateOverlayDimensions config canvas) canvas).
  { intros Hno. apply calculatePosition_fits; [exact Hfitw|].
    unfold calculateOverlayDimensions. rewrite Hno. simpl. fold s.
    assert (Hh : height canvas * s / 100 == height canvas * s * (1 # 100)) by field.
    rewrite Hh. nra. }
  split; [unfold calculateOverlayDimensions; simpl; fold s; reflexivity|].
  split; [|split].
  - unfold calculatePosition. destruct (alignment _) as [h v]. simpl.
    apply (place_fits h _ _ _ Hfitw).
  - unfold calculatePosition. destruct (alignment _) as [h v]. simpl.
    apply (place_fits h _ _ _ Hfitw).
  - destruct (cfg_imageHeight config) as [ih|] eqn:Hih;
      destruct (cfg_imageWidth config) as [iw|] eqn:Hiw;
      try (apply Hplain; simpl; try rewrite andb_false_r; reflexivity).
    destruct (Qeq_bool ih 0) eqn:Hz1; simpl.
    { apply Hplain. simpl. rewrite Hz1. reflexivity. }
    destruct (Qeq_bool iw 0) eqn:Hz2; simpl.
    { apply Hplain. simpl. rewrite Hz2. apply andb_false_r. }
    unfold calculateOverlayDimensions. rewrite Hih, Hiw. simpl. rewrite Hz1, Hz2. simpl.
    fold s. apply Qeq_bool_neq in Hz2. field. exact Hz2.
Qed.

Lemma overlay_sized_and_placed_inside_canvas_witness :
  let dimensions := calculateOverlayDimensions sampleConfig sampleCanvas in
  let position := calculatePosition "bottom-right" dimensions sampleCanvas in
  width dimensions == 640 * 25 / 100
  /\ 18 <= px position
  /\ px position + width dimensions <= 640 - 18
  /\ inside 18 position dimensions sampleCanvas.
Proof.
  apply (overlay_sized_and_placed_inside_canvas sampleConfig sampleCanvas).
  - vm_compute. discriminate.
  - vm_compute. discriminate.
  - split; vm_compute; discriminate.
Defined.

(** X7.  Validation of an overlay configuration: it is accepted exactly
    when it has an image file and a position, its start (taken from
    [startTime], and from the legacy [start] only when [startTime] is
    missing) is a number that is not negative, and its duration is a
    number that is positive.  The copy of [start] into [startTime] that
    [drawOverlayOnCanvas] makes before validating never changes the
    verdict. *)
Theorem validateOverlayConfig_verdict (config : Config) :
  (validateOverlayConfig (Some config) = true <->
     cfg_imageFile config <> ""%string /\ cfg_position config <> ""%string
     /\ (exists startTime, effectiveStart config = FNum startTime /\ lt0 startTime = false)
     /\ (exists duration, cfg_duration config = FNum duration
                          /\ falsy (ANum duration) = false /\ le0 duration = false))
  /\ validateOverlayConfig (Some (configForValidation config))
     = validateOverlayConfig (Some config).
Proof.
  split.
  - unfold validateOverlayConfig.
    destruct (decide (cfg_imageFile config = ""%string)) as [Himg|Himg]; [split; [discriminate|tauto]|].
    destruct (effectiveStart config) as [| |st]; try (split; [discriminate|]; intros (_ & _ & (? & [=] & _) & _)).
    destruct (lt0 st) eqn:Hlt.
    { split; [discriminate|]. intros (_ & _ & (st' & [= <-] & Hst) & _). congruence. }
    destruct (cfg_duration config) as [| |d]; try (split; [discriminate|]; intros (_ & _ & _ & (? & [=] & _))).
    destruct (falsy (ANum d)) eqn:Hf; cbn [orb].
    { split; [discriminate|]. intros (_ & _ & _ & (d' & [= <-] & Hd & _)). congruence. }
    destruct (le0 d) eqn:Hle.
    { split; [discriminate|]. intros (_ & _ & _ & (d' & [= <-] & _ & Hd)). congruence. }
    destruct (decide (cfg_position config = ""%string)) as [Hpos|Hpos]; [split; [discriminate|tauto]|].
    split; [|reflexivity]. intros _. eauto 10.
  - unfold validateOverlayConfig, configForValidation, effectiveStart.
    destruct (cfg_start config) eqn:Hs; destruct (cfg_startTime config) eqn:Hst;
      simpl; rewrite ?Hs, ?Hst; reflexivity.
Qed.

End OverlayUtilsClaims.

(** ** Adjusting and moving the trim selection *)

Section SelectionHandleClaims.
Import Trim SelectionHandles.
Local Open Scope Q_scope.

Lemma truthy_Some (t : option Q) (q : Q) : truthy t = Some q -> t = Some q /\ ~ q == 0.
Proof.
  unfold truthy. destruct t as [x|]; [|discriminate].
  destruct (Qeq_bool x 0) eqn:Hz; [discriminate|]. intros [= <-].
  split; [reflexivity|]. by apply Qeq_bool_neq.
Qed.

Lemma moveHandler_keeps (g : Grab) (ed : VideoEditor) (clientX : Q) :
  moveHandler g ed clientX = ed
  \/ (exists st, startTime (moveHandler g ed clientX) = Some st
                 /\ endTime (moveHandler g ed clientX) = Some (st + g_duration g)
                 /\ 0 <= st /\ st + g_duration g <= videoDuration ed)
     /\ videoDuration (moveHandler g ed clientX) = videoDuration ed.
Proof.
  unfold moveHandler.
  destruct (Qle_bool 0 _) eqn:H0; [|by left].
  destruct (Qle_bool _ (videoDuration ed)) eqn:H1; [|by left].
  right. simpl. apply Qle_bool_iff in H0, H1. split; [|reflexivity]. eauto.
Qed.

(** X8.  Moving the selection as a whole: during a gesture that starts
    on a selection with both bounds set, on a timeline of positive
    width, every pointer move either leaves the selection where it is
    or shifts both bounds by the same amount; so the selection keeps
    its length, and once it has moved it lies within the video, from 0
    to the duration. *)
Theorem moveSelection_keeps_length (clientX : Q) (rect : Rect) (moves : list Q)
        (ed : VideoEditor) (st en : Q) :
  0 < rect_width rect ->
  startTime ed = Some st -> endTime ed = Some en ->
  let ed' := moveSelection clientX rect moves ed in
  selected ed' == en - st
  /\ (ed' = ed \/ (0 <= num (startTime ed') /\ num (endTime ed') <= videoDuration ed)).
Proof.
  intros _ Hst Hen. unfold moveSelection.
  set (g := grabSelection clientX rect ed).
  assert (Hg : g_duration g = en - st) by (unfold g, grabSelection; simpl; by rewrite Hst, Hen).
  clearbody g.
  assert (Hinv : forall ms e,
             videoDuration e = videoDuration ed ->
             selected e == en - st ->
             (e = ed \/ (0 <= num (startTime e) /\ num (endTime e) <= videoDuration ed)) ->
             selected (fold_left (moveHandler g) ms e) == en - st
             /\ (fold_left (moveHandler g) ms e = ed
                 \/ (0 <= num (startTime (fold_left (moveHandler g) ms e))
                     /\ num (endTime (fold_left (moveHandler g) ms e)) <= videoDuration ed))).
  { induction ms as [|x ms IH]; intros e Hd Hsel Hin; [by split|].
    simpl. destruct (moveHandler_keeps g e x) as [->|[(s & Hs & He & H0 & H1) Hd']].
    - by apply IH.
    - apply IH.
      + congruence.
      + unfold selected. rewrite Hs, He. simpl. rewrite Hg. ring.
      + right. rewrite Hs, He. simpl. rewrite <- Hd. split; [exact H0|exact H1]. }
  apply Hinv; [reflexivity| |by left].
  unfold selected. rewrite Hst, Hen. reflexivity.
Qed.

Lemma moveSelection_keeps_length_witness :
  let ed' := moveSelection 300 sampleRect [400; 950; 350] sampleEditor in
  selected ed' == 50 - 20
  /\ (ed' = sampleEditor
      \/ (0 <= num (startTime ed') /\ num (endTime ed') <= 100)).
Proof.
  apply (moveSelection_keeps_length 300 sampleRect [400; 950; 350] sampleEditor 20 50).
  - vm_compute. reflexivity.
  - reflexivity.
  - reflexivity.
Defined.

(** X9.  Adjusting one handle: the start handle never gets closer than
    a tenth of a second to a set, non-zero end, and the end handle
    never closer than a tenth of a second to a set, non-zero start.
    A start of exactly 0 counts as not set: the end handle then follows
    the pointer alone, and at the left edge of the timeline the end
    lands on 0 as well. *)
Theorem dragHandler_keeps_handles_apart (clientX : Q) (rect : Rect) (ed : VideoEditor) :
  0 < rect_width rect ->
  (forall en, endTime ed = Some en -> ~ en == 0 ->
     exists s, startTime (dragHandler StartHandle clientX rect ed) = Some s
               /\ endTime (dragHandler StartHandle clientX rect ed) = Some en
               /\ s + (1 # 10) <= en)
  /\ (forall st, startTime ed = Some st -> ~ st == 0 ->
        exists e, endTime (dragHandler EndHandle clientX rect ed) = Some e
                  /\ startTime (dragHandler EndHandle clientX rect ed) = Some st
                  /\ st + (1 # 10) <= e)
  /\ (forall st, startTime ed = Some st -> st == 0 -> clientX <= rect_left rect ->
        exists e, endTime (dragHandler EndHandle clientX rect ed) = Some e /\ e == 0).
Proof.
  intros Hw. split; [|split].
  - intros en Hen Hnz. unfold dragHandler. rewrite Hen. simpl.
    destruct (Qeq_bool en 0) eqn:Hz; [by apply Qeq_bool_iff in Hz|].
    eexists. split; [reflexivity|]. split; [reflexivity|].
    pose proof (Q.le_min_r (clampedTimeAt clientX rect ed) (en - (1 # 10))). lra.
  - intros st Hst Hnz. unfold dragHandler. rewrite Hst. simpl.
    destruct (Qeq_bool st 0) eqn:Hz; [by apply Qeq_bool_iff in Hz|].
    eexists. split; [reflexivity|]. split; [reflexivity|].
    pose proof (Q.le_max_r (clampedTimeAt clientX rect ed) (st + (1 # 10))). lra.
  - intros st Hst Hz Hleft. unfold dragHandler. rewrite Hst. simpl.
    assert (Hb : Qeq_bool st 0 = true) by (by apply Qeq_bool_iff).
    rewrite Hb. eexists. split; [reflexivity|].
    assert (Htime : clampedTimeAt clientX rect ed == 0).
    { unfold clampedTimeAt.
      assert (Hmin : Qmin (clientX - rect_left rect) (rect_width rect)
                     == clientX - rect_left rect) by (apply Q.min_l; lra).
      assert (Hmax : Qmax 0 (Qmin (clientX - rect_left rect) (rect_width rect)) == 0)
        by (apply Q.max_l; rewrite Hmin; lra).
      rewrite Hmax. field. lra. }
    rewrite Q.max_l by lra. exact Htime.
Qed.

Lemma dragHandler_keeps_handles_apart_witness :
  (exists s, startTime (dragHandler StartHandle 900 sampleRect sampleEditor) = Some s
             /\ endTime (dragHandler StartHandle 900 sampleRect sampleEditor) = Some 50
             /\ s + (1 # 10) <= 50)
  /\ (exists e, endTime (dragHandler EndHandle 0 sampleRect sampleEditor) = Some e
                /\ startTime (dragHandler EndHandle 0 sampleRect sampleEditor) = Some 20
                /\ 20 + (1 # 10) <= e).
Proof.
  assert (Hw : 0 < rect_width sampleRect) by (vm_compute; reflexivity).
  destruct (dragHandler_keeps_handles_apart 900 sampleRect sampleEditor Hw)
    as (Hstart & _ & _).
  destruct (dragHandler_keeps_handles_apart 0 sampleRect sampleEditor Hw)
    as (_ & Hend & _).
  split.
  - apply Hstart; [vm_compute; reflexivity|vm_compute; discriminate].
  - apply Hend; [vm_compute; reflexivity|vm_compute; discriminate].
Defined.

End SelectionHandleClaims.

(** ** More on the overlay store *)

Section OverlayStoreLaws.
Import OverlayStore.

Lemma remove_first_snoc (callback : HandlerId) (l : list HandlerId) :
  callback ∉ l -> remove_first callback (l ++ [callback]) = l.
Proof.
  induction l as [|h t IH]; intros Hnotin; simpl.
  - by rewrite decide_True.
  - apply not_elem_of_cons in Hnotin as [Hne Hnotin].
    rewrite decide_False by done. by rewrite IH.
Qed.

Lemma getOverlay_find (id : string) (w : World) :
  getOverlay id w = find_overlay id (overlays w).
Proof.
  unfold getOverlay. induction (overlays w) as [|o l IH]; [done|].
  cbn [list_find find_overlay]. destruct (decide (ov_id o = id)); [done|].
  rewrite <- IH. by destruct (list_find _ l) as [[]|].
Qed.

Lemma find_overlay_filter (id id' : string) (l : list Overlay) :
  find_overlay id' (filter (fun o => ov_id o ≠ id) l)
  = if decide (id' = id) then None else find_overlay id' l.
Proof.
  induction l as [|o l IH]; [by destruct (decide _)|].
  rewrite filter_cons. destruct (decide (ov_id o ≠ id)) as [Hne|Heq].
  - cbn [find_overlay]. destruct (decide (ov_id o = id')) as [<-|Hne'].
    + by rewrite decide_False.
    + exact IH.
  - apply dec_stable in Heq. rewrite IH. cbn [find_overlay].
    destruct (decide (id' = id)) as [->|Hne]; [done|].
    rewrite decide_False; [done|congruence].
Qed.

Lemma find_overlay_snoc (id : string) (l : list Overlay) (o : Overlay) :
  find_overlay id (l ++ [o])
  = match find_overlay id l with
    | Some old => Some old
    | None => if decide (ov_id o = id) then Some o else None
    end.
Proof.
  induction l as [|a l IH]; [done|].
  cbn [app find_overlay]. by destruct (decide (ov_id a = id)).
Qed.

Lemma sync_keeps_overlays (w : World) : overlays (syncWithProject w) = overlays w.
Proof.
  unfold syncWithProject. destruct (projectOverlays w) as [proj|]; [|done].
  by destruct (fold_left sync_step _ _) as [[m proj1] next].
Qed.

(** Every entry of a reconciled projection is the image of the store
    record with its id. *)
Lemma reconcile_entries (St : list Overlay) (proj : list ProjectOverlay) (n : nat)
      (e : ProjectOverlay) :
  NoDup (ov_id <$> St) ->
  e ∈ reconcile_by_id St proj n ->
  exists o, find_overlay (po_id e) St = Some o /\ e = overlayData o (po_obj e).
Proof.
  intros Hnd He. apply elem_of_app in He as [He|He].
  - apply reconcile_ids_kept in He as (e0 & o & _ & Ho & Hid & ->).
    exists o. simpl. split; [by apply find_overlay_elem|done].
  - apply elem_of_lookup_imap in He as (j & o & -> & Hj).
    apply list_elem_of_lookup_2, list_elem_of_filter in Hj as [_ Ho].
    exists o. simpl. split; [by apply find_overlay_elem|done].
Qed.

Lemma omap_id_on {A} (f : A -> option A) (l : list A) :
  (forall x, x ∈ l -> f x = Some x) -> omap f l = l.
Proof.
  induction l as [|x l IH]; intros Hall; [done|].
  cbn [omap list_omap]. rewrite (Hall x) by left. simpl. f_equal.
  apply IH. intros y Hy. apply Hall. by right.
Qed.

Lemma filter_none {A} (P : A -> Prop) `{!forall x, Decision (P x)} (l : list A) :
  (forall x, x ∈ l -> ~ P x) -> filter P l = [].
Proof.
  induction l as [|x l IH]; intros Hall; [done|].
  rewrite filter_cons_False by (apply Hall; left). apply IH.
  intros y Hy. apply Hall. by right.
Qed.

(** A matching projection is a fixed point of the reconciliation. *)
Lemma reconcile_fixed (St : list Overlay) (proj : list ProjectOverlay) (n n' : nat) :
  NoDup (po_id <$> proj) -> NoDup (ov_id <$> St) ->
  reconcile_by_id St (reconcile_by_id St proj n) n' = reconcile_by_id St proj n.
Proof.
  intros Hndp Hnds. set (P1 := reconcile_by_id St proj n).
  pose proof (reconcile_matches St proj n Hndp Hnds) as (_ & Hall & _). fold P1 in Hall.
  unfold reconcile_by_id at 1. rewrite omap_id_on, filter_none.
  - simpl. apply app_nil_r.
  - intros o Ho Hnotin. destruct (Hall o Ho) as (e & Hf & _).
    apply Hnotin. apply list_elem_of_fmap. exists e.
    assert (He : e ∈ filter (fun e' => po_id e' = ov_id o) P1) by (rewrite Hf; left).
    apply list_elem_of_filter in He as [Hid He]. done.
  - intros e He. destruct (reconcile_entries St proj n e Hnds He) as (o & Hfind & Heq).
    rewrite Hfind. simpl. by rewrite <- Heq.
Qed.

End OverlayStoreLaws.

Section OverlayStoreExtras.
Import OverlayStore.

(** X10.  Synchronising twice is synchronising once: with distinct ids
    in the store and in the project's list, a second [syncWithProject]
    leaves the project's list exactly as the first one made it (the
    same entries, the same objects, the same order), and neither call
    changes the store. *)
Theorem syncWithProject_idempotent (w : World) (proj : list ProjectOverlay) :
  projectOverlays w = Some proj ->
  NoDup (po_id <$> proj) -> NoDup (ov_id <$> overlays w) ->
  projectOverlays (syncWithProject (syncWithProject w)) = projectOverlays (syncWithProject w)
  /\ overlays (syncWithProject (syncWithProject w)) = overlays w.
Proof.
  intros Hproj Hndp Hnds.
  destruct (syncWithProject_reconcile w proj Hproj Hndp Hnds) as [H1 Ho1].
  assert (Hndp1 : NoDup (po_id <$> reconcile_by_id (overlays w) proj (nextObj w))).
  { by destruct (reconcile_matches (overlays w) proj (nextObj w) Hndp Hnds). }
  assert (Hnds1 : NoDup (ov_id <$> overlays (syncWithProject w))) by (by rewrite Ho1).
  destruct (syncWithProject_reconcile (syncWithProject w) _ H1 Hndp1 Hnds1) as [H2 Ho2].
  split; [|by rewrite Ho2].
  rewrite H2, H1, Ho1. f_equal. by apply reconcile_fixed.
Qed.

Lemma syncWithProject_idempotent_witness :
  projectOverlays (syncWithProject (syncWithProject sampleStale))
  = projectOverlays (syncWithProject sampleStale)
  /\ overlays (syncWithProject (syncWithProject sampleStale)) = overlays sampleStale.
Proof.
  apply (syncWithProject_idempotent sampleStale
           [sampleEntry 0 "c" 1 1; sampleEntry 1 "a" 0 5]).
  - reflexivity.
  - compute_done.
  - compute_done.
Defined.

(** X11.  Registering and unregistering: [removeEventListener] undoes
    an [addEventListener] of a callback that was not yet registered
    for the event, the listeners of the event being afterwards what
    they were, in the same order; the listeners of every other event
    are not touched. *)
Theorem removeEventListener_undoes_add (event other : string) (callback : HandlerId)
        (w : World) :
  callback ∉ listenersOf event w ->
  other <> event ->
  listenersOf event (removeEventListener event callback (addEventListener event callback w))
  = listenersOf event w
  /\ listenersOf other (removeEventListener event callback (addEventListener event callback w))
     = listenersOf other w.
Proof.
  intros Hnotin Hother. unfold removeEventListener, addEventListener, listenersOf in *.
  simpl. destruct (eventListeners w !! event) as [l|] eqn:Hl; simpl in *.
  - rewrite !lookup_insert_eq. simpl. rewrite !lookup_insert_eq. simpl.
    rewrite Hl. simpl. rewrite remove_first_snoc by done. split; [done|].
    by rewrite !lookup_insert_ne.
  - rewrite !lookup_insert_eq. simpl. rewrite !lookup_insert_eq. simpl.
    rewrite decide_True by done. split; [done|].
    by rewrite !lookup_insert_ne.
Qed.

Lemma removeEventListener_undoes_add_witness :
  listenersOf "overlayUpdated"
    (removeEventListener "overlayUpdated" 7 (addEventListener "overlayUpdated" 7 sampleListening))
  = [0; 1]
  /\ listenersOf "overlayAdded"
       (removeEventListener "overlayUpdated" 7
          (addEventListener "overlayUpdated" 7 sampleListening))
     = [].
Proof.
  apply (removeEventListener_undoes_add "overlayUpdated" "overlayAdded" 7 sampleListening).
  - compute_done.
  - discriminate.
Defined.

(** X12.  A listener that unregisters itself while the event is being
    delivered makes [emit] pass over the listener registered right
    after it: with two listeners, the first of which only removes
    itself, the emit ends normally with the first listener removed and
    the event logged, whatever the second listener would have done. *)
Theorem emit_skips_listener_after_self_removal
        (behaviour : HandlerId -> EventData -> World -> Completion)
        (event : string) (data : EventData) (first second : HandlerId) (w : World) :
  eventListeners w !! event = Some [first; second] ->
  first <> second ->
  (forall w', behaviour first data w' = Normal (removeEventListener event first w')) ->
  emit behaviour event data w
  = Normal (log (EventEmitted event) (removeEventListener event first w))
  /\ listenersOf event (removeEventListener event first w) = [second].
Proof.
  intros Hl Hne Hfirst.
  assert (Hbefore : listenersOf event w = [first; second])
    by (unfold listenersOf; by rewrite Hl).
  assert (Hafter : listenersOf event (removeEventListener event first w) = [second]).
  { unfold removeEventListener, listenersOf. rewrite Hl. simpl.
    rewrite lookup_insert_eq. simpl. by rewrite decide_True. }
  split; [|exact Hafter].
  unfold emit. rewrite Hl. cbn [length forEach_listeners].
  rewrite Hbefore. cbn [lookup list_lookup].
  unfold guarded at 1, try_catch. rewrite Hfirst, Hafter. reflexivity.
Qed.

Lemma emit_skips_listener_after_self_removal_witness :
  emit (fun h d w => match h with
                     | 1 => Normal (removeEventListener "overlayUpdated" 1 w)
                     | _ => Throw "never called" w
                     end)
       "overlayUpdated" sampleEvent
       (addEventListener "overlayUpdated" 2 (addEventListener "overlayUpdated" 1 initialWorld))
  = Normal (log (EventEmitted "overlayUpdated")
              (removeEventListener "overlayUpdated" 1
                 (addEventListener "overlayUpdated" 2
                    (addEventListener "overlayUpdated" 1 initialWorld))))
  /\ listenersOf "overlayUpdated"
       (removeEventListener "overlayUpdated" 1
          (addEventListener "overlayUpdated" 2
             (addEventListener "overlayUpdated" 1 initialWorld)))
     = [2].
Proof.
  apply emit_skips_listener_after_self_removal.
  - vm_compute. reflexivity.
  - discriminate.
  - reflexivity.
Defined.

(** X13.  Looking up after adding and removing.  After
    [removeOverlay(id)] the store has no overlay with that id, and the
    lookup of any other id gives what it gave before.  After
    [addOverlay] an id that was already in use still gives the
    overlay stored first (the added one is stored behind it), and an
    id not in use gives the added overlay under the id it was stored
    with. *)
Theorem getOverlay_after_add_remove (id id' generated : string) (overlay : Overlay)
        (w : World) :
  getOverlay id' (removeOverlay id w)
  = (if decide (id' = id) then None else getOverlay id' w)
  /\ getOverlay id' (addOverlay overlay generated w)
     = match getOverlay id' w with
       | Some old => Some old
       | None =>
           if decide (stored_id overlay generated = id')
           then Some (if decide (ov_id overlay = "")
                      then assign overlay (mkPatch (Some generated) None None None None None
                                                   None None None None)
                      else overlay)
           else None
       end.
Proof.
  split.
  - rewrite !getOverlay_find. unfold removeOverlay. simpl.
    rewrite sync_keeps_overlays. simpl. apply find_overlay_filter.
  - rewrite !getOverlay_find. unfold addOverlay, stored_id.
    destruct (decide (ov_id overlay = "")) as [Hid|Hid]; simpl;
      rewrite sync_keeps_overlays; simpl; rewrite find_overlay_snoc;
      destruct (find_overlay id' (overlays w)); done.
Qed.

End OverlayStoreExtras.

(** ** Reading the visual state back, and batches of updates *)

Section VisualStateUseFacts.
Import VisualState VisualStateUse.

Lemma hasObjectChanged_entries (cur inc : gmap string JsVal) (k : string) (v : JsVal) :
  hasObjectChanged cur inc = false -> inc !! k = Some v -> strict_eq (get cur k) v = true.
Proof.
  unfold hasObjectChanged. intros Hno Hk.
  destruct (strict_eq (get cur k) v) eqn:Heq; [done|].
  assert (Hex : existsb (fun kv => negb (strict_eq (get cur kv.1) kv.2)) (map_to_list inc)
                = true).
  { apply existsb_exists. exists (k, v). split.
    - by apply list_elem_of_In, elem_of_map_to_list.
    - simpl. by rewrite Heq. }
  congruence.
Qed.

Lemma detect_object_quiet inc cur setFlag acc :
  (detect_object inc cur setFlag acc).1 = false ->
  acc.1 = false /\ (forall o, inc = Some o -> hasObjectChanged cur o = false).
Proof.
  destruct inc as [o|]; simpl.
  - intros Hor. apply orb_false_iff in Hor as [Hc Ha]. split; [done|].
    by intros o' [= <-].
  - intros Ha. split; [done|]. by intros o' [=].
Qed.

Lemma detect_map_quiet inc setFlag acc :
  (detect_map inc setFlag acc).1 = false -> acc.1 = false.
Proof. by destruct inc. Qed.

(** A payload that shows no change is already in the state. *)
Lemma detect_all_quiet (u : Updates) (m : Manager) read inc k v :
  (detect_all u m).1 = false ->
  read ∈ objectSections -> read.1 u = Some inc -> inc !! k = Some v ->
  strict_eq (get (read.2 m) k) v = true.
Proof.
  unfold detect_all. intros Hq Hread Hinc Hk.
  apply detect_map_quiet, detect_map_quiet in Hq.
  apply detect_object_quiet in Hq as [Hq Hbody].
  apply detect_object_quiet in Hq as [Hq Htimeline].
  apply detect_object_quiet in Hq as [Hq Hselection].
  apply detect_object_quiet in Hq as [Hq Hprogress].
  apply detect_object_quiet in Hq as [_ Hplayhead].
  unfold objectSections in Hread.
  repeat (apply elem_of_cons in Hread as [->|Hread]); simpl in *;
    try (eapply hasObjectChanged_entries; eauto; fail).
  by apply elem_of_nil in Hread.
Qed.

Lemma updateState_stores (u : Updates) (m : Manager) read inc k v :
  read ∈ objectSections -> read.1 u = Some inc -> inc !! k = Some v ->
  get (read.2 (updateState u m)) k = v.
Proof.
  intros Hread Hinc Hk. unfold objectSections in Hread.
  repeat (apply elem_of_cons in Hread as [->|Hread]); simpl in *;
    try (rewrite Hinc; simpl; by apply get_assign).
  by apply elem_of_nil in Hread.
Qed.

Lemma sections_read (m m' : Manager) read :
  sections m' = sections m -> read ∈ objectSections -> read.2 m' = read.2 m.
Proof.
  unfold sections. intros [= Hp Hg Hs Ht Hb _ _] Hread. unfold objectSections in Hread.
  repeat (apply elem_of_cons in Hread as [->|Hread]); simpl; try done.
  by apply elem_of_nil in Hread.
Qed.

Section Page.
Variable react : SectionName -> list Reaction.

(** [setState] on an idle manager, step by step. *)
Lemma setState_idle (u : Updates) (batch : bool) (m : Manager) :
  isApplyingState m = false ->
  setState react u batch m
  = if negb (detectChanges u m).1 then Done (count_skipped (detectChanges u m).2)
    else if batch then Done (scheduleBatchUpdate (updateState u (detectChanges u m).2))
    else applyState react (updateState u (detectChanges u m).2).
Proof.
  intros Hflag. unfold setState. rewrite setState_fuel_unfold, Hflag. reflexivity.
Qed.

Lemma batchUpdate_idle (u : Updates) (m : Manager) :
  idle m ->
  idle (manager_of (batchUpdate react u m) m)
  /\ applied (manager_of (batchUpdate react u m) m) = applied m.
Proof.
  intros [Hflag Hpending]. unfold batchUpdate. rewrite (setState_idle u true m Hflag).
  destruct (detectChanges u m).1; simpl.
  - unfold scheduleBatchUpdate. simpl.
    destruct (batchUpdatePending m) eqn:Hb; simpl.
    + split; [|done]. split; [exact Hflag|]. simpl. rewrite Hb.
      destruct Hpending as [[? _]|[_ ?]]; [done|by right].
    + split; [|done]. split; [exact Hflag|]. simpl. right. split; [done|].
      destruct Hpending as [[_ ->]|[? _]]; done.
  - split; [|done]. split; [exact Hflag|]. exact Hpending.
Qed.

Lemma batchAll_idle (payloads : list Updates) : forall m,
  idle m -> idle (batchAll react payloads m) /\ applied (batchAll react payloads m) = applied m.
Proof.
  induction payloads as [|u rest IH]; intros m Hidle; [done|].
  unfold batchAll. simpl. destruct (batchUpdate_idle u m Hidle) as [Hidle' Happ].
  destruct (IH _ Hidle') as [H1 H2]. split; [exact H1|]. unfold batchAll in H2.
  by rewrite H2.
Qed.

End Page.

End VisualStateUseFacts.

Section VisualStateUseClaims.
Import VisualState VisualStateUse.

(** X14.  What [setState] is given can be read back: after a call on a
    manager that is not applying state, batched or not, whatever the
    apply functions do, every key of every object section of the
    payload holds the payload's value in the state, or (when the call
    was skipped as a no-op) a value [===] to it. *)
Theorem setState_stores_payload (react : SectionName -> list Reaction) (u : Updates)
        (batch : bool) (m : Manager)
        (read : (Updates -> option (gmap string JsVal)) * (Manager -> gmap string JsVal))
        (inc : gmap string JsVal) (k : string) (v : JsVal) :
  isApplyingState m = false ->
  read ∈ objectSections -> read.1 u = Some inc -> inc !! k = Some v ->
  let m' := manager_of (setState react u batch m) m in
  get (read.2 m') k = v \/ strict_eq (get (read.2 m') k) v = true.
Proof.
  intros Hflag Hread Hinc Hk. cbv zeta. rewrite (setState_idle react u batch m Hflag).
  destruct (detectChanges u m).1 eqn:Hhas; cbn [negb].
  - left. set (m2 := updateState u (detectChanges u m).2).
    assert (Hstored : get (read.2 m2) k = v) by (by eapply updateState_stores).
    destruct batch.
    + cbn [manager_of].
      rewrite (sections_read m2 (scheduleBatchUpdate m2) read); [done| |done].
      unfold scheduleBatchUpdate. by destruct (batchUpdatePending m2).
    + assert (Hflag2 : isApplyingState m2 = false) by exact Hflag.
      destruct (applyState_outcome react m2 Hflag2) as (c & d & Hres & _).
      cbv zeta in Hres.
      destruct Hres as [Hres|[e Hres]]; rewrite Hres; cbn [manager_of];
        rewrite <- Hstored; f_equal; by apply sections_read.
  - right. cbn [manager_of].
    rewrite (sections_read m (count_skipped (detectChanges u m).2) read eq_refl Hread).
    exact (detect_all_quiet u m read inc k v Hhas Hread Hinc Hk).
Qed.

Lemma setState_stores_payload_witness :
  let m' := manager_of (setState throwingPage playheadPayload false initialManager)
                       initialManager in
  get (playhead m') "position" = VNum 50
  \/ strict_eq (get (playhead m') "position") (VNum 50) = true.
Proof.
  apply (setState_stores_payload throwingPage playheadPayload false initialManager
           (u_playhead, playhead) {[ "position" := VNum 50 ]} "position" (VNum 50)).
  - reflexivity.
  - unfold objectSections. left.
  - reflexivity.
  - apply lookup_singleton_eq.
Defined.

(** X15.  Batched updates share one animation frame: after any run of
    [batchUpdate] calls on an idle manager with no frame pending, at
    most one frame has been requested and no apply function has run
    yet; when that frame runs on a page whose apply functions do not
    throw, each section that is dirty at that moment is applied once,
    in the fixed order, after which no section is dirty, no frame is
    pending, and the update counter has gone up by two. *)
Theorem batched_updates_share_one_frame (react : SectionName -> list Reaction)
        (payloads : list Updates) (m : Manager) :
  never_throws react ->
  isApplyingState m = false -> batchUpdatePending m = false -> pendingFrames m = 0 ->
  let m1 := batchAll react payloads m in
  pendingFrames m1 <= 1
  /\ applied m1 = applied m
  /\ (pendingFrames m1 = 1 ->
      exists m2,
        runAnimationFrame react m1 = Done m2
        /\ applied m2 = applied m ++ filter (fun sec => is_dirty sec m1) applyOrder
        /\ clean m2 = true
        /\ pendingFrames m2 = 0 /\ batchUpdatePending m2 = false
        /\ isApplyingState m2 = false
        /\ updateCount m2 = 2 + updateCount m1
        /\ sections m2 = sections m1).
Proof.
  intros Hnt Hflag Hbp Hpf. cbv zeta.
  assert (Hidle : idle m) by (split; [done|by left]).
  destruct (batchAll_idle react payloads m Hidle) as [[Hflag1 Hpending] Happ].
  set (m1 := batchAll react payloads m) in *. clearbody m1.
  split; [destruct Hpending as [[_ ->]|[_ ->]]; lia|]. split; [exact Happ|].
  intros Hone. unfold runAnimationFrame. rewrite Hone.
  set (m1' := set_batch (batchUpdatePending m1) 0 m1).
  assert (Hflag1' : isApplyingState m1' = false) by exact Hflag1.
  destruct (applyState_outcome react m1' Hflag1') as (c & d & _ & Hres).
  destruct (Hres Hnt) as [Hdone Hd]. rewrite Hdone.
  eexists. split; [reflexivity|]. simpl. rewrite Happ, Hd. repeat split.
Qed.

Lemma batched_updates_share_one_frame_witness :
  let m1 := batchAll callingPage [playheadPayload; progressPayload; playheadPayload]
                     initialManager in
  pendingFrames m1 <= 1
  /\ applied m1 = []
  /\ (pendingFrames m1 = 1 ->
      exists m2,
        runAnimationFrame callingPage m1 = Done m2
        /\ applied m2 = [] ++ filter (fun sec => is_dirty sec m1) applyOrder
        /\ clean m2 = true
        /\ pendingFrames m2 = 0 /\ batchUpdatePending m2 = false
        /\ isApplyingState m2 = false
        /\ updateCount m2 = 2 + updateCount m1
        /\ sections m2 = sections m1).
Proof.
  apply (batched_updates_share_one_frame callingPage
           [playheadPayload; progressPayload; playheadPayload] initialManager).
  - apply callingPage_never_throws.
  - reflexivity.
  - reflexivity.
  - reflexivity.
Defined.

End VisualStateUseClaims.

(** ** Batched DOM work *)

Section BatcherFacts.
Import Batcher.

Lemma schedule_frame (b : DOMUpdateBatcher) :
  pendingReads (schedule b) = pendingReads b
  /\ pendingWrites (schedule b) = pendingWrites b
  /\ ran (schedule b) = ran b /\ warnings (schedule b) = warnings b
  /\ totalBatches (schedule b) = totalBatches b
  /\ totalReads (schedule b) = totalReads b /\ totalWrites (schedule b) = totalWrites b
  /\ (isScheduled b = true -> schedule b = b).
Proof. unfold schedule. destruct (isScheduled b); repeat split; done. Qed.

Variable behaviour : Fn -> list Act.

(** What running the acts of one function changes. *)
Lemma run_acts_frame (acts : list Act) : forall b,
  let b' := (run_acts acts b).1 in
  pendingReads b' = pendingReads b ++ queuedReads acts
  /\ pendingWrites b' = pendingWrites b ++ queuedWrites acts
  /\ ran b' = ran b /\ warnings b' = warnings b
  /\ totalBatches b' = totalBatches b
  /\ totalReads b' = totalReads b /\ totalWrites b' = totalWrites b
  /\ (run_acts acts b).2 = throws acts.
Proof.
  induction acts as [|[fn|fn|] rest IH]; intros b; cbv zeta.
  - simpl. rewrite !app_nil_r. repeat split.
  - cbn [run_acts queuedReads queuedWrites throws].
    destruct (IH (read fn b)) as (H1 & H2 & H3 & H4 & H5 & H6 & H7 & H8).
    unfold read in *.
    match type of H1 with context [schedule ?x] =>
      destruct (schedule_frame x) as (S1 & S2 & S3 & S4 & S5 & S6 & S7 & _) end.
    rewrite H1, H2, H3, H4, H5, H6, H7, H8, S1, S2, S3, S4, S5, S6, S7. simpl.
    rewrite <- app_assoc. repeat split.
  - cbn [run_acts queuedReads queuedWrites throws].
    destruct (IH (write fn b)) as (H1 & H2 & H3 & H4 & H5 & H6 & H7 & H8).
    unfold write in *.
    match type of H1 with context [schedule ?x] =>
      destruct (schedule_frame x) as (S1 & S2 & S3 & S4 & S5 & S6 & S7 & _) end.
    rewrite H1, H2, H3, H4, H5, H6, H7, H8, S1, S2, S3, S4, S5, S6, S7. simpl.
    rewrite <- app_assoc. repeat split.
  - simpl. rewrite !app_nil_r. repeat split.
Qed.

(** While a frame is scheduled, queueing asks for no further frame. *)
Lemma run_acts_scheduled (acts : list Act) : forall b,
  isScheduled b = true ->
  let b' := (run_acts acts b).1 in
  isScheduled b' = true /\ requested b' = requested b /\ frameId b' = frameId b
  /\ animationFrames b' = animationFrames b /\ nextFrame b' = nextFrame b.
Proof.
  induction acts as [|[fn|fn|] rest IH]; intros b Hs; cbv zeta; [done| | |done].
  - cbn [run_acts]. unfold read, schedule. simpl. rewrite Hs.
    match goal with |- context [run_acts rest ?x] => destruct (IH x eq_refl) as (?&?&?&?&?) end.
    done.
  - cbn [run_acts]. unfold write, schedule. simpl. rewrite Hs.
    match goal with |- context [run_acts rest ?x] => destruct (IH x eq_refl) as (?&?&?&?&?) end.
    done.
Qed.

Lemma call_frame (fn : Fn) (b : DOMUpdateBatcher) :
  pendingReads (call behaviour fn b) = pendingReads b ++ queuedReads (behaviour fn)
  /\ pendingWrites (call behaviour fn b) = pendingWrites b ++ queuedWrites (behaviour fn)
  /\ ran (call behaviour fn b) = ran b ++ [fn]
  /\ warnings (call behaviour fn b)
     = warnings b + (if throws (behaviour fn) then 1 else 0)
  /\ totalBatches (call behaviour fn b) = totalBatches b
  /\ totalReads (call behaviour fn b) = totalReads b
  /\ totalWrites (call behaviour fn b) = totalWrites b.
Proof.
  unfold call.
  destruct (run_acts_frame (behaviour fn) (record_run fn b))
    as (H1 & H2 & H3 & H4 & H5 & H6 & H7 & H8).
  destruct (run_acts (behaviour fn) (record_run fn b)) as [b' threw]. simpl in *.
  subst threw. destruct (throws (behaviour fn)); simpl;
    rewrite ?H1, ?H2, ?H3, ?H4, ?H5, ?H6, ?H7; repeat split; lia.
Qed.

Lemma call_scheduled (fn : Fn) (b : DOMUpdateBatcher) :
  isScheduled b = true ->
  isScheduled (call behaviour fn b) = true
  /\ requested (call behaviour fn b) = requested b.
Proof.
  intros Hs. unfold call.
  destruct (run_acts_scheduled (behaviour fn) (record_run fn b) Hs) as (H1 & H2 & _).
  destruct (run_acts (behaviour fn) (record_run fn b)) as [b' threw]. simpl in *.
  by destruct threw.
Qed.

Lemma callAll_frame (fns : list Fn) : forall b,
  pendingReads (callAll behaviour fns b) = pendingReads b ++ queuedBy behaviour queuedReads fns
  /\ pendingWrites (callAll behaviour fns b) = pendingWrites b ++ queuedBy behaviour queuedWrites fns
  /\ ran (callAll behaviour fns b) = ran b ++ fns
  /\ warnings (callAll behaviour fns b)
     = warnings b + length (filter (fun fn => throws (behaviour fn) = true) fns)
  /\ totalBatches (callAll behaviour fns b) = totalBatches b
  /\ totalReads (callAll behaviour fns b) = totalReads b
  /\ totalWrites (callAll behaviour fns b) = totalWrites b.
Proof.
  induction fns as [|fn rest IH]; intros b.
  - simpl. rewrite !app_nil_r. repeat split; lia.
  - unfold callAll in *. cbn [fold_left].
    destruct (IH (call behaviour fn b)) as (H1 & H2 & H3 & H4 & H5 & H6 & H7).
    destruct (call_frame fn b) as (C1 & C2 & C3 & C4 & C5 & C6 & C7).
    rewrite H1, H2, H3, H4, H5, H6, H7, C1, C2, C3, C4, C5, C6, C7.
    unfold queuedBy. cbn [flat_map]. rewrite <- !app_assoc. repeat split.
    rewrite filter_cons. destruct (decide (throws (behaviour fn) = true)) as [->|Hno].
    + simpl. lia.
    + apply not_true_is_false in Hno. rewrite Hno. lia.
Qed.

Lemma callAll_scheduled (fns : list Fn) : forall b,
  isScheduled b = true ->
  isScheduled (callAll behaviour fns b) = true
  /\ requested (callAll behaviour fns b) = requested b.
Proof.
  induction fns as [|fn rest IH]; intros b Hs; [done|].
  unfold callAll in *. cbn [fold_left].
  destruct (call_scheduled fn b Hs) as [H1 H2].
  destruct (IH _ H1) as [H3 H4]. split; [done|congruence].
Qed.

(** [forEach] visits the functions that were in the queue when it
    started, in order, also when the queue grows meanwhile. *)
Lemma forEach_callAll (queue : DOMUpdateBatcher -> list Fn) :
  (forall fn b, exists extra, queue (call behaviour fn b) = queue b ++ extra) ->
  forall fns pre post b,
    queue b = pre ++ fns ++ post ->
    forEach behaviour queue (length pre) (length fns) b = callAll behaviour fns b.
Proof.
  intros Hgrow. induction fns as [|fn rest IH]; intros pre post b Hq; [done|].
  cbn [length forEach]. rewrite Hq.
  rewrite lookup_app_r by lia. rewrite Nat.sub_diag. cbn [lookup list_lookup app].
  destruct (Hgrow fn b) as [extra Hextra].
  replace (S (length pre)) with (length (pre ++ [fn])) by (rewrite length_app; simpl; lia).
  rewrite (IH (pre ++ [fn]) (post ++ extra) (call behaviour fn b)); [done|].
  rewrite Hextra, Hq. by rewrite <- !app_assoc.
Qed.

Lemma flush_as_callAll (b : DOMUpdateBatcher) :
  let b1 := callAll behaviour (pendingReads b) b in
  let b2 := callAll behaviour (pendingWrites b1) b1 in
  flush behaviour b
  = mkBatcher [] [] false None (S (totalBatches b2))
              (totalReads b2 + length (pendingReads b2))
              (totalWrites b2 + length (pendingWrites b2))
              (requested b2) (animationFrames b2) (nextFrame b2) (ran b2) (warnings b2).
Proof.
  cbv zeta. unfold flush.
  assert (Hreads : forall fn b', exists extra,
             pendingReads (call behaviour fn b') = pendingReads b' ++ extra).
  { intros fn b'. destruct (call_frame fn b') as (-> & _). eauto. }
  assert (Hwrites : forall fn b', exists extra,
             pendingWrites (call behaviour fn b') = pendingWrites b' ++ extra).
  { intros fn b'. destruct (call_frame fn b') as (_ & -> & _). eauto. }
  pose proof (forEach_callAll pendingReads Hreads (pendingReads b) [] [] b) as H1.
  cbn [length app] in H1. rewrite H1 by (by rewrite app_nil_r).
  set (b1 := callAll behaviour (pendingReads b) b).
  pose proof (forEach_callAll pendingWrites Hwrites (pendingWrites b1) [] [] b1) as H2.
  cbn [length app] in H2. rewrite H2 by (by rewrite app_nil_r).
  reflexivity.
Qed.

Lemma request_frame (rs : list Request) : forall b,
  let b' := fold_left request rs b in
  pendingReads b' = pendingReads b ++ reads_of rs
  /\ pendingWrites b' = pendingWrites b ++ writes_of rs
  /\ ran b' = ran b.
Proof.
  induction rs as [|[fn|fn] rest IH]; intros b; cbv zeta.
  - simpl. rewrite !app_nil_r. repeat split; done.
  - cbn [fold_left request]. destruct (IH (read fn b)) as (H1 & H2 & H3).
    rewrite H1, H2, H3. unfold read in *.
    match type of H1 with context [schedule ?x] =>
      destruct (schedule_frame x) as (S1 & S2 & S3 & _) end.
    rewrite S1, S2, S3. simpl. rewrite <- app_assoc. repeat split.
  - cbn [fold_left request]. destruct (IH (write fn b)) as (H1 & H2 & H3).
    rewrite H1, H2, H3. unfold write in *.
    match type of H1 with context [schedule ?x] =>
      destruct (schedule_frame x) as (S1 & S2 & S3 & _) end.
    rewrite S1, S2, S3. simpl. rewrite <- app_assoc. repeat split.
Qed.

Lemma request_scheduled (rs : list Request) : forall b,
  isScheduled b = true ->
  let b' := fold_left request rs b in
  isScheduled b' = true /\ requested b' = requested b /\ frameId b' = frameId b.
Proof.
  induction rs as [|[fn|fn] rest IH]; intros b Hs; cbv zeta; [done| |].
  - cbn [fold_left request]. unfold read, schedule. simpl. rewrite Hs.
    match goal with |- context [fold_left request rest ?x] =>
      destruct (IH x eq_refl) as (?&?&?) end.
    done.
  - cbn [fold_left request]. unfold write, schedule. simpl. rewrite Hs.
    match goal with |- context [fold_left request rest ?x] =>
      destruct (IH x eq_refl) as (?&?&?) end.
    done.
Qed.

End BatcherFacts.

Section BatcherClaims.
Import Batcher.

(** X16.  One flush: the reads that were pending run first, in the
    order they were queued, then the writes that were pending, then
    the writes that those reads queued while running; a function that
    throws costs one warning and stops nothing.  Reads queued during
    the flush, and writes queued by writes, are thrown away without
    being run, though the statistics count them.  Afterwards both
    queues are empty and no frame is scheduled. *)
Theorem flush_runs_reads_then_writes (behaviour : Fn -> list Act) (b : DOMUpdateBatcher) :
  let reads := pendingReads b in
  let writes := pendingWrites b ++ flat_map (fun fn => queuedWrites (behaviour fn)) reads in
  let b' := flush behaviour b in
  ran b' = ran b ++ reads ++ writes
  /\ warnings b'
     = warnings b + length (filter (fun fn => throws (behaviour fn) = true) (reads ++ writes))
  /\ pendingReads b' = [] /\ pendingWrites b' = []
  /\ isScheduled b' = false /\ frameId b' = None
  /\ totalBatches b' = S (totalBatches b)
  /\ totalReads b'
     = totalReads b + length reads
       + length (flat_map (fun fn => queuedReads (behaviour fn)) (reads ++ writes))
  /\ totalWrites b'
     = totalWrites b + length writes
       + length (flat_map (fun fn => queuedWrites (behaviour fn)) writes).
Proof.
  cbv zeta. rewrite flush_as_callAll. cbv zeta. cbn [ran warnings pendingReads pendingWrites
    isScheduled frameId totalBatches totalReads totalWrites].
  destruct (callAll_frame behaviour (pendingReads b) b)
    as (R1 & R2 & R3 & R4 & R5 & R6 & R7).
  set (b1 := callAll behaviour (pendingReads b) b) in *.
  destruct (callAll_frame behaviour (pendingWrites b1) b1)
    as (W1 & W2 & W3 & W4 & W5 & W6 & W7).
  rewrite W1, W2, W3, W4, W5, W6, W7, R1, R2, R3, R4, R5, R6, R7.
  unfold queuedBy. rewrite !filter_app, !flat_map_app, !length_app, <- !app_assoc.
  repeat split; lia.
Qed.

(** X17.  Requests made between two frames share one animation frame:
    after any non-empty run of [read] and [write] calls on a new
    batcher exactly one frame has been requested, and when it runs
    the queued reads run before the queued writes, each group in
    request order; the flush asks for no further frame, so work that
    a function queues while the frame runs is not run later either. *)
Theorem requests_share_one_frame (behaviour : Fn -> list Act) (rs : list Request) :
  rs <> [] ->
  let b := fold_left request rs newBatcher in
  requested b = [1] /\ frameId b = Some 1
  /\ let b' := runFrame behaviour 1 b in
     ran b' = reads_of rs ++ writes_of rs
              ++ flat_map (fun fn => queuedWrites (behaviour fn)) (reads_of rs)
     /\ requested b' = [] /\ pendingReads b' = [] /\ pendingWrites b' = []
     /\ isScheduled b' = false.
Proof.
  intros Hne. cbv zeta. destruct rs as [|r rest]; [done|]. clear Hne.
  cbn [fold_left].
  assert (Hfirst : isScheduled (request newBatcher r) = true
                   /\ requested (request newBatcher r) = [1]
                   /\ frameId (request newBatcher r) = Some 1
                   /\ pendingReads (request newBatcher r) = reads_of [r]
                   /\ pendingWrites (request newBatcher r) = writes_of [r]
                   /\ ran (request newBatcher r) = []).
  { destruct r; repeat split. }
  destruct Hfirst as (Hs & Hreq & Hid & Hr & Hw & Hran).
  destruct (request_frame rest (request newBatcher r)) as (H1 & H2 & H3).
  destruct (request_scheduled rest (request newBatcher r) Hs) as (Hs' & Hreq' & Hid').
  set (b := fold_left request rest (request newBatcher r)) in *.
  rewrite Hreq', Hreq, Hid', Hid. split; [done|]. split; [done|].
  unfold runFrame. rewrite Hreq', Hreq. rewrite bool_decide_eq_true_2 by left.
  set (b0 := mkBatcher _ _ _ _ _ _ _ _ _ _ _ _).
  pose proof (flush_as_callAll behaviour b0) as Hflush. cbv zeta in Hflush.
  rewrite Hflush. cbn [ran requested pendingReads pendingWrites isScheduled].
  assert (Hs0 : isScheduled b0 = true) by exact Hs'.
  destruct (callAll_scheduled behaviour (pendingReads b0) b0 Hs0) as [Hs1 Hq1].
  set (b1 := callAll behaviour (pendingReads b0) b0) in *.
  destruct (callAll_scheduled behaviour (pendingWrites b1) b1 Hs1) as [_ Hq2].
  destruct (callAll_frame behaviour (pendingReads b0) b0) as (_ & R2 & R3 & _).
  fold b1 in R2, R3.
  destruct (callAll_frame behaviour (pendingWrites b1) b1) as (_ & _ & W3 & _).
  rewrite Hq2, Hq1, W3, R3, R2. subst b0. cbn [ran pendingReads pendingWrites requested].
  rewrite H1, H2, H3, Hr, Hw, Hran.
  assert (Hreads : reads_of [r] ++ reads_of rest = reads_of (r :: rest))
    by (by destruct r).
  assert (Hwrites : writes_of [r] ++ writes_of rest = writes_of (r :: rest))
    by (by destruct r).
  rewrite Hreads, Hwrites. unfold queuedBy. rewrite <- !app_assoc. repeat split.
Qed.

Lemma requests_share_one_frame_witness :
  let b := fold_left request [ReqWrite 3; ReqRead 1; ReqRead 2; ReqWrite 4] newBatcher in
  requested b = [1] /\ frameId b = Some 1
  /\ let b' := runFrame sampleBehaviour 1 b in
     ran b' = reads_of [ReqWrite 3; ReqRead 1; ReqRead 2; ReqWrite 4]
              ++ writes_of [ReqWrite 3; ReqRead 1; ReqRead 2; ReqWrite 4]
              ++ flat_map (fun fn => queuedWrites (sampleBehaviour fn))
                          (reads_of [ReqWrite 3; ReqRead 1; ReqRead 2; ReqWrite 4])
     /\ requested b' = [] /\ pendingReads b' = [] /\ pendingWrites b' = []
     /\ isScheduled b' = false.
Proof.
  apply (requests_share_one_frame sampleBehaviour
           [ReqWrite 3; ReqRead 1; ReqRead 2; ReqWrite 4]).
  discriminate.
Defined.

End BatcherClaims.

(** ** The resource registry *)

Section EventRegistryFacts.
Import EventRegistry.

Lemma remove_all {A} `{EqDecision A} (entries : list A) : forall held : list A,
  held ⊆ entries ->
  fold_left (fun held x => filter (fun y => y ≠ x) held) entries held = [].
Proof.
  induction entries as [|x entries IH]; intros held Hsub; simpl.
  - destruct held as [|y held]; [done|]. exfalso.
    by eapply not_elem_of_nil, Hsub; left.
  - apply IH. intros y Hy. apply list_elem_of_filter in Hy as [Hne Hy].
    apply Hsub, elem_of_cons in Hy as [->|Hy]; done.
Qed.

Lemma subseteq_snoc {A} (held entries : list A) (x : A) :
  held ⊆ entries -> held ++ [x] ⊆ entries ++ [x].
Proof.
  intros Hsub. apply list_subseteq_app_iff_l. split.
  - by apply list_subseteq_app_l.
  - apply list_subseteq_app_r. done.
Qed.

Lemma subseteq_cancel (id : nat) (live entries : list nat) :
  live ⊆ entries -> cancel id live ⊆ entries.
Proof. intros Hsub. etrans; [apply list_subseteq_filter|exact Hsub]. Qed.

Lemma Forall_delete {A} (P : A -> Prop) (l : list A) (i : nat) :
  Forall P l -> Forall P (delete i l).
Proof.
  rewrite !Forall_forall. intros Hall x Hx. apply Hall.
  eapply elem_of_sublist; [exact Hx|apply sublist_delete].
Qed.

Lemma step_tracked (s : Step) (e : Env) :
  without_capture s = true -> tracked e -> tracked (step e s).
Proof.
  intros Hnc (Hl & Hf & Ht & Hi & Hc).
  destruct s as [l| | | |element event handler|id|id]; simpl.
  - repeat split; simpl; try done.
    + unfold dom_add. case_bool_decide.
      * by apply list_subseteq_app_l.
      * by apply subseteq_snoc.
    + apply Forall_app. split; [done|]. apply Forall_singleton.
      simpl in Hnc. by destruct (l_capture l).
  - repeat split; simpl; try done. by apply subseteq_snoc.
  - repeat split; simpl; try done. by apply subseteq_snoc.
  - repeat split; simpl; try done. by apply subseteq_snoc.
  - repeat split; simpl; try done.
    + intros l Hin. unfold dom_remove in Hin.
      apply list_elem_of_filter in Hin as [Hne Hin]. pose proof (Hl l Hin) as Hreg.
      destruct (list_find _ _) as [[index found]|] eqn:Hfind; [|done].
      apply list_find_Some in Hfind as (Hindex & Hsame & _).
      apply list_elem_of_lookup in Hreg as [j Hj].
      destruct (decide (j = index)) as [->|Hji].
      * exfalso. apply Hne. rewrite Hindex in Hj. injection Hj as <-.
        destruct Hsame as (He & Hev & Hh). rewrite Forall_forall in Hc.
        assert (Hcap : l_capture found = false)
          by (apply Hc; by eapply list_elem_of_lookup_2).
        destruct found. simpl in *. by subst.
      * apply list_elem_of_lookup.
        destruct (decide (j < index)) as [Hlt|Hge].
        -- exists j. by rewrite list_lookup_delete_lt.
        -- exists (j - 1). rewrite list_lookup_delete_ge by lia.
           by replace (S (j - 1)) with j by lia.
    + destruct (list_find _ _) as [[index found]|]; [|done]. by apply Forall_delete.
  - repeat split; simpl; try done. by apply subseteq_cancel.
  - repeat split; simpl; try done. by apply subseteq_cancel.
Qed.

Lemma run_tracked (steps : list Step) : forall e,
  forallb without_capture steps = true -> tracked e -> tracked (run steps e).
Proof.
  induction steps as [|s steps IH]; intros e Hnc Htr; [done|].
  simpl in Hnc. apply andb_true_iff in Hnc as [Hs Hrest].
  unfold run. simpl. apply IH; [done|]. by apply step_tracked.
Qed.

End EventRegistryFacts.

Section EventRegistryClaims.
Import EventRegistry.

(** X18.  [cleanup] releases everything: whatever was registered,
    removed one by one, and already run by the browser since the
    registry was empty, after [cleanup] no listener is attached to the
    DOM, no animation frame, timeout or interval is still to run, and
    the registry counts zero resources.  Listeners are registered with
    the default options (no capture), as all callers do. *)
Theorem cleanup_releases_everything (steps : list Step) :
  forallb without_capture steps = true ->
  let e := cleanup (run steps initialEnv) in
  attached e = [] /\ liveFrames e = [] /\ liveTimeouts e = [] /\ liveIntervals e = []
  /\ getStats e = (0, 0, 0, 0).
Proof.
  intros Hnc. cbv zeta.
  assert (Hinit : tracked initialEnv) by (repeat split; simpl; done).
  destruct (run_tracked steps initialEnv Hnc Hinit) as (Hl & Hf & Ht & Hi & _).
  unfold cleanup. simpl. unfold dom_remove, cancel.
  rewrite !remove_all by done. done.
Qed.

Lemma cleanup_releases_everything_witness :
  let e := cleanup (run sampleSteps initialEnv) in
  attached e = [] /\ liveFrames e = [] /\ liveTimeouts e = [] /\ liveIntervals e = []
  /\ getStats e = (0, 0, 0, 0).
Proof. apply (cleanup_releases_everything sampleSteps). reflexivity. Defined.

(** A listener registered with capture and then removed through
    [removeListener] leaves the registry but stays attached; a later
    [cleanup] does not find it. *)
Example removeListener_misses_capturing_listener :
  let e := cleanup (removeListener 0 "scroll" 5
                      (register (mkListener 0 "scroll" 5 true) initialEnv)) in
  attached e = [mkListener 0 "scroll" 5 true] /\ getStats e = (0, 0, 0, 0).
Proof. vm_compute. done. Qed.

End EventRegistryClaims.

(** ** Recent projects, zoom, marker navigation, form fields, delegation *)

Section RecentProjectsClaims.
Import RecentProjects.

(** X19.  The list of recent projects: after [addToRecentProjects] the
    project is the first entry, with the name and date given, its path
    occurs nowhere else in the list, the entries behind it are entries
    of the old list in their old order, and the list has at most five
    entries; [removeFromRecentProjects] leaves no entry with the path
    and keeps all others in order. *)
Theorem recent_projects_most_recent_first (projectPath projectName now : string)
        (recentProjects : list RecentProject) :
  (exists rest,
      addToRecentProjects projectPath projectName now recentProjects
      = mkRecent projectPath projectName now :: rest
      /\ rest `sublist_of` recentProjects
      /\ (projectPath ∉ path <$> rest)
      /\ length rest <= 4)
  /\ (projectPath ∉ path <$> removeFromRecentProjects projectPath recentProjects)
  /\ removeFromRecentProjects projectPath recentProjects `sublist_of` recentProjects
  /\ (forall p, p ∈ recentProjects -> path p <> projectPath ->
                p ∈ removeFromRecentProjects projectPath recentProjects).
Proof.
  assert (Hnot : forall l : list RecentProject,
             l `sublist_of` filter (fun p => path p ≠ projectPath) recentProjects ->
             projectPath ∉ path <$> l).
  { intros l Hsub Hin. apply list_elem_of_fmap in Hin as (p & Hp & Hin).
    eapply elem_of_sublist in Hin; [|exact Hsub].
    apply list_elem_of_filter in Hin as [Hne _]. done. }
  split; [|split; [|split]].
  - unfold addToRecentProjects, MAX_RECENT_PROJECTS. cbn [take].
    exists (take 4 (filter (fun p => path p ≠ projectPath) recentProjects)).
    split; [reflexivity|]. split; [|split].
    + etrans; [apply sublist_take|apply sublist_filter].
    + apply Hnot, sublist_take.
    + rewrite length_take. lia.
  - by apply Hnot.
  - apply sublist_filter.
  - intros p Hp Hne. by apply list_elem_of_filter.
Qed.

End RecentProjectsClaims.

Section ZoomClaims.
Import Zoom.
Local Open Scope Q_scope.

Ltac clamp_cases :=
  repeat match goal with
         | |- context [Qmax ?a ?b] =>
             let H := fresh "Hmax" in
             pose proof (Q.max_spec a b) as H; generalize dependent (Qmax a b); intros
         | |- context [Qmin ?a ?b] =>
             let H := fresh "Hmin" in
             pose proof (Q.min_spec a b) as H; generalize dependent (Qmin a b); intros
         end.

(** X20.  The zoom level stays between 0.5 and 5: starting from the
    initial level 1, any sequence of [zoomIn] and [zoomOut] keeps it in
    that range; [zoomIn] never lowers the level and [zoomOut] never
    raises it. *)
Theorem zoom_level_stays_in_range (steps : list ZoomStep) :
  let level := fold_left zoom steps initialZoom in
  (1 # 2) <= level /\ level <= 5
  /\ level <= zoomIn level /\ zoomOut level <= level.
Proof.
  cbv zeta.
  assert (Hrange : forall z, (1 # 2) <= z <= 5 ->
                             (1 # 2) <= fold_left zoom steps z <= 5).
  { induction steps as [|s steps IH]; intros z Hz; [done|].
    simpl. apply IH. destruct s; simpl; unfold zoomIn, zoomOut.
    - clamp_cases. lra.
    - assert (Hd : z / (12 # 10) == z * (10 # 12)) by field.
      clamp_cases. lra. }
  assert (H1 : (1 # 2) <= initialZoom <= 5) by (unfold initialZoom; lra).
  destruct (Hrange initialZoom H1) as [Hlo Hhi].
  set (z := fold_left zoom steps initialZoom) in *. clearbody z.
  split; [done|]. split; [done|]. unfold zoomIn, zoomOut. split.
  - clamp_cases. lra.
  - assert (Hd : z / (12 # 10) == z * (10 # 12)) by field.
    clamp_cases. lra.
Qed.

End ZoomClaims.

Section MarkerNavigationClaims.
Import MarkerNavigation.
Local Open Scope Q_scope.






(** The jumps of the sample: forward to A at 12 s, back to D at 3.5 s
    (B at 0 s, met first, is given up for D). *)
Example marker_navigation_sample :
  j_label <$> seekToNextMarker (Some 60) 5 sampleMarkers = Some "A"
  /\ j_label <$> seekToPreviousMarker (Some 60) 5 sampleMarkers = Some "D".
Proof. vm_compute. done. Qed.

End MarkerNavigationClaims.

Section TimeInputsClaims.
Import Js TimeInputs.
Local Open Scope Q_scope.

(** X22.  The Apply button of the overlay form: on a video with a
    positive, finite duration, [validateTimeInputs] enables the button
    only if an image is selected and both fields hold numbers, the
    start not negative, the duration positive, and start plus duration
    within the duration of the video.  [parseFloat] may be any reader
    that gives [NaN] for the empty text. *)
Theorem apply_button_needs_times_inside_video (parseFloat : string -> JsNum)
        (startValue durationValue : string) (videoDuration : Q) (imageSelected : bool) :
  parseFloat ""%string = NaN ->
  0 < videoDuration ->
  validateTimeInputs parseFloat startValue durationValue (Fin videoDuration) imageSelected
  = true ->
  imageSelected = true
  /\ exists start duration,
       parseFloat startValue = Fin start /\ parseFloat durationValue = Fin duration
       /\ 0 <= start /\ 0 < duration /\ start + duration <= videoDuration.
Proof.
  intros Hempty Hd. unfold validateTimeInputs, validateTimeInput, validateDurationInput.
  assert (Hfalsy : falsy (ANum (Fin videoDuration)) = false).
  { simpl. apply not_true_is_false. intros Hz. apply Qeq_bool_iff in Hz. lra. }
  rewrite Hfalsy. cbn [negb andb].
  intros Hok. apply andb_prop in Hok as [Hok Himg]. apply andb_prop in Hok as [Hs Hu].
  split; [exact Himg|].
  destruct (decide (startValue = ""%string)) as [->|Hne].
  { rewrite Hempty in Hs. discriminate. }
  destruct (parseFloat startValue) as [s| | |]; try discriminate Hs.
  destruct (parseFloat durationValue) as [u| | |]; try discriminate Hu.
  exists s, u. do 2 (split; [reflexivity|]).
  cbn [isNaN orb lt le add] in Hs, Hu.
  destruct (Trim.Qltb s 0) eqn:Hs0; [discriminate|]. apply Qltb_ge in Hs0.
  destruct (Qle_bool u 0) eqn:Hu0; [discriminate|].
  destruct (Trim.Qltb videoDuration (s + u)) eqn:Hsum; [discriminate|].
  apply Qltb_ge in Hsum. split; [exact Hs0|]. split; [|exact Hsum].
  apply Qnot_le_lt. intros Hle. apply Qle_bool_iff in Hle. congruence.
Qed.

Lemma apply_button_needs_times_inside_video_witness :
  true = true
  /\ exists start duration,
       sampleParse "2.5" = Fin start /\ sampleParse "4" = Fin duration
       /\ 0 <= start /\ 0 < duration /\ start + duration <= 10.
Proof.
  apply (apply_button_needs_times_inside_video sampleParse "2.5" "4" 10 true).
  - reflexivity.
  - reflexivity.
  - reflexivity.
Defined.

(** Without a video ([duration] is [NaN]) the length checks are
    skipped: any positive numbers enable the button. *)
Example apply_button_without_video :
  validateTimeInputs sampleParse "4" "2.5" NaN true = true.
Proof. reflexivity. Qed.

End TimeInputsClaims.

Section DelegationClaims.
Import Timeline Delegation.
Local Open Scope Q_scope.



End DelegationClaims.

(** ** Time formatting, resizing and marker dragging *)

Section FormatAgreement.
Import Js TimeFormat.
Local Open Scope string_scope.

Lemma Qfloor_unique (x : Q) (z : Z) :
  (inject_Z z <= x)%Q -> (x < inject_Z z + 1)%Q -> Qfloor x = z.
Proof.
  intros Hle Hlt. apply Z.le_antisymm.
  - apply Z.lt_succ_r. rewrite Zlt_Qlt. unfold Z.succ. rewrite inject_Z_plus.
    eapply Qle_lt_trans; [apply Qfloor_le|exact Hlt].
  - by apply Qfloor_ge.
Qed.

(** The fraction of a second is the same whether it is taken from
    the time or from its remainder modulo 60. *)
Lemma fraction_of_second (q : Q) :
  (0 <= q)%Q ->
  let r := (q - 60 * inject_Z (Qtrunc (q / 60)))%Q in
  ((r - inject_Z (Qfloor r)) * 1000 == (q - 1 * inject_Z (Qtrunc (q / 1))) * 1000)%Q.
Proof.
  intros Hq. cbv zeta.
  assert (H60 : (q == 60 * (q / 60))%Q) by field.
  assert (Hq1 : (q / 1 == q)%Q) by field.
  pose proof (Qfloor_le (q / 60)) as Hml. pose proof (Qlt_floor (q / 60)) as Hmu.
  rewrite inject_Z_plus in Hmu. change (inject_Z 1) with 1%Q in Hmu.
  assert (Htr60 : Qtrunc (q / 60) = Qfloor (q / 60)).
  { unfold Qtrunc. replace (Qle_bool 0 (q / 60)) with true; [done|].
    symmetry. apply Qle_bool_iff. set (x := (q / 60)%Q) in *. clearbody x. lra. }
  assert (Htr1 : Qtrunc (q / 1) = Qfloor q).
  { unfold Qtrunc. replace (Qle_bool 0 (q / 1)) with true.
    - by apply Qfloor_comp.
    - symmetry. apply Qle_bool_iff. rewrite Hq1. exact Hq. }
  rewrite Htr60, Htr1. set (m := Qfloor (q / 60)) in *.
  pose proof (Qfloor_le q) as Hfl. pose proof (Qlt_floor q) as Hfu.
  rewrite inject_Z_plus in Hfu. change (inject_Z 1) with 1%Q in Hfu.
  assert (Hfloor : Qfloor (q - 60 * inject_Z m) = (Qfloor q - 60 * m)%Z).
  { apply Qfloor_unique.
    - unfold Z.sub. rewrite inject_Z_plus, inject_Z_opp, inject_Z_mult.
      change (inject_Z 60) with 60%Q.
      set (f := inject_Z (Qfloor q)) in *. set (im := inject_Z m) in *.
      clearbody f im. lra.
    - unfold Z.sub. rewrite inject_Z_plus, inject_Z_opp, inject_Z_mult.
      change (inject_Z 60) with 60%Q.
      set (f := inject_Z (Qfloor q)) in *. set (im := inject_Z m) in *.
      clearbody f im. lra. }
  rewrite Hfloor. unfold Z.sub. rewrite inject_Z_plus, inject_Z_opp, inject_Z_mult.
  change (inject_Z 60) with 60%Q. ring.
Qed.

Lemma append_assoc (a b c : string) : (a ++ b) ++ c = a ++ (b ++ c).
Proof.
  induction a as [|x a IH]; [done|].
  change (String x ((a ++ b) ++ c) = String x (a ++ (b ++ c))). by f_equal.
Qed.

(** X24.  The two global formatters agree: for every argument that is
    not a negative number, [formatTimeWithMilliseconds(seconds)]
    returns the very string that [formatTime(seconds, true)] returns. *)
Theorem formatTimeWithMilliseconds_agrees_with_formatTime (seconds : JsArg) :
  (forall q, seconds = ANum (Fin q) -> (0 <= q)%Q) ->
  formatTimeWithMilliseconds seconds = formatTime seconds true.
Proof.
  intros Hpos. destruct seconds as [[q| | |]|]; try reflexivity.
  specialize (Hpos q eq_refl). unfold formatTimeWithMilliseconds, formatTime.
  cbn [to_number div_pos rem_pos floor of_int sub mul_pos].
  pose proof (fraction_of_second q Hpos) as Hfrac. cbv zeta in Hfrac.
  rewrite (Qfloor_comp _ _ Hfrac), !append_assoc. reflexivity.
Qed.

Lemma formatTimeWithMilliseconds_agrees_with_formatTime_witness :
  formatTimeWithMilliseconds (ANum (Fin (7512 # 100))) = formatTime (ANum (Fin (7512 # 100))) true
  /\ formatTime (ANum (Fin (7512 # 100))) true = "01:15.120".
Proof.
  split; [|vm_compute; reflexivity].
  apply (formatTimeWithMilliseconds_agrees_with_formatTime (ANum (Fin (7512 # 100)))).
  intros q [= <-]. discriminate.
Defined.

(** On a negative time the two differ: [seconds % 1] keeps the sign. *)
Example formatters_differ_on_negative_time :
  formatTime (ANum (Fin (- (5 # 10)))) true = "-1:-1.500"
  /\ formatTimeWithMilliseconds (ANum (Fin (- (5 # 10)))) = "-1:-1.-500".
Proof. vm_compute. done. Qed.

(** X25.  The shape of a formatted time: for a finite time from 0 up
    to, not including, 100 minutes, [formatTime] returns two digits, a
    colon and two digits, followed, when milliseconds are asked for,
    by a dot and three digits. *)
Theorem formatTime_has_fixed_shape (q : Q) (withMilliseconds : bool) :
  (0 <= q)%Q -> (q < 6000)%Q ->
  has_shape withMilliseconds (formatTime (ANum (Fin q)) withMilliseconds) = true.
Proof. apply formatTime_shape. Qed.

Lemma formatTime_has_fixed_shape_witness :
  has_shape true (formatTime (ANum (Fin (59999 # 1000))) true) = true
  /\ formatTime (ANum (Fin (59999 # 1000))) true = "00:59.999".
Proof.
  split; [|vm_compute; reflexivity].
  apply (formatTime_has_fixed_shape (59999 # 1000) true); [discriminate|reflexivity].
Defined.

End FormatAgreement.

Section TrackClaims.
Import Timeline TimelineSamples.
Local Open Scope Q_scope.





(** X28.  Dragging a marker: every pointer move puts the marker
    between 0 and 100 on the track and stores, both on the element and
    under the marker's label in [timelineState.currentMarkers], the
    time that corresponds to the drawn position; the overlay store is
    not touched. *)
Theorem marker_drag_keeps_time_with_position
        (behaviour : OverlayStore.HandlerId -> OverlayStore.EventData -> OverlayStore.World
                     -> OverlayStore.Completion)
        (clientX trackWidth : Q) (pg : Page) (i : nat) (el : Element) :
  ds_isDragging (dragState (tl pg)) = true ->
  ds_isDraggingPlayhead (dragState (tl pg)) = false ->
  ds_element (dragState (tl pg)) = Some i ->
  dom pg !! i = Some el ->
  has_class "marker-item" el = true ->
  0 < trackWidth ->
  let pg' := handleAdvancedMouseMove behaviour clientX trackWidth pg in
  exists el',
    dom pg' !! i = Some el'
    /\ 0 <= el_left el' /\ el_left el' <= 100
    /\ el_data_time el' = (el_left el' / 100) * durationOr100 pg
    /\ currentMarkers (tl pg') !! el_data_label el = Some (el_data_time el')
    /\ world pg' = world pg.
Proof.
  intros Hdrag Hph Hi Hel Hmk Htw. cbv zeta. unfold handleAdvancedMouseMove.
  rewrite Hdrag, Hph, (Qle_bool_false _ _ Htw), Hi, Hel, Hmk. simpl.
  eexists. split.
  - apply list_lookup_insert_eq. by apply lookup_lt_Some in Hel.
  - simpl. pose proof (movedPosition_range (ds_initialLeft (dragState (tl pg)))
                         ((clientX - ds_initialX (dragState (tl pg))) / trackWidth * 100))
      as [H0 H100].
    split; [exact H0|]. split; [exact H100|]. split; [reflexivity|].
    split; [apply lookup_insert_eq|reflexivity].
Qed.

Lemma marker_drag_keeps_time_with_position_witness :
  let pg' := handleAdvancedMouseMove quiet 1500 1000 sampleMarkerGrabbed in
  exists el',
    dom pg' !! 0%nat = Some el'
    /\ 0 <= el_left el' /\ el_left el' <= 100
    /\ el_data_time el' = (el_left el' / 100) * durationOr100 sampleMarkerGrabbed
    /\ currentMarkers (tl pg') !! "B" = Some (el_data_time el')
    /\ world pg' = world sampleMarkerGrabbed.
Proof.
  apply (marker_drag_keeps_time_with_position quiet 1500 1000 sampleMarkerGrabbed 0
           sampleMarker).
  - reflexivity.
  - reflexivity.
  - reflexivity.
  - reflexivity.
  - vm_compute. reflexivity.
  - reflexivity.
Defined.

End TrackClaims.

(** ** The cache of CSS custom properties *)

Section CssCacheClaims.
Import CssCache.






End CssCacheClaims.

(** ** [VisualStateManager.throttle] *)

Section ThrottleClaims.
Import Throttle.

Context {A : Type}.
Variable delay : Z.

Lemma spaced_snoc (log : list (Z * A)) (t : Z) (a : A) :
  spaced delay log ->
  (forall t0 a0, last log = Some (t0, a0) -> (t0 + delay <= t)%Z) ->
  spaced delay (log ++ [(t, a)]).
Proof.
  induction log as [|[t1 a1] rest IH]; intros Hsp Hlast; [done|].
  destruct Hsp as [Hhead Hrest]. destruct rest as [|[t2 a2] rest].
  - simpl. split; [|done]. by apply (Hlast t1 a1).
  - split; [exact Hhead|]. apply IH; [exact Hrest|].
    intros t0 a0 H0. by apply (Hlast t0 a0).
Qed.

Lemma step_invariant (c : Closure A) (seen : list A) (e : Event A) :
  invariant delay c seen ->
  match e, timer c with
  | Call now _, Some (due, _) => (now <= due)%Z
  | _, _ => True
  end ->
  invariant delay (step delay c e) (seen ++ calls [e]).
Proof.
  intros Hinv Hpunctual. pose proof Hinv as (Hdue & Hsp & Hlast & Hargs & Hseen).
  destruct e as [now args|now]; simpl.
  - unfold throttled. destruct (Z.ltb_spec delay (now - lastExecTime c)) as [Hlead|Hwait].
    + assert (Hnone : timer c = None).
      { destruct (timer c) as [[due a]|] eqn:Ht; [|done].
        specialize (Hdue due a eq_refl). lia. }
      rewrite Hnone. repeat split; simpl.
      * done.
      * apply spaced_snoc; [done|]. intros t0 a0 H0. rewrite (Hlast t0 a0 H0). lia.
      * intros t a. rewrite last_snoc. by intros [= <- _].
      * right. exists now, args. by rewrite !last_snoc.
      * intros t a [Hin|Hin%list_elem_of_singleton]%elem_of_app.
        -- apply elem_of_app. left. by apply (Hseen t a).
        -- apply elem_of_app. right. injection Hin as _ ->. by apply list_elem_of_singleton.
    + repeat split; simpl.
      * intros due a [= <- _]. lia.
      * done.
      * done.
      * by rewrite last_snoc.
      * intros t a Hin. apply elem_of_app. left. by apply (Hseen t a).
  - rewrite app_nil_r. unfold timeout.
    destruct (timer c) as [[due a]|] eqn:Ht; [|exact Hinv].
    destruct (Z.leb_spec due now) as [Hripe|Hearly]; [|exact Hinv].
    specialize (Hdue due a eq_refl). repeat split; simpl.
    + done.
    + apply spaced_snoc; [done|]. intros t0 a0 H0. rewrite (Hlast t0 a0 H0). lia.
    + intros t a'. rewrite last_snoc. by intros [= <- _].
    + right. exists now, a. by rewrite last_snoc.
    + intros t a' [Hin|Hin%list_elem_of_singleton]%elem_of_app.
      * by apply (Hseen t a').
      * injection Hin as _ ->. destruct seen as [|s seen _] using rev_ind; [done|].
        rewrite last_snoc in Hargs. injection Hargs as ->.
        apply elem_of_app. right. by apply list_elem_of_singleton.
Qed.

Lemma steps_invariant (events : list (Event A)) : forall c seen,
  invariant delay c seen -> punctual delay c events ->
  invariant delay (fold_left (step delay) events c) (seen ++ calls events).
Proof.
  induction events as [|e events IH]; intros c seen Hinv Hp.
  - by rewrite app_nil_r.
  - destruct Hp as [He Hp].
    assert (Hcalls : seen ++ calls (e :: events) = (seen ++ calls [e]) ++ calls events).
    { rewrite <- app_assoc. f_equal. unfold calls. simpl. by destruct e. }
    rewrite Hcalls. cbn [fold_left]. apply IH; [|exact Hp]. by apply step_invariant.
Qed.

(** X30.  A throttled function, when no call finds an overdue timer
    still waiting: the executions of [func] are at least [delay]
    apart, each passes the arguments of some call, and once no timer
    is waiting the last execution has passed the arguments of the
    last call. *)
Theorem throttle_spaces_executions (events : list (Event A)) :
  punctual delay created events ->
  let c := run delay events in
  spaced delay (executed c)
  /\ (forall t a, (t, a) ∈ executed c -> a ∈ calls events)
  /\ (timer c = None ->
      forall a, last (calls events) = Some a -> exists t, last (executed c) = Some (t, a)).
Proof.
  intros Hp. cbv zeta.
  assert (Hstart : invariant delay (@created A) []).
  { repeat split; simpl; try done. by left. intros t a Hin. by apply elem_of_nil in Hin. }
  destruct (steps_invariant events created [] Hstart Hp) as (_ & Hsp & _ & Hargs & Hseen).
  rewrite app_nil_l in Hargs, Hseen. fold (run delay events) in Hsp, Hargs, Hseen.
  split; [exact Hsp|]. split; [exact Hseen|].
  intros Hnone a Ha. rewrite Hnone in Hargs.
  destruct Hargs as [Hempty|(t & a' & Hlast & Ha')].
  - by rewrite Hempty in Ha.
  - exists t. rewrite Hlast. do 2 f_equal. congruence.
Qed.

End ThrottleClaims.

Lemma throttle_spaces_executions_witness :
  let c := Throttle.run 100 Throttle.timerOnTime in
  Throttle.spaced 100 (Throttle.executed c)
  /\ (forall t a, (t, a) ∈ Throttle.executed c -> a ∈ Throttle.calls Throttle.timerOnTime)
  /\ (Throttle.timer c = None ->
      forall a, last (Throttle.calls Throttle.timerOnTime) = Some a ->
                exists t, last (Throttle.executed c) = Some (t, a)).
Proof.
  apply (throttle_spaces_executions 100 Throttle.timerOnTime).
  vm_compute. repeat split; discriminate.
Defined.

(** The first branch of the throttled function leaves a waiting timer
    alone: when the timer runs late, after a later call has been
    served, two executions are a millisecond apart and the last one
    passes stale arguments. *)
Example throttle_late_timer :
  Throttle.executed (Throttle.run 100 Throttle.lateTimer)
  = [(1000%Z, "a"); (1200%Z, "c"); (1201%Z, "b")].
Proof. reflexivity. Qed.
